(** * Quantum Chord Display: the signal pipeline of [main.py]

    A shallow embedding of the ring buffer, the chroma extractor, the chord
    matcher and the emit decision of [src/main.py], with the properties of
    the specification stated over it.

    Numbers.  Sample positions and lengths are Python integers, modelled
    as [Z].  The matcher, the threshold and the emit decision work on
    floats that are compared and combined with field operations only;
    they are modelled over [Q], which keeps them executable (every finite
    float is a rational).  The extractor goes through a Hann window, a
    discrete Fourier transform, a modulus and a logarithm, whose exact
    values are irrational; it is modelled over [R], and so is the
    smoothing that consumes its output.

    These models compute in exact arithmetic: they leave out the rounding,
    the overflow and the underflow of the float operations, and a
    statement over them says what the code computes up to that.  Where a
    property turns on the rounding itself, the code is read a second time
    over IEEE 754 floats ([Matcher64] for [best_chord] and [Display64]
    for [rms] and [cosine_sim] in binary64, [Chroma32] for the
    normalisation and the smoothing of the chromagram in binary32), with
    the operations of the standard library's [SpecFloat]. *)

From Stdlib Require Import Bool String Ascii ZArith List Lia.
From Stdlib Require Import QArith Qabs Lqa.
From Stdlib Require Import Reals Lra.
From Stdlib Require SpecFloat.
Import ListNotations.

Open Scope Z_scope.

(** ** Python and NumPy values *)

(** The exceptions the modelled code can raise. *)
Inductive exn : Type :=
| ValueError
| ZeroDivisionError.

Inductive result (A : Type) : Type :=
| Ok (a : A)
| Raise (e : exn).
Arguments Ok {A} a.
Arguments Raise {A} e.

Definition bind {A B} (r : result A) (k : A -> result B) : result B :=
  match r with
  | Ok a => k a
  | Raise e => Raise e
  end.

Notation "x <- c ;; k" := (bind c (fun x => k))
  (at level 61, c at next level, right associativity).

Definition returns {A} (r : result A) : Prop := exists a, r = Ok a.

Module Py.

Definition len {A} (l : list A) : Z := Z.of_nat (length l).

(** [a % b] on Python integers: the sign follows the divisor, and a zero
    divisor raises. *)
Definition mod_ (a b : Z) : result Z :=
  if b =? 0 then Raise ZeroDivisionError else Ok (a mod b).

(** A slice bound, normalised against the length as Python does: a
    negative bound counts from the end, and both are clamped. *)
Definition bound (n i : Z) : Z :=
  if i <? 0 then Z.max 0 (i + n) else Z.min i n.

(** [l[lo:hi]] *)
Definition slice {A} (l : list A) (lo hi : Z) : list A :=
  let lo' := bound (len l) lo in
  let hi' := bound (len l) hi in
  firstn (Z.to_nat (hi' - lo')) (skipn (Z.to_nat lo') l).

(** [l[lo:]] and [l[:hi]] *)
Definition slice_from {A} (l : list A) (lo : Z) : list A :=
  slice l lo (len l).
Definition slice_to {A} (l : list A) (hi : Z) : list A :=
  slice l 0 hi.

(** [a[lo:hi] = x] on a one-dimensional NumPy array: the array keeps its
    length; [x] must have the length of the slice, or length one (it is
    then broadcast); anything else raises [ValueError]. *)
Definition assign {A} (a : list A) (lo hi : Z) (x : list A)
  : result (list A) :=
  let lo' := bound (len a) lo in
  let hi' := bound (len a) hi in
  let t := Z.to_nat (hi' - lo') in
  let pre := firstn (Z.to_nat lo') a in
  let post := skipn (Z.to_nat lo' + t) a in
  if Nat.eqb (length x) t then Ok (pre ++ x ++ post)
  else match x with
       | [v] => Ok (pre ++ repeat v t ++ post)
       | _ => Raise ValueError
       end.

(** [range(start, stop, step)] as a list: [start], [start + step], ...
    while below [stop] (above it, for a negative step).  The fuel bounds
    the number of elements; [range] gives enough of it. *)
Fixpoint range_up (fuel : nat) (start stop step : Z) : list Z :=
  match fuel with
  | O => []
  | S f => if start <? stop
           then start :: range_up f (start + step) stop step
           else []
  end.

Fixpoint range_down (fuel : nat) (start stop step : Z) : list Z :=
  match fuel with
  | O => []
  | S f => if stop <? start
           then start :: range_down f (start + step) stop step
           else []
  end.

(** [range] raises on a zero step. *)
Definition range (start stop step : Z) : result (list Z) :=
  if step =? 0 then Raise ValueError
  else if 0 <? step
       then Ok (range_up (Z.to_nat (stop - start)) start stop step)
       else Ok (range_down (Z.to_nat (start - stop)) start stop step).

End Py.

(** ** The ring buffer ([AudioRingBuffer]) *)

Module RingBuffer.
Section Samples.

(** The samples are [float32] values; [push] casts its argument to
    [float32] first, so a block is taken here as already cast.  [zero]
    is the initial content of the array. *)
Context {A : Type} (zero : A).

Record t : Type := mk {
  size : Z;
  buf : list A;
  write_idx : Z;
  filled : bool
}.

(** [__init__], with [size = int(sr * seconds)] already computed.
    [np.zeros] refuses a negative size. *)
Definition init (sz : Z) : result t :=
  if sz <? 0 then Raise ValueError
  else Ok {| size := sz; buf := repeat zero (Z.to_nat sz);
             write_idx := 0; filled := false |}.

Definition push (rb : t) (x : list A) : result t :=
  let n := Py.len x in
  if n =? 0 then Ok rb
  else
    let idx := write_idx rb in
    let end_ := idx + n in
    b <- (if end_ <=? size rb
          then Py.assign (buf rb) idx end_ x
          else
            let first := size rb - idx in
            b1 <- Py.assign (buf rb) idx (Py.len (buf rb))
                            (Py.slice_to x first) ;;
            k <- Py.mod_ end_ (size rb) ;;
            Py.assign b1 0 k (Py.slice_from x first)) ;;
    w <- Py.mod_ end_ (size rb) ;;
    Ok {| size := size rb; buf := b; write_idx := w; filled := true |}.

Definition read_last (rb : t) (n : Z) : result (list A) :=
  let n := Z.min n (size rb) in
  if negb (filled rb) && (write_idx rb <? n)
  then Ok (Py.slice_to (buf rb) (write_idx rb))
  else
    start <- Py.mod_ (write_idx rb - n) (size rb) ;;
    if start <? write_idx rb
    then Ok (Py.slice (buf rb) start (write_idx rb))
    else Ok (Py.slice_from (buf rb) start
               ++ Py.slice_to (buf rb) (write_idx rb)).

(** A sequence of [push] calls, stopping at the first one that raises. *)
Fixpoint push_all (rb : t) (blocks : list (list A)) : result t :=
  match blocks with
  | [] => Ok rb
  | x :: rest => rb' <- push rb x ;; push_all rb' rest
  end.

(** The states the constructor and [push] produce, for a positive
    capacity: the array has the capacity's length and the write cursor
    lies in [[0, size)]. *)
Definition wf (rb : t) : Prop :=
  0 < size rb /\ Py.len (buf rb) = size rb /\
  0 <= write_idx rb < size rb.

(** *** Vocabulary of the properties *)

(** The last [k] elements of a list. *)
Definition last_n (k : nat) (l : list A) : list A :=
  skipn (length l - k) l.

(** The array read from the write cursor round to it: oldest first, once
    every slot has been written. *)
Definition rotated (b : list A) (w : nat) : list A :=
  skipn w b ++ firstn w b.

(** The buffer holds the end of [prefix ++ data], where [prefix] is what
    the array held before [data] was pushed. *)
Definition tracks (rb : t) (prefix data : list A) : Prop :=
  wf rb
  /\ length prefix = Z.to_nat (size rb)
  /\ rotated (buf rb) (Z.to_nat (write_idx rb))
     = last_n (Z.to_nat (size rb)) (prefix ++ data)
  /\ (data <> [] -> filled rb = true).

(** What a [push] of a block that fits the capacity does to the array,
    with positions as naturals. *)
Definition pushed (b : list A) (w : nat) (x : list A) : list A :=
  let sz := length b in
  if (w + length x <=? sz)%nat
  then firstn w b ++ x ++ skipn (w + length x) b
  else skipn (sz - w) x
       ++ skipn (w + length x - sz) (firstn w b ++ firstn (sz - w) x).

End Samples.
End RingBuffer.

(** ** Configuration constants of [main.py] *)

Definition SR : Z := 22050.
Definition N_FFT : Z := 2048.
Definition HOP_LEN : Z := 512.

(** [int(SR * WIN_SEC)] with [WIN_SEC = 0.75]: the capacity of the ring
    buffer and the number of samples the loop reads. *)
Definition WIN_SAMPLES : Z := 16537.

(** The label shown when no chord is recognised (an em dash). *)
Definition SENTINEL : string := "—".

(** ** The chord matcher ([CHORD_TEMPLATES], [best_chord])

    Over [Q]: sums, quotients and products are exact here, where the code
    rounds each of them in binary64 ([Matcher64] below is that
    reading). *)

Module Matcher.

Open Scope Q_scope.

Definition Qltb (a b : Q) : bool := negb (Qle_bool b a).

Definition NOTE_NAMES : list string :=
  ["C"; "C#"; "D"; "D#"; "E"; "F"; "F#"; "G"; "G#"; "A"; "A#"; "B"]%string.

Definition np_zeros (n : nat) : list Q := repeat 0 n.

(** [v[i] = x] for an index inside the array (the only use the code makes
    of it; outside, the array is left as it is here). *)
Fixpoint set_item (v : list Q) (i : nat) (x : Q) : list Q :=
  match v, i with
  | [], _ => []
  | _ :: rest, O => x :: rest
  | a :: rest, S j => a :: set_item rest j x
  end.

(** [d[key] = value] on a dict, which keeps insertion order: an existing
    key keeps its place, a new one goes last. *)
Fixpoint dict_set {V} (d : list (string * V)) (key : string) (value : V)
  : list (string * V) :=
  match d with
  | [] => [(key, value)]
  | (k, v) :: rest =>
      if String.eqb k key then (k, value) :: rest
      else (k, v) :: dict_set rest key value
  end.

(** The vector with ones at [root], [root + third] and [root + 7],
    modulo 12. *)
Definition triad (root third : nat) : list Q :=
  set_item
    (set_item (set_item (np_zeros 12) root 1)
       ((root + third) mod 12) 1)
    ((root + 7) mod 12) 1.

(** The module-level loop that fills [CHORD_TEMPLATES]. *)
Definition CHORD_TEMPLATES : list (string * list Q) :=
  fold_left
    (fun d root =>
       let name := nth root NOTE_NAMES EmptyString in
       let d := dict_set d name (triad root 4) in
       dict_set d (name ++ "m")%string (triad root 3))
    (seq 0 12) [].

Definition np_maximum0 (v : list Q) : list Q :=
  map (fun x => if Qltb x 0 then 0 else x) v.

Definition np_sum (v : list Q) : Q := fold_left Qplus v 0.

Definition np_div (v : list Q) (s : Q) : list Q := map (fun x => x / s) v.

(** [np.dot] of two vectors; their lengths must agree. *)
Definition np_dot (a b : list Q) : result Q :=
  if Nat.eqb (length a) (length b)
  then Ok (np_sum (map (fun p => fst p * snd p) (combine a b)))
  else Raise ValueError.

(** One turn of the loop over the templates. *)
Definition best_step (chroma : list Q) (best : string * Q)
  (entry : string * list Q) : result (string * Q) :=
  let '(best_name, best_score) := best in
  let '(name, template) := entry in
  let tpl := np_maximum0 template in
  let tpl_sum := np_sum tpl in
  let tpl := if Qltb 0 tpl_sum then np_div tpl tpl_sum else tpl in
  score <- np_dot chroma tpl ;;
  if Qltb best_score score then Ok (name, score)
  else Ok (best_name, best_score).

Fixpoint best_loop (chroma : list Q) (best : string * Q)
  (templates : list (string * list Q)) : result (string * Q) :=
  match templates with
  | [] => Ok best
  | entry :: rest =>
      best' <- best_step chroma best entry ;;
      best_loop chroma best' rest
  end.

Definition best_chord (chroma : list Q) : result (string * Q) :=
  let chroma := np_maximum0 chroma in
  let s := np_sum chroma in
  let chroma := if Qltb 0 s then np_div chroma s else chroma in
  best_loop chroma (SENTINEL, 0) CHORD_TEMPLATES.

(** *** Vocabulary of the properties *)

(** The chroma that the loop of [best_chord] scores: clamped at zero,
    then divided by its sum when that is positive. *)
Definition scored (chroma : list Q) : list Q :=
  let c := np_maximum0 chroma in
  if Qltb 0 (np_sum c) then np_div c (np_sum c) else c.

(** The weights a template is scored with: its vector divided by its
    sum. *)
Definition weights (template : list Q) : list Q :=
  let tpl := np_maximum0 template in
  if Qltb 0 (np_sum tpl) then np_div tpl (np_sum tpl) else tpl.

(** A template of twelve entries whose weights are at most one third. *)
Definition third_at_most (template : list Q) : bool :=
  Nat.eqb (length template) 12
  && forallb (fun w => Qle_bool w (1 # 3)) (weights template).

End Matcher.

(** ** Threshold and emit decision (the end of the loop body of [main]) *)

Module Stability.

Open Scope Q_scope.

Definition CONF_MIN : Q := 55 # 100.

(** The change of confidence above which an unchanged label is shown
    again. *)
Definition CONF_STEP : Q := 5 # 100.

(** [if confidence < CONF_MIN: chord_name = SENTINEL] *)
Definition threshold (chord_name : string) (confidence : Q) : string :=
  if Matcher.Qltb confidence CONF_MIN then SENTINEL else chord_name.

(** What the loop remembers of the last emission. *)
Record emitted : Type := mk_emitted {
  last_chord : string;
  last_score : Q
}.

Definition initial : emitted :=
  {| last_chord := SENTINEL; last_score := 0 |}.

(** The condition of the [if] that guards [print_large]. *)
Definition should_emit (st : emitted) (chord_name : string)
  (confidence : Q) : bool :=
  negb (String.eqb chord_name (last_chord st))
  || (negb (String.eqb chord_name SENTINEL)
      && Matcher.Qltb CONF_STEP (Qabs (confidence - last_score st))).

(** One cycle from the thresholded label on: the new memory, and what is
    handed to the display (the label and the confidence that
    [print_large] formats), if anything. *)
Definition emit_step (st : emitted) (chord_name : string) (confidence : Q)
  : emitted * option (string * Q) :=
  if should_emit st chord_name confidence
  then ({| last_chord := chord_name; last_score := confidence |},
        Some (chord_name, confidence))
  else (st, None).

(** The cycles of a run, from a given memory: for each (label,
    confidence) pair, whether it was emitted. *)
Fixpoint run (st : emitted) (cycles : list (string * Q)) : list bool :=
  match cycles with
  | [] => []
  | (name, conf) :: rest =>
      should_emit st name conf :: run (fst (emit_step st name conf)) rest
  end.

(** Recognition, threshold and emit decision on a smoothed chromagram. *)
Definition recognise (st : emitted) (smoothed_chroma : list Q)
  : result (emitted * option (string * Q)) :=
  r <- Matcher.best_chord smoothed_chroma ;;
  let '(chord_name, confidence) := r in
  Ok (emit_step st (threshold chord_name confidence) confidence).

End Stability.

(** ** The chroma extractor ([chroma_from_audio]) and the smoothing *)

Module Chroma.

Open Scope R_scope.

Definition np_zeros (n : nat) : list R := repeat 0 n.

Definition np_sum (v : list R) : R := fold_right Rplus 0 v.

(** [np.mean]; on the empty block NumPy answers NaN, which this model has
    no value for (the code only reaches it when [n_fft <= 0]). *)
Definition np_mean (y : list R) : R := np_sum y / INR (length y).

Definition np_scale (c : R) (v : list R) : list R := map (fun x => c * x) v.

(** Division of an array by a number; exact, where the code divides a
    [float32] array in place. *)
Definition np_div (v : list R) (d : R) : list R := map (fun x => x / d) v.

(** Element-wise product of two arrays of one length. *)
Fixpoint np_mul (a b : list R) : list R :=
  match a, b with
  | x :: a', w :: b' => x * w :: np_mul a' b'
  | _, _ => []
  end.

(** [np.hanning(M)]: [0.5 - 0.5 cos(2 pi n / (M - 1))] for [n < M]. *)
Definition hanning (M : Z) : list R :=
  if (M <? 1)%Z then []
  else if (M =? 1)%Z then [1]
  else map (fun n => 0.5 - 0.5 * cos (2 * PI * INR n / (IZR M - 1)))
           (seq 0 (Z.to_nat M)).

(** [np.fft.rfftfreq(n, d=1.0 / sr)]: the centre frequencies of the bins
    [0 .. n // 2], as exact reals. *)
Definition rfftfreq (n sr : Z) : result (list R) :=
  if (sr =? 0)%Z then Raise ZeroDivisionError
  else if (n =? 0)%Z then Raise ZeroDivisionError
  else
    let val := 1 / (IZR n * (1 / IZR sr)) in
    Ok (map (fun k => INR k * val) (seq 0 (Z.to_nat (n / 2 + 1)))).

(** The sum of [v_m * trig(2 pi k m / N)] over a frame whose first sample
    has index [m]: the real part of bin [k] of the transform with
    [trig = cos], the opposite of its imaginary part with [trig = sin]. *)
Fixpoint dft_sum (trig : R -> R) (N k : R) (m : nat) (frame : list R)
  : R :=
  match frame with
  | [] => 0
  | v :: rest =>
      v * trig (2 * PI * k * INR m / N) + dft_sum trig N k (S m) rest
  end.

(** [np.abs(np.fft.rfft(frame))[k]] *)
Definition bin_mag (frame : list R) (k : nat) : R :=
  let N := INR (length frame) in
  sqrt ((dft_sum cos N (INR k) 0 frame)² + (dft_sum sin N (INR k) 0 frame)²).

(** [np.abs(np.fft.rfft(frame))]: bins [0 .. n // 2]. *)
Definition fft_mag (frame : list R) : list R :=
  map (bin_mag frame) (seq 0 (length frame / 2 + 1)).

Definition log2 (x : R) : R := ln x / ln 2.

(** [round] on a float: to the nearest integer, a tie to the even one. *)
Definition py_round (x : R) : Z :=
  let f := Int_part x in
  let r := frac_part x in
  if Rlt_dec r (1 / 2) then f
  else if Rlt_dec (1 / 2) r then (f + 1)%Z
  else if Z.even f then f else (f + 1)%Z.

Definition chroma_bin (freq : R) : nat :=
  Z.to_nat (py_round (69 + 12 * log2 (freq / 440)) mod 12).

(** [acc[i] += v] *)
Fixpoint add_at (acc : list R) (i : nat) (v : R) : list R :=
  match acc, i with
  | [], _ => []
  | a :: rest, O => a + v :: rest
  | a :: rest, S j => a :: add_at rest j v
  end.

(** The magnitude below which a bin is ignored. *)
Definition MAG_FLOOR : R := 1 / 10 ^ 10.

(** The body of the loop over the bins, on one (frequency, magnitude)
    pair. *)
Definition bin_step (sr : Z) (acc : list R) (bin : R * R) : list R :=
  let '(freq, mag) := bin in
  if Rlt_dec freq 20 then acc
  else if Rlt_dec (IZR sr / 2) freq then acc
  else if Rlt_dec mag MAG_FLOOR then acc
  else add_at acc (chroma_bin freq) mag.

(** The loop over the bins of one frame, given its magnitudes. *)
Definition accumulate (sr : Z) (freqs mags : list R) (acc : list R)
  : list R :=
  fold_left (bin_step sr) (combine freqs mags) acc.

(** [y[start:start + n_fft] * win] *)
Definition frame_at (y win : list R) (n_fft start : Z) : list R :=
  np_mul (Py.slice y start (start + n_fft)) win.

(** The offsets of the frames: [range(0, len(y) - n_fft, hop)]. *)
Definition frame_starts (len_y n_fft : Z) : result (list Z) :=
  Py.range 0 (len_y - n_fft) (n_fft / 4).

(** The magnitude spectra of the frames of a block: what the loop over
    the frames sees, after the mean is removed and the window applied. *)
Definition spectra (y : list R) (n_fft : Z) (starts : list Z)
  : list (list R) :=
  let y0 := map (fun v => v - np_mean y) y in
  let win := hanning n_fft in
  map (fun start => fft_mag (frame_at y0 win n_fft start)) starts.

Definition chroma_from_audio (y : list R) (sr n_fft : Z)
  : result (list R) :=
  if (Py.len y <? n_fft)%Z then Ok (np_zeros 12)
  else
    freqs <- rfftfreq n_fft sr ;;
    starts <- frame_starts (Py.len y) n_fft ;;
    let chroma_acc :=
      fold_left (fun acc mags => accumulate sr freqs mags acc)
                (spectra y n_fft starts) (np_zeros 12) in
    let frames := length starts in
    let chroma_acc :=
      if (0 <? frames)%nat then np_div chroma_acc (INR frames)
      else chroma_acc in
    let total := np_sum chroma_acc in
    if Rlt_dec 0 total then Ok (np_div chroma_acc total)
    else Ok chroma_acc.

(** The number of frames the loop processes ([frames] at its end). *)
Definition frames_processed (len_y n_fft : Z) : result nat :=
  starts <- frame_starts len_y n_fft ;;
  Ok (length starts).

(** [CHROMA_SMOOTH]; line 40 of [main.py] spells the name with a blank
    inside, the loop uses it under this name. *)
Definition CHROMA_SMOOTH : R := 7 / 10.

(** [CHROMA_SMOOTH * smoothed_chroma + (1 - CHROMA_SMOOTH) * chroma] on
    two arrays of one length; exact, where the code multiplies and adds
    [float32] arrays. *)
Fixpoint blend (smoothed chroma : list R) : list R :=
  match smoothed, chroma with
  | s :: smoothed', c :: chroma' =>
      CHROMA_SMOOTH * s + (1 - CHROMA_SMOOTH) * c :: blend smoothed' chroma'
  | _, _ => []
  end.

(** The smoothing step of the loop; [None] is the state before the first
    chromagram. *)
Definition smooth (smoothed_chroma : option (list R)) (chroma : list R)
  : list R :=
  match smoothed_chroma with
  | None => chroma
  | Some s => blend s chroma
  end.

(** The predicate of the data model on a chromagram: no negative entry,
    and the entries sum to one or are all zero. *)
Definition nonneg (v : list R) : Prop := Forall (fun x => 0 <= x) v.
Definition all_zero (v : list R) : Prop := Forall (fun x => x = 0) v.
Definition normalised (v : list R) : Prop :=
  nonneg v /\ (np_sum v = 1 \/ all_zero v).

(** A scaling by [c] keeps every bin of every frame on its side of the
    magnitude floor. *)
Definition floor_stable (c : R) (spec : list (list R)) : Prop :=
  Forall (Forall (fun m => m < MAG_FLOOR <-> c * m < MAG_FLOOR)) spec.

(** *** Vocabulary of the properties *)

(** What the smoothing keeps: no negative entry, a sum of at most one. *)
Definition sub_normalised (v : list R) : Prop := nonneg v /\ np_sum v <= 1.

(** A block of 2049 samples (one frame is processed): silence, but for
    two opposite samples in the middle of the frame. *)
Definition spike (a : R) : list R :=
  repeat 0 1023 ++ [a; - a] ++ repeat 0 1023 ++ [0].

(** The chromagrams of a sequence of blocks, stopping at the first
    extraction that raises. *)
Fixpoint extract_all (blocks : list (list R)) (sr n_fft : Z)
  : result (list (list R)) :=
  match blocks with
  | [] => Ok []
  | y :: rest =>
      v <- chroma_from_audio y sr n_fft ;;
      vs <- extract_all rest sr n_fft ;;
      Ok (v :: vs)
  end.

(** The smoothed chromagram after a sequence of cycles. *)
Definition smooth_all (st : option (list R)) (chromas : list (list R))
  : option (list R) :=
  fold_left (fun st c => Some (smooth st c)) chromas st.

(** The Hann window of [N_FFT] points at position [n]. *)
Definition hann (n : nat) : R :=
  0.5 - 0.5 * cos (2 * PI * INR n / (IZR N_FFT - 1)).

(** The centre frequencies of the bins for [SR] and [N_FFT]. *)
Definition bin_freq (k : nat) : R :=
  INR k * (1 / (IZR N_FFT * (1 / IZR SR))).

End Chroma.

(** ** Vocabulary for further properties of the matcher *)

Module MatcherSpec.
Import Matcher.
Open Scope Q_scope.

(** The score the loop of [best_chord] gives a template, on a chroma
    already clamped and divided by its sum. *)
Definition score_of (chroma template : list Q) : Q :=
  np_sum (map (fun p => fst p * snd p) (combine chroma (weights template))).

(** The labels and vectors the module-level loop is meant to produce:
    for each root, the major then the minor triad. *)
Definition expected_templates : list (string * list Q) :=
  flat_map
    (fun root =>
       let name := nth root NOTE_NAMES EmptyString in
       [(name, triad root 4); ((name ++ "m")%string, triad root 3)])
    (seq 0 12).

End MatcherSpec.

(** ** The cycles of the loop after the smoothing *)

Module Loop.
Import Stability.

(** The cycles of the loop from the smoothed chromagram on, for a
    sequence of smoothed chromagrams: the memory at the end and, for
    each cycle, what was handed to the display. *)
Fixpoint cycles (st : emitted) (chromas : list (list Q))
  : result (emitted * list (option (string * Q))) :=
  match chromas with
  | [] => Ok (st, [])
  | c :: rest =>
      r <- recognise st c ;;
      r' <- cycles (fst r) rest ;;
      Ok (fst r', snd r :: snd r')
  end.

End Loop.

(** ** Vocabulary for further properties of the extractor *)

Module ChromaSpec.
Import Chroma.
Open Scope R_scope.

(** The block with a constant added to every sample. *)
Definition np_offset (d : R) (y : list R) : list R :=
  map (fun v => v + d) y.

(** Where the smoothed chromagram stands after [k] cycles that all see
    the chromagram [c], starting from [s]: the distance to [c] has
    shrunk by [CHROMA_SMOOTH ^ k]. *)
Fixpoint settled (k : nat) (s c : list R) : list R :=
  match s, c with
  | x :: s', z :: c' =>
      z + CHROMA_SMOOTH ^ k * (x - z) :: settled k s' c'
  | _, _ => []
  end.

End ChromaSpec.

(** ** The helpers of [quantum_chord_display.py] *)

Module Display.

Definition NOTE_NAMES : list string :=
  ["C"; "C#"; "D"; "D#"; "E"; "F"; "F#"; "G"; "G#"; "A"; "A#"; "B"]%string.

(** [build_chord_templates]: for each root the two vectors are filled,
    then stored under the name of the root and that name followed by
    "m". *)
Definition build_chord_templates : list (string * list Q) :=
  fold_left
    (fun t r =>
       let maj := Matcher.triad r 4 in
       let mi := Matcher.triad r 3 in
       let t := Matcher.dict_set t (nth r NOTE_NAMES EmptyString) maj in
       Matcher.dict_set t (nth r NOTE_NAMES EmptyString ++ "m")%string mi)
    (seq 0 12) [].

Definition TEMPLATES : list (string * list Q) := build_chord_templates.

Open Scope R_scope.

(** [rms]: the root of the mean of the squares; zero on an empty
    array.  Over the reals: no square underflows. *)
Definition rms (x : list R) : R :=
  if Nat.eqb (length x) 0 then 0
  else sqrt (Chroma.np_mean (Chroma.np_mul x x)).

(** [np.linalg.norm] of a vector. *)
Definition norm (a : list R) : R := sqrt (Chroma.np_sum (Chroma.np_mul a a)).

(** [np.dot] of two vectors; their lengths must agree. *)
Definition np_dot (a b : list R) : result R :=
  if Nat.eqb (length a) (length b)
  then Ok (Chroma.np_sum (Chroma.np_mul a b))
  else Raise ValueError.

(** The norm below which [cosine_sim] answers zero. *)
Definition NORM_FLOOR : R := 1 / 10 ^ 9.

(** [cosine_sim], over the reals: root, products and quotient are
    exact. *)
Definition cosine_sim (a b : list R) : result R :=
  let na := norm a in
  let nb := norm b in
  if Rlt_dec na NORM_FLOOR then Ok 0
  else if Rlt_dec nb NORM_FLOOR then Ok 0
  else d <- np_dot a b ;; Ok (d / (na * nb)).

End Display.

(** ** The memory of the loop over a sequence of cycles *)

Module History.
Import Stability.
Open Scope Q_scope.

(** The memory ([last_chord], [last_score]) after a sequence of cycles. *)
Definition memory_after (st : emitted) (cycles : list (string * Q))
  : emitted :=
  fold_left (fun st c => fst (emit_step st (fst c) (snd c))) cycles st.

(** What a sequence of cycles hands to the display, in order. *)
Fixpoint emissions (st : emitted) (cycles : list (string * Q))
  : list (string * Q) :=
  match cycles with
  | [] => []
  | (name, conf) :: rest =>
      let r := emit_step st name conf in
      match snd r with
      | Some shown => shown :: emissions (fst r) rest
      | None => emissions (fst r) rest
      end
  end.

(** The last pair a sequence of cycles has emitted; the memory the
    sequence started from when it has emitted nothing. *)
Definition last_emitted (st : emitted) (cycles : list (string * Q))
  : emitted :=
  match rev (emissions st cycles) with
  | [] => st
  | (name, conf) :: _ => {| last_chord := name; last_score := conf |}
  end.

End History.

(** ** IEEE 754 floats

    A float is a [spec_float] of the standard library: a signed zero, an
    infinity, NaN, or a sign, a mantissa and an exponent.  The operations
    round to nearest, ties to even, in the format given by the size of
    the mantissa and the largest exponent. *)

Module Float.
Import SpecFloat.

Definition zero : spec_float := S754_zero false.

(** The exact value of a float, when it is finite. *)
Definition value (x : spec_float) : option Q :=
  match x with
  | S754_zero _ => Some 0%Q
  | S754_finite s m e =>
      Some ((if s then - inject_Z (Zpos m) else inject_Z (Zpos m))
            * Qpower 2 e)%Q
  | S754_infinity _ | S754_nan => None
  end.

(** The exact sum of the values of an array of finite floats. *)
Fixpoint total (v : list spec_float) : option Q :=
  match v with
  | [] => Some 0%Q
  | x :: rest =>
      match value x, total rest with
      | Some a, Some b => Some (a + b)%Q
      | _, _ => None
      end
  end.

End Float.

(** Python's [float] and [np.float64]: binary64. *)
Module F64.
Import SpecFloat.

Definition prec : Z := 53.
Definition emax : Z := 1024.

Definition of_Z (n : Z) : spec_float := binary_normalize prec emax n 0 false.
Definition add : spec_float -> spec_float -> spec_float := SFadd prec emax.
Definition mul : spec_float -> spec_float -> spec_float := SFmul prec emax.
Definition sub : spec_float -> spec_float -> spec_float := SFsub prec emax.
Definition div : spec_float -> spec_float -> spec_float := SFdiv prec emax.
Definition sqrt : spec_float -> spec_float := SFsqrt prec emax.
Definition ltb : spec_float -> spec_float -> bool := SFltb.

(** The power [2 ** e]. *)
Definition pow2 (e : Z) : spec_float := SFldexp prec emax (of_Z 1) e.

End F64.

(** [np.float32]: binary32. *)
Module F32.
Import SpecFloat.

Definition prec : Z := 24.
Definition emax : Z := 128.

Definition of_Z (n : Z) : spec_float := binary_normalize prec emax n 0 false.
Definition add : spec_float -> spec_float -> spec_float := SFadd prec emax.
Definition mul : spec_float -> spec_float -> spec_float := SFmul prec emax.
Definition div : spec_float -> spec_float -> spec_float := SFdiv prec emax.
Definition ltb : spec_float -> spec_float -> bool := SFltb.

(** The conversion of a binary64 value, as when a Python float meets a
    [float32] array. *)
Definition of_F64 (x : spec_float) : spec_float :=
  match x with
  | S754_finite s m e => binary_round prec emax s m e
  | _ => x
  end.

End F32.

(** ** The chord matcher over binary64

    [CHORD_TEMPLATES] and [best_chord] once more, operation by operation
    as in [Matcher], over the floats the code computes with.  [np.sum]
    and [np.dot] are accumulated from left to right here; NumPy adds in
    pairs and hands the dot product to the BLAS library, so the order of
    the additions is not fixed by the source.  The instances stated over
    this model have at most three non-zero terms, all equal, in every
    sum: every order of accumulation gives the same float there. *)

Module Matcher64.
Import SpecFloat.

Definition np_zeros (n : nat) : list spec_float := repeat Float.zero n.

Fixpoint set_item (v : list spec_float) (i : nat) (x : spec_float)
  : list spec_float :=
  match v, i with
  | [], _ => []
  | _ :: rest, O => x :: rest
  | a :: rest, S j => a :: set_item rest j x
  end.

Definition triad (root third : nat) : list spec_float :=
  set_item
    (set_item (set_item (np_zeros 12) root (F64.of_Z 1))
       ((root + third) mod 12) (F64.of_Z 1))
    ((root + 7) mod 12) (F64.of_Z 1).

Definition CHORD_TEMPLATES : list (string * list spec_float) :=
  fold_left
    (fun d root =>
       let name := nth root Matcher.NOTE_NAMES EmptyString in
       let d := Matcher.dict_set d name (triad root 4) in
       Matcher.dict_set d (name ++ "m")%string (triad root 3))
    (seq 0 12) [].

(** [np.maximum(v, 0)]; a NaN stays. *)
Definition np_maximum0 (v : list spec_float) : list spec_float :=
  map (fun x => if F64.ltb x Float.zero then Float.zero else x) v.

Definition np_sum (v : list spec_float) : spec_float :=
  fold_left F64.add v Float.zero.

Definition np_div (v : list spec_float) (s : spec_float)
  : list spec_float :=
  map (fun x => F64.div x s) v.

Definition np_dot (a b : list spec_float) : result spec_float :=
  if Nat.eqb (length a) (length b)
  then Ok (np_sum (map (fun p => F64.mul (fst p) (snd p)) (combine a b)))
  else Raise ValueError.

Definition best_step (chroma : list spec_float)
  (best : string * spec_float) (entry : string * list spec_float)
  : result (string * spec_float) :=
  let '(best_name, best_score) := best in
  let '(name, template) := entry in
  let tpl := np_maximum0 template in
  let tpl_sum := np_sum tpl in
  let tpl :=
    if F64.ltb Float.zero tpl_sum then np_div tpl tpl_sum else tpl in
  score <- np_dot chroma tpl ;;
  if F64.ltb best_score score then Ok (name, score)
  else Ok (best_name, best_score).

Fixpoint best_loop (chroma : list spec_float) (best : string * spec_float)
  (templates : list (string * list spec_float))
  : result (string * spec_float) :=
  match templates with
  | [] => Ok best
  | entry :: rest =>
      best' <- best_step chroma best entry ;;
      best_loop chroma best' rest
  end.

Definition best_chord (chroma : list spec_float)
  : result (string * spec_float) :=
  let chroma := np_maximum0 chroma in
  let s := np_sum chroma in
  let chroma := if F64.ltb Float.zero s then np_div chroma s else chroma in
  best_loop chroma (SENTINEL, Float.zero) CHORD_TEMPLATES.

(** [CONF_MIN = 0.55]: the float nearest to 55/100. *)
Definition CONF_MIN : spec_float := F64.div (F64.of_Z 55) (F64.of_Z 100).

(** [if confidence < CONF_MIN: chord_name = SENTINEL] *)
Definition threshold (chord_name : string) (confidence : spec_float)
  : string :=
  if F64.ltb confidence CONF_MIN then SENTINEL else chord_name.

(** *** Vocabulary of the properties *)

(** The float [0.7]: the one nearest to 7/10. *)
Definition seven_tenths : spec_float := F64.div (F64.of_Z 7) (F64.of_Z 10).

(** The array [k * template] for the template of a triad. *)
Definition scaled_triad (k : spec_float) (root third : nat)
  : list spec_float :=
  map (F64.mul k) (triad root third).

End Matcher64.

(** ** The normalisation and the smoothing of the chromagram over
    binary32

    The last step of [chroma_from_audio] (lines 148 to 151), on the
    [float32] accumulator the function holds at that point, and the
    smoothing of the loop (line 287) on the [float32] arrays it
    combines. *)

Module Chroma32.
Import SpecFloat.

Definition np_sum (v : list spec_float) : spec_float :=
  fold_left F32.add v Float.zero.

(** [total = np.sum(chroma_acc)], then [chroma_acc /= total] when
    [total > 0]. *)
Definition normalize (chroma_acc : list spec_float) : list spec_float :=
  let total := np_sum chroma_acc in
  if F32.ltb Float.zero total
  then map (fun x => F32.div x total) chroma_acc
  else chroma_acc.

(** [CHROMA_SMOOTH = 0.7], a Python float. *)
Definition CHROMA_SMOOTH : spec_float := F64.div (F64.of_Z 7) (F64.of_Z 10).

(** [CHROMA_SMOOTH * smoothed_chroma + (1 - CHROMA_SMOOTH) * chroma]: the
    two factors are Python floats, converted to [float32] when they
    multiply the arrays. *)
Fixpoint blend (smoothed chroma : list spec_float) : list spec_float :=
  match smoothed, chroma with
  | s :: smoothed', c :: chroma' =>
      F32.add (F32.mul (F32.of_F64 CHROMA_SMOOTH) s)
              (F32.mul (F32.of_F64 (F64.sub (F64.of_Z 1) CHROMA_SMOOTH)) c)
      :: blend smoothed' chroma'
  | _, _ => []
  end.

End Chroma32.

(** ** The helpers of [quantum_chord_display.py] over binary64

    [rms] and [cosine_sim] on [float64] arrays, with the sums accumulated
    from left to right. *)

Module Display64.
Import SpecFloat.

Fixpoint np_mul (a b : list spec_float) : list spec_float :=
  match a, b with
  | x :: a', w :: b' => F64.mul x w :: np_mul a' b'
  | _, _ => []
  end.

Definition np_sum (v : list spec_float) : spec_float :=
  fold_left F64.add v Float.zero.

Definition np_mean (v : list spec_float) : spec_float :=
  F64.div (np_sum v) (F64.of_Z (Z.of_nat (length v))).

Definition rms (x : list spec_float) : spec_float :=
  if Nat.eqb (length x) 0 then Float.zero
  else F64.sqrt (np_mean (np_mul x x)).

Definition norm (a : list spec_float) : spec_float :=
  F64.sqrt (np_sum (np_mul a a)).

Definition np_dot (a b : list spec_float) : result spec_float :=
  if Nat.eqb (length a) (length b)
  then Ok (np_sum (np_mul a b))
  else Raise ValueError.

(** [1e-9]: the float nearest to 1/10^9. *)
Definition NORM_FLOOR : spec_float := F64.div (F64.of_Z 1) (F64.of_Z (10 ^ 9)).

Definition cosine_sim (a b : list spec_float) : result spec_float :=
  let na := norm a in
  let nb := norm b in
  if F64.ltb na NORM_FLOOR then Ok Float.zero
  else if F64.ltb nb NORM_FLOOR then Ok Float.zero
  else d <- np_dot a b ;; Ok (F64.div d (F64.mul na nb)).

End Display64.

(** * Properties *)

(** ** The chord matcher *)

Section MatcherFacts.
Import Matcher.
Open Scope Q_scope.

Local Ltac lra := Lqa.lra.
Local Ltac nra := Lqa.nra.

Lemma Qltb_lt (a b : Q) : Qltb a b = true <-> a < b.
Proof.
  unfold Qltb. rewrite negb_true_iff, <- not_true_iff_false, Qle_bool_iff.
  split; intro H; [apply Qnot_le_lt | apply Qlt_not_le]; exact H.
Qed.

Lemma Qltb_ge (a b : Q) : Qltb a b = false <-> b <= a.
Proof.
  unfold Qltb. rewrite negb_false_iff. apply Qle_bool_iff.
Qed.

Lemma fold_plus_acc (v : list Q) (a : Q) :
  fold_left Qplus v a == a + fold_left Qplus v 0.
Proof.
  revert a. induction v as [|x v IH]; intro a; simpl.
  - lra.
  - rewrite (IH (a + x)), (IH (0 + x)). lra.
Qed.

Lemma qsum_cons (x : Q) (v : list Q) : np_sum (x :: v) == x + np_sum v.
Proof.
  unfold np_sum. simpl. rewrite fold_plus_acc. lra.
Qed.

Lemma qmaximum0_nonneg (v : list Q) :
  Forall (fun x => 0 <= x) (np_maximum0 v).
Proof.
  unfold np_maximum0. induction v as [|x v IH]; simpl; constructor; auto.
  destruct (Qltb x 0) eqn:E; [lra | apply Qltb_ge in E; exact E].
Qed.

Lemma qsum_nonneg (v : list Q) :
  Forall (fun x => 0 <= x) v -> 0 <= np_sum v.
Proof.
  induction 1 as [|x v Hx _ IH].
  - unfold np_sum; simpl; lra.
  - rewrite qsum_cons. lra.
Qed.

Lemma qdiv_nonneg (v : list Q) (s : Q) :
  0 < s -> Forall (fun x => 0 <= x) v ->
  Forall (fun x => 0 <= x) (np_div v s).
Proof.
  intros Hs. unfold np_div.
  induction 1 as [|x v Hx _ IH]; simpl; constructor; auto.
  apply Qle_shift_div_l; [exact Hs | lra].
Qed.

Lemma qsum_div (v : list Q) (s : Q) :
  ~ s == 0 -> np_sum (np_div v s) == np_sum v / s.
Proof.
  intro Hs. unfold np_div. induction v as [|x v IH]; simpl.
  - unfold np_sum; simpl. field. exact Hs.
  - rewrite !qsum_cons, IH. field. exact Hs.
Qed.

Lemma scored_length (chroma : list Q) :
  length (scored chroma) = length chroma.
Proof.
  unfold scored, np_div, np_maximum0.
  destruct (Qltb 0 _); now rewrite ?length_map.
Qed.

Lemma scored_nonneg (chroma : list Q) :
  Forall (fun x => 0 <= x) (scored chroma).
Proof.
  unfold scored. destruct (Qltb 0 _) eqn:E.
  - apply qdiv_nonneg; [now apply Qltb_lt | apply qmaximum0_nonneg].
  - apply qmaximum0_nonneg.
Qed.

Lemma scored_sum_le_1 (chroma : list Q) : np_sum (scored chroma) <= 1.
Proof.
  unfold scored. destruct (Qltb 0 _) eqn:E.
  - apply Qltb_lt in E. rewrite qsum_div by lra.
    apply Qle_shift_div_r; [exact E | lra].
  - apply Qltb_ge in E. lra.
Qed.

(** A score is at most the largest template weight times the sum of the
    chroma. *)
Lemma dot_le (m : Q) (a b : list Q) :
  Forall (fun x => 0 <= x) a -> Forall (fun w => w <= m) b ->
  0 <= m ->
  np_sum (map (fun p => fst p * snd p) (combine a b)) <= m * np_sum a.
Proof.
  intros Ha. revert b. induction Ha as [|x a Hx Ha IH]; intros b Hb Hm.
  - simpl. unfold np_sum; simpl. lra.
  - destruct b as [|w b]; simpl.
    + rewrite qsum_cons. pose proof (qsum_nonneg a Ha).
      unfold np_sum at 1; simpl. nra.
    + inversion Hb as [|? ? Hw Hb']; subst.
      rewrite !qsum_cons. specialize (IH b Hb' Hm).
      assert (x * w <= m * x) by nra. simpl. lra.
Qed.

Lemma templates_third :
  forallb (fun e => third_at_most (snd e)) CHORD_TEMPLATES = true.
Proof. vm_compute. reflexivity. Qed.

Lemma best_step_bound (chroma : list Q) (best : string * Q)
  (entry : string * list Q) :
  length chroma = 12%nat -> third_at_most (snd entry) = true ->
  snd best <= 1 # 3 ->
  exists best', best_step (scored chroma) best entry = Ok best'
                /\ snd best' <= 1 # 3.
Proof.
  intros Hlen Ht Hb. destruct best as [bn bs], entry as [name template].
  unfold third_at_most in Ht. simpl in Ht, Hb.
  apply andb_true_iff in Ht. destruct Ht as [Hl Hw].
  apply Nat.eqb_eq in Hl. unfold best_step. fold (weights template).
  assert (Hlw : length (weights template) = 12%nat).
  { unfold weights, np_div, np_maximum0.
    destruct (Qltb 0 _); now rewrite ?length_map. }
  unfold np_dot. rewrite scored_length, Hlen, Hlw. simpl.
  destruct (Qltb bs _) eqn:E; eexists; split; try reflexivity; simpl; auto.
  rewrite forallb_forall in Hw.
  assert (Hf : Forall (fun w => w <= 1 # 3) (weights template)).
  { apply Forall_forall. intros w Hin. apply Qle_bool_iff. auto. }
  pose proof (dot_le (1 # 3) _ _ (scored_nonneg chroma) Hf).
  pose proof (scored_sum_le_1 chroma). lra.
Qed.

Lemma best_loop_bound (chroma : list Q) (templates : list (string * list Q)) :
  length chroma = 12%nat ->
  forallb (fun e => third_at_most (snd e)) templates = true ->
  forall best, snd best <= 1 # 3 ->
  exists best', best_loop (scored chroma) best templates = Ok best'
                /\ snd best' <= 1 # 3.
Proof.
  intros Hlen. induction templates as [|e ts IH]; intros Ht best Hb; simpl.
  - eauto.
  - simpl in Ht. apply andb_true_iff in Ht. destruct Ht as [He Hts].
    destruct (best_step_bound chroma best e Hlen He Hb) as (b1 & -> & Hb1).
    simpl. apply IH; auto.
Qed.

(** C1 (what the code does): on each template's own vector, [best_chord]
    answers that template's label, with a confidence of one third and not
    of one. *)
Theorem best_chord_own_template :
  Forall (fun entry =>
            exists score,
              best_chord (snd entry) = Ok (fst entry, score)
              /\ score == 1 # 3 /\ ~ score == 1)
         CHORD_TEMPLATES.
Proof.
  let l := eval vm_compute in CHORD_TEMPLATES in
  change CHORD_TEMPLATES with l.
  repeat (constructor;
          [eexists; split; [vm_compute; reflexivity
                           | split; [reflexivity | discriminate]] | ]).
  constructor.
Qed.

(** C2 (amended): computing over exact arithmetic, on every chroma of
    twelve elements [best_chord] returns, its confidence is at most one
    third, hence below [CONF_MIN], and the label left by the threshold is
    the sentinel. *)
Theorem best_chord_confidence_at_most_third (chroma : list Q) :
  length chroma = 12%nat ->
  exists name confidence,
    best_chord chroma = Ok (name, confidence)
    /\ confidence <= 1 # 3
    /\ confidence < Stability.CONF_MIN
    /\ Stability.threshold name confidence = SENTINEL.
Proof.
  intro Hlen.
  destruct (best_loop_bound chroma CHORD_TEMPLATES Hlen templates_third
              (SENTINEL, 0)) as ([name conf] & Hrun & Hle).
  { simpl. lra. }
  exists name, conf. simpl in Hle.
  assert (Hlt : conf < Stability.CONF_MIN).
  { unfold Stability.CONF_MIN. lra. }
  repeat split; auto.
  unfold Stability.threshold.
  apply Qltb_lt in Hlt. now rewrite Hlt.
Qed.

Lemma best_chord_confidence_at_most_third_witness :
  exists name confidence,
    best_chord [1; 0; 0; 0; 1; 0; 0; 1; 0; 0; 0; 0] = Ok (name, confidence)
    /\ confidence <= 1 # 3
    /\ confidence < Stability.CONF_MIN
    /\ Stability.threshold name confidence = SENTINEL.
Proof.
  apply (best_chord_confidence_at_most_third
           [1; 0; 0; 0; 1; 0; 0; 1; 0; 0; 0; 0]).
  reflexivity.
Defined.

End MatcherFacts.

(** ** The code over floats *)

Section FloatFacts.
Import SpecFloat.

(** C2 (counterexample): over binary64, on the chroma [0.7 * C] (the
    template of C major with 0.7 for each one) the sum rounds to
    2.0999999999999996, each entry becomes 0.33333333333333337, and
    [best_chord] answers "C" with the confidence 0.33333333333333337,
    which is above one third (and still below [CONF_MIN]). *)
Lemma best_chord_float_above_third :
  let chroma := Matcher64.scaled_triad Matcher64.seven_tenths 0 4 in
  length chroma = 12%nat
  /\ exists confidence q,
       Matcher64.best_chord chroma = Ok ("C"%string, confidence)
       /\ Float.value confidence = Some q
       /\ (1 # 3 < q)%Q
       /\ Matcher64.threshold "C" confidence = SENTINEL.
Proof.
  split; [reflexivity | ].
  eexists. eexists.
  split; [vm_compute; reflexivity | ].
  split; [vm_compute; reflexivity | ].
  split; [vm_compute; reflexivity | vm_compute; reflexivity].
Qed.

(** Over binary64 the confidence is not the same on a chroma and on 0.7
    times that chroma: under one third on the template of C major, above
    it on the scaled one. *)
Lemma float_scaling_changes_confidence :
  exists c1 c2 q1 q2,
    Matcher64.best_chord (Matcher64.triad 0 4) = Ok ("C"%string, c1)
    /\ Matcher64.best_chord
         (Matcher64.scaled_triad Matcher64.seven_tenths 0 4)
       = Ok ("C"%string, c2)
    /\ Float.value c1 = Some q1 /\ Float.value c2 = Some q2
    /\ (q1 < 1 # 3 < q2)%Q.
Proof.
  do 4 eexists.
  split; [vm_compute; reflexivity | ].
  split; [vm_compute; reflexivity | ].
  split; [vm_compute; reflexivity | ].
  split; [vm_compute; reflexivity | ].
  split; vm_compute; reflexivity.
Qed.

(** Over binary64 a chroma whose sum overflows is divided by infinity:
    every score is zero and the answer is the sentinel, although the
    chroma has positive entries. *)
Lemma float_overflow_gives_sentinel :
  Matcher64.best_chord
    (F64.pow2 1023 :: F64.pow2 1023 :: repeat Float.zero 10)
  = Ok (SENTINEL, Float.zero).
Proof. vm_compute. reflexivity. Qed.

(** Over binary32 the normalised chromagram need not sum to one: the
    accumulator [1, 2, 4, 0, ..., 0] has the sum 7, and the three
    quotients add up to 67108867/67108864. *)
Lemma float_normalisation_inexact :
  exists q,
    Float.total
      (Chroma32.normalize
         (map F32.of_Z [1; 2; 4; 0; 0; 0; 0; 0; 0; 0; 0; 0]%Z))
    = Some q
    /\ (q == 67108867 # 67108864)%Q /\ ~ (q == 1)%Q.
Proof.
  eexists. split; [vm_compute; reflexivity | ].
  split; [reflexivity | discriminate].
Qed.

(** Over binary32 two cycles of smoothing from 1 towards 0 leave
    16441671/33554432 (0.48999998), under the 0.49 of exact arithmetic
    and not the [float32] nearest to it. *)
Lemma float_smoothing_inexact :
  exists x q,
    Chroma32.blend
      (Chroma32.blend [F32.of_Z 1] [Float.zero]) [Float.zero] = [x]
    /\ Float.value x = Some q
    /\ (q == 16441671 # 33554432)%Q /\ (q < 49 # 100)%Q
    /\ x <> F32.div (F32.of_Z 49) (F32.of_Z 100).
Proof.
  do 2 eexists. split; [vm_compute; reflexivity | ].
  split; [vm_compute; reflexivity | ].
  split; [reflexivity | ]. split; [reflexivity | ].
  vm_compute. discriminate.
Qed.

(** Over binary64 the square of a sample as small as [2 ** -600]
    underflows to zero, and [rms] answers zero on an array that is not
    all zero. *)
Lemma float_rms_underflow :
  Display64.rms [F64.pow2 (-600)] = Float.zero
  /\ Float.value (F64.pow2 (-600)) <> Some 0%Q.
Proof. split; [vm_compute; reflexivity | vm_compute; discriminate]. Qed.

(** Over binary64 [cosine_sim] of [1, 1, 1] with itself is
    1.0000000000000002: the product of the two norms rounds below 3. *)
Lemma float_cosine_sim_above_one :
  exists x q,
    Display64.cosine_sim (map F64.of_Z [1; 1; 1]%Z) (map F64.of_Z [1; 1; 1]%Z)
    = Ok x
    /\ Float.value x = Some q /\ (1 < q)%Q.
Proof.
  do 2 eexists. split; [vm_compute; reflexivity | ].
  split; [vm_compute; reflexivity | reflexivity].
Qed.

End FloatFacts.

(** ** Slices and slice assignment inside the array *)

Section PyFacts.
Context {A : Type}.
Implicit Types l a x : list A.

Lemma bound_inside (n i : Z) : 0 <= i <= n -> Py.bound n i = i.
Proof.
  intro H. unfold Py.bound.
  destruct (i <? 0) eqn:E; [apply Z.ltb_lt in E | ]; lia.
Qed.

Lemma slice_inside l (lo hi : nat) :
  (lo <= hi <= length l)%nat ->
  Py.slice l (Z.of_nat lo) (Z.of_nat hi) = firstn (hi - lo) (skipn lo l).
Proof.
  intro H. unfold Py.slice, Py.len.
  rewrite !bound_inside by lia. f_equal; [lia | f_equal; lia].
Qed.

Lemma slice_to_inside l (hi : nat) :
  (hi <= length l)%nat -> Py.slice_to l (Z.of_nat hi) = firstn hi l.
Proof.
  intro H. unfold Py.slice_to. change 0 with (Z.of_nat 0).
  rewrite slice_inside by lia. now rewrite Nat.sub_0_r.
Qed.

Lemma slice_from_inside l (lo : nat) :
  (lo <= length l)%nat -> Py.slice_from l (Z.of_nat lo) = skipn lo l.
Proof.
  intro H. unfold Py.slice_from, Py.len. rewrite slice_inside by lia.
  apply firstn_all2. rewrite length_skipn. lia.
Qed.

Lemma assign_inside a (lo hi : nat) x :
  (lo <= hi <= length a)%nat -> length x = (hi - lo)%nat ->
  Py.assign a (Z.of_nat lo) (Z.of_nat hi) x
  = Ok (firstn lo a ++ x ++ skipn hi a).
Proof.
  intros H Hx. unfold Py.assign, Py.len.
  rewrite !bound_inside by lia.
  replace (Z.to_nat (Z.of_nat hi - Z.of_nat lo)) with (hi - lo)%nat by lia.
  rewrite Hx, Nat.eqb_refl, Nat2Z.id.
  now replace (lo + (hi - lo))%nat with hi by lia.
Qed.

Lemma mod_ok (a b : Z) : b <> 0 -> Py.mod_ a b = Ok (a mod b).
Proof.
  intro H. unfold Py.mod_. now apply Z.eqb_neq in H as ->.
Qed.

End PyFacts.

(** ** The ring buffer *)

Section RingBufferFacts.
Import RingBuffer.
Context {A : Type} (zero : A).
Implicit Types (rb : t (A := A)) (x b : list A).

Ltac lens :=
  repeat (progress
            rewrite ?length_app, ?length_firstn, ?length_skipn,
              ?repeat_length in * );
  lia.

Lemma push_fits rb x :
  wf rb -> (0 < length x)%nat -> Py.len x <= size rb ->
  push rb x
  = Ok {| size := size rb;
          buf := pushed (buf rb) (Z.to_nat (write_idx rb)) x;
          write_idx := (write_idx rb + Py.len x) mod size rb;
          filled := true |}.
Proof.
  intros (Hsz & Hlen & Hw) Hx Hfit. unfold push, Py.len in *.
  destruct (Z.of_nat (length x) =? 0) eqn:E; [apply Z.eqb_eq in E; lia | ].
  clear E. unfold pushed.
  set (w := Z.to_nat (write_idx rb)). set (n := length x) in *.
  set (sz := length (buf rb)) in *.
  assert (Ew : write_idx rb = Z.of_nat w) by lia.
  assert (Es : size rb = Z.of_nat sz) by lia.
  rewrite Ew, Es. rewrite mod_ok by lia.
  destruct (Z.of_nat w + Z.of_nat n <=? Z.of_nat sz) eqn:E.
  - apply Z.leb_le in E.
    replace (w + n <=? sz)%nat with true by (symmetry; apply Nat.leb_le; lia).
    rewrite <- Nat2Z.inj_add, assign_inside by (fold sz; lia). reflexivity.
  - apply Z.leb_gt in E.
    replace (w + n <=? sz)%nat with false by (symmetry; apply Nat.leb_gt; lia).
    rewrite <- Nat2Z.inj_sub by lia.
    rewrite slice_to_inside, slice_from_inside by (fold n; lia).
    rewrite assign_inside by (fold sz; rewrite ?length_firstn; fold n; lia).
    simpl bind.
    replace ((Z.of_nat w + Z.of_nat n) mod Z.of_nat sz)
      with (Z.of_nat (w + n - sz)).
    2:{ apply Z.mod_unique with (q := 1); lia. }
    change 0 with (Z.of_nat 0).
    rewrite assign_inside.
    + simpl. rewrite (skipn_all2 (buf rb)) by (fold sz; lia).
      now rewrite !app_nil_r.
    + rewrite !length_app, length_firstn, length_firstn, length_skipn.
      fold sz n. lia.
    + rewrite length_skipn. fold n. lia.
Qed.

Lemma pushed_length b (w : nat) x :
  (w < length b)%nat -> (length x <= length b)%nat ->
  length (pushed b w x) = length b.
Proof.
  intros Hw Hx. unfold pushed.
  destruct (w + length x <=? length b)%nat eqn:E;
    [apply Nat.leb_le in E | apply Nat.leb_gt in E]; lens.
Qed.

Lemma push_wf rb x :
  wf rb -> Py.len x <= size rb ->
  exists rb', push rb x = Ok rb' /\ wf rb' /\ size rb' = size rb.
Proof.
  intros Hwf Hfit. destruct (length x) eqn:En.
  - exists rb. unfold push, Py.len. rewrite En. simpl. auto.
  - rewrite push_fits by (auto; lia). eexists. split; [reflexivity | ].
    destruct Hwf as (Hsz & Hlen & Hw). unfold wf, Py.len in *. simpl.
    rewrite pushed_length by lia.
    pose proof (Z.mod_pos_bound (write_idx rb + Z.of_nat (length x))
                  (size rb) Hsz).
    repeat split; lia.
Qed.

Lemma pushed_rotated b (w : nat) x :
  (w < length b)%nat -> (0 < length x <= length b)%nat ->
  rotated (pushed b w x) ((w + length x) mod length b)
  = skipn (length x) (rotated b w) ++ x.
Proof.
  intros Hw Hx. unfold pushed, rotated.
  set (n := length x) in *. set (sz := length b) in *.
  destruct (w + n <=? sz)%nat eqn:E;
    [apply Nat.leb_le in E | apply Nat.leb_gt in E].
  - destruct (Nat.eq_dec (w + n) sz) as [Efull | Enot].
    + rewrite Efull, Nat.Div0.mod_same. simpl.
      rewrite (skipn_all2 b) by (fold sz; lia).
      rewrite skipn_app, (skipn_all2 (skipn w b)) by lens.
      rewrite length_skipn. fold sz.
      replace (n - (sz - w))%nat with 0%nat by lia.
      simpl. now rewrite !app_nil_r.
    + rewrite Nat.mod_small by lia.
      rewrite !skipn_app, !firstn_app.
      rewrite (skipn_all2 (firstn w b)), (skipn_all2 x) by lens.
      rewrite (firstn_all2 (firstn w b)), (firstn_all2 x) by lens.
      rewrite !length_firstn, !length_skipn. fold n sz.
      replace (w + n - Nat.min w sz - n)%nat with 0%nat by lia.
      replace (w + n - Nat.min w sz - n)%nat with 0%nat by lia.
      replace (n - (sz - w))%nat with 0%nat by lia.
      simpl. rewrite skipn_skipn, !app_nil_r, <- !app_assoc.
      now replace (n + w)%nat with (w + n)%nat by lia.
  - assert (Ek : ((w + n) mod sz = w + n - sz)%nat).
    { symmetry. apply Nat.mod_unique with (q := 1%nat); lia. }
    rewrite Ek.
    rewrite !skipn_app, !firstn_app.
    rewrite !length_skipn, !length_firstn. fold n sz.
    replace (w + n - sz - (n - (sz - w)))%nat with 0%nat by lia.
    rewrite (skipn_all2 (skipn (sz - w) x)) by lens.
    rewrite (firstn_all2 (skipn (sz - w) x)) by lens.
    rewrite (skipn_all2 (skipn w b)) by lens.
    replace (w + n - sz - Nat.min w sz)%nat with 0%nat by lia.
    replace (n - (sz - w))%nat with (w + n - sz)%nat by lia.
    simpl. rewrite !app_nil_r, <- !app_assoc.
    now rewrite (firstn_skipn (sz - w) x).
Qed.

Lemma last_n_app_block (sz : nat) (hist x : list A) :
  (length x <= sz <= length hist)%nat ->
  last_n sz (hist ++ x) = skipn (length x) (last_n sz hist) ++ x.
Proof.
  intro H. unfold last_n. rewrite skipn_skipn, skipn_app, length_app.
  replace (length hist + length x - sz - length hist)%nat with 0%nat by lia.
  simpl. do 2 f_equal. lia.
Qed.

Lemma last_n_app_full (sz : nat) (prefix data : list A) :
  (sz <= length data)%nat -> last_n sz (prefix ++ data) = last_n sz data.
Proof.
  intro H. unfold last_n. rewrite skipn_app, length_app.
  rewrite skipn_all2 by lia. simpl. f_equal. lia.
Qed.

Lemma tracks_start rb :
  wf rb -> tracks rb (rotated (buf rb) (Z.to_nat (write_idx rb))) [].
Proof.
  intros Hwf. pose proof Hwf as (Hsz & Hlen & Hw). unfold Py.len in *.
  unfold tracks. split; [exact Hwf | ].
  assert (Hr : length (rotated (buf rb) (Z.to_nat (write_idx rb)))
               = Z.to_nat (size rb)).
  { unfold rotated. lens. }
  split; [exact Hr | ]. split.
  - rewrite app_nil_r. unfold last_n. rewrite Hr, Nat.sub_diag. reflexivity.
  - intro H. now elim H.
Qed.

Lemma push_tracks rb (prefix data x : list A) :
  tracks rb prefix data -> Py.len x <= size rb ->
  exists rb', push rb x = Ok rb' /\ tracks rb' prefix (data ++ x)
              /\ size rb' = size rb.
Proof.
  intros (Hwf & Hp & Hrot & Hfill) Hfit.
  destruct (Nat.eq_dec (length x) 0) as [En | En].
  - destruct x; [ | discriminate]. exists rb. rewrite app_nil_r.
    unfold push. simpl. split; [reflexivity | ].
    split; [ | reflexivity]. unfold tracks. auto.
  - rewrite push_fits by (auto; lia). eexists. split; [reflexivity | ].
    destruct (push_wf rb x Hwf Hfit) as (rb' & Hpush & Hwf' & _).
    rewrite push_fits in Hpush by (auto; lia). injection Hpush as <-.
    destruct Hwf as (Hsz & Hlen & Hw). unfold Py.len in *.
    split; [ | reflexivity]. split; [exact Hwf' | ]. simpl.
    repeat split; auto.
    rewrite app_assoc, last_n_app_block by (rewrite length_app; lia).
    rewrite <- Hrot, <- pushed_rotated by lia.
    f_equal.
    replace (write_idx rb) with (Z.of_nat (Z.to_nat (write_idx rb))) at 1
      by lia.
    rewrite <- Hlen, <- Nat2Z.inj_add, <- Nat2Z.inj_mod. apply Nat2Z.id.
Qed.

Lemma push_all_tracks (blocks : list (list A)) :
  forall rb (prefix data : list A),
    tracks rb prefix data ->
    Forall (fun x => Py.len x <= size rb) blocks ->
    exists rb', push_all rb blocks = Ok rb'
                /\ tracks rb' prefix (data ++ concat blocks)
                /\ size rb' = size rb.
Proof.
  induction blocks as [|x blocks IH]; intros rb prefix data Ht Hfit; simpl.
  - exists rb. rewrite app_nil_r. auto.
  - inversion Hfit as [|? ? Hx Hrest]; subst.
    destruct (push_tracks rb prefix data x Ht Hx) as (rb1 & -> & Ht1 & Hs1).
    simpl. rewrite <- Hs1 in Hrest.
    destruct (IH rb1 prefix (data ++ x) Ht1 Hrest) as (rb' & Hall & Ht' & Hs').
    exists rb'. rewrite app_assoc.
    split; [exact Hall | ]. split; [exact Ht' | congruence].
Qed.

Lemma read_last_full rb (prefix data : list A) :
  tracks rb prefix data -> size rb <= Py.len data ->
  read_last rb (size rb) = Ok (last_n (Z.to_nat (size rb)) data).
Proof.
  intros ((Hsz & Hlen & Hw) & Hp & Hrot & Hfill) Hfull.
  unfold Py.len in *.
  assert (Hne : data <> []).
  { intros ->. simpl in Hfull. lia. }
  unfold read_last. rewrite Z.min_id, (Hfill Hne). simpl.
  rewrite mod_ok by lia.
  replace ((write_idx rb - size rb) mod size rb) with (write_idx rb).
  2:{ apply Z.mod_unique with (q := -1); lia. }
  cbn [bind]. rewrite Z.ltb_irrefl.
  replace (write_idx rb) with (Z.of_nat (Z.to_nat (write_idx rb))) by lia.
  rewrite slice_from_inside, slice_to_inside by lia.
  fold (rotated (buf rb) (Z.to_nat (write_idx rb))).
  rewrite ?Nat2Z.id, Hrot. f_equal. apply last_n_app_full. lia.
Qed.

(** C5: after pushes of blocks that each fit the capacity and together
    reach it, from any state of the buffer, [read_last(size)] returns
    the last [size] samples pushed, oldest first. *)
Theorem read_last_after_wraparound rb (blocks : list (list A)) :
  wf rb ->
  Forall (fun x => Py.len x <= size rb) blocks ->
  size rb <= Py.len (concat blocks) ->
  exists rb',
    push_all rb blocks = Ok rb'
    /\ read_last rb' (size rb)
       = Ok (last_n (Z.to_nat (size rb)) (concat blocks)).
Proof.
  intros Hwf Hfit Hfull.
  destruct (push_all_tracks blocks rb _ [] (tracks_start rb Hwf) Hfit)
    as (rb' & Hall & Ht & Hs).
  exists rb'. split; [exact Hall | ].
  rewrite <- Hs. apply (read_last_full rb' _ _ Ht). simpl. lia.
Qed.

(** C6: a block shorter than the capacity, pushed into a fresh buffer
    and read back with its own length, comes back unchanged. *)
Theorem push_read_last_roundtrip (sz : Z) (x : list A) :
  0 < Py.len x < sz ->
  exists rb0 rb,
    init zero sz = Ok rb0 /\ push rb0 x = Ok rb
    /\ read_last rb (Py.len x) = Ok x.
Proof.
  intros [Hpos Hlt]. unfold Py.len in *. unfold init.
  destruct (sz <? 0) eqn:E; [apply Z.ltb_lt in E; lia | clear E].
  eexists. eexists. split; [reflexivity | ].
  rewrite push_fits.
  2:{ unfold wf, Py.len. simpl. rewrite repeat_length. lia. }
  2:{ lia. }
  2:{ unfold Py.len. simpl. lia. }
  split; [reflexivity | ]. unfold read_last, Py.len. simpl.
  rewrite Z.min_l, (Z.mod_small (Z.of_nat (length x)) sz) by lia.
  rewrite mod_ok, Z.sub_diag, Z.mod_0_l by lia. cbn [bind].
  destruct (0 <? Z.of_nat (length x)) eqn:E; [ | apply Z.ltb_ge in E; lia].
  change 0 with (Z.of_nat 0). rewrite slice_inside.
  2:{ rewrite pushed_length; rewrite repeat_length; lia. }
  unfold pushed. rewrite repeat_length.
  replace (0 + length x <=? Z.to_nat sz)%nat with true
    by (symmetry; apply Nat.leb_le; lia).
  simpl. rewrite Nat.sub_0_r, firstn_app, Nat.sub_diag. simpl.
  now rewrite firstn_all, app_nil_r.
Qed.

Lemma read_last_returns rb (n : Z) : wf rb -> returns (read_last rb n).
Proof.
  intros (Hsz & _). unfold read_last, returns.
  destruct (negb (filled rb) && _); [eauto | ].
  rewrite mod_ok by lia. cbn [bind].
  destruct (_ <? _); eauto.
Qed.

(** C4 (amended): on a buffer of positive capacity, [push] of a block no
    longer than the capacity returns, and leaves such a buffer;
    [read_last(n)] returns for every [n >= 0]. *)
Theorem push_read_last_never_raise rb x :
  wf rb -> Py.len x <= size rb ->
  (exists rb', push rb x = Ok rb' /\ wf rb')
  /\ (forall n, 0 <= n -> returns (read_last rb n)).
Proof.
  intros Hwf Hfit. split.
  - destruct (push_wf rb x Hwf Hfit) as (rb' & Hpush & Hwf' & _). eauto.
  - intros n _. now apply read_last_returns.
Qed.

End RingBufferFacts.

Lemma skipn_repeat {A} (z : A) (k m : nat) :
  skipn k (repeat z m) = repeat z (m - k).
Proof.
  revert k. induction m as [|m IH]; intros [|k]; simpl; auto.
Qed.

(** After one block pushed into a fresh buffer, a longer read is padded
    with the zeros of the array in front of the block. *)
Lemma read_last_fresh_padded {A} (zero : A) (sz n : Z) (x : list A) :
  0 < Py.len x < n -> n <= sz ->
  exists rb0 rb,
    RingBuffer.init zero sz = Ok rb0 /\ RingBuffer.push rb0 x = Ok rb
    /\ RingBuffer.read_last rb n
       = Ok (repeat zero (Z.to_nat (n - Py.len x)) ++ x).
Proof.
  intros [Hpos Hlt] Hn. unfold Py.len in *. unfold RingBuffer.init.
  destruct (sz <? 0) eqn:E; [apply Z.ltb_lt in E; lia | clear E].
  eexists. eexists. split; [reflexivity | ].
  rewrite push_fits.
  2:{ unfold RingBuffer.wf, Py.len. simpl. rewrite repeat_length. lia. }
  2:{ lia. }
  2:{ unfold Py.len. simpl. lia. }
  split; [reflexivity | ]. unfold RingBuffer.read_last, Py.len. simpl.
  rewrite Z.min_l, (Z.mod_small (Z.of_nat (length x)) sz) by lia.
  rewrite mod_ok by lia. cbn [bind].
  replace ((Z.of_nat (length x) - n) mod sz)
    with (Z.of_nat (Z.to_nat (sz + Z.of_nat (length x) - n))).
  2:{ apply Z.mod_unique with (q := -1); lia. }
  destruct (_ <? _) eqn:E; [apply Z.ltb_lt in E; lia | clear E].
  assert (Hl : length (RingBuffer.pushed (repeat zero (Z.to_nat sz)) 0 x)
               = Z.to_nat sz).
  { rewrite pushed_length; rewrite repeat_length; lia. }
  rewrite slice_from_inside, slice_to_inside by lia.
  unfold RingBuffer.pushed. rewrite repeat_length.
  replace (0 + length x <=? Z.to_nat sz)%nat with true
    by (symmetry; apply Nat.leb_le; lia).
  simpl. rewrite skipn_app, firstn_app, skipn_repeat, (skipn_all2 x) by lia.
  rewrite firstn_all, Nat.sub_diag. simpl. rewrite app_nil_r.
  do 3 f_equal. rewrite skipn_repeat. f_equal. lia.
Qed.

(** C3 (what the code does): a fresh buffer of capacity 4 that received
    one sample answers [read_last(2)] with two samples, a zero in front:
    [push] has set [filled], so the short read is not taken. *)
Theorem read_last_short_history_padded :
  exists rb0 rb,
    RingBuffer.init 0 4 = Ok rb0
    /\ RingBuffer.push rb0 [7] = Ok rb
    /\ RingBuffer.filled rb = true
    /\ RingBuffer.read_last rb 2 = Ok [0; 7]
    /\ RingBuffer.read_last rb 2 <> Ok [7].
Proof.
  do 2 eexists. split; [reflexivity | ]. split; [reflexivity | ].
  split; [reflexivity | ]. split; [reflexivity | discriminate].
Qed.

(** C4 (counterexample): a block of nine samples pushed into a fresh
    buffer of capacity 4 raises [ValueError]: the second half of the
    wrapped write has five samples for a slice of one. *)
Lemma push_oversized_block_raises :
  let rb := {| RingBuffer.size := 4; RingBuffer.buf := [0; 0; 0; 0];
               RingBuffer.write_idx := 0; RingBuffer.filled := false |} in
  RingBuffer.init 0 4 = Ok rb
  /\ RingBuffer.wf rb
  /\ RingBuffer.push rb [1; 2; 3; 4; 5; 6; 7; 8; 9] = Raise ValueError
  /\ ~ returns (RingBuffer.push rb [1; 2; 3; 4; 5; 6; 7; 8; 9]).
Proof.
  simpl. split; [reflexivity | ]. split.
  - unfold RingBuffer.wf, Py.len. simpl. lia.
  - split; [reflexivity | ]. intros [rb' H]. discriminate H.
Qed.

Lemma push_read_last_never_raise_witness :
  let rb := {| RingBuffer.size := 4; RingBuffer.buf := [0; 0; 5; 6];
               RingBuffer.write_idx := 2; RingBuffer.filled := true |} in
  (exists rb', RingBuffer.push rb [1; 2; 3; 4] = Ok rb' /\ RingBuffer.wf rb')
  /\ (forall n, 0 <= n -> returns (RingBuffer.read_last rb n)).
Proof.
  apply push_read_last_never_raise.
  - unfold RingBuffer.wf, Py.len. simpl. lia.
  - unfold Py.len. simpl. lia.
Defined.

Lemma read_last_after_wraparound_witness :
  let rb := {| RingBuffer.size := 4; RingBuffer.buf := [0; 0; 0; 0];
               RingBuffer.write_idx := 0; RingBuffer.filled := false |} in
  exists rb',
    RingBuffer.push_all rb [[1; 2; 3]; [4; 5; 6]; [7]] = Ok rb'
    /\ RingBuffer.read_last rb' 4 = Ok [4; 5; 6; 7].
Proof.
  apply (read_last_after_wraparound
           {| RingBuffer.size := 4; RingBuffer.buf := [0; 0; 0; 0];
              RingBuffer.write_idx := 0; RingBuffer.filled := false |}
           [[1; 2; 3]; [4; 5; 6]; [7]]).
  - unfold RingBuffer.wf, Py.len. simpl. lia.
  - repeat constructor; unfold Py.len; simpl; lia.
  - unfold Py.len. simpl. lia.
Defined.

Lemma push_read_last_roundtrip_witness :
  exists rb0 rb,
    RingBuffer.init 0 4 = Ok rb0 /\ RingBuffer.push rb0 [1; 2; 3] = Ok rb
    /\ RingBuffer.read_last rb 3 = Ok [1; 2; 3].
Proof.
  apply (push_read_last_roundtrip 0 4 [1; 2; 3]).
  unfold Py.len. simpl. lia.
Defined.

(** ** The emit decision *)

Section StabilityFacts.
Import Stability History.
Open Scope Q_scope.

Lemma should_emit_spec (st : emitted) (chord_name : string) (confidence : Q) :
  should_emit st chord_name confidence = true
  <-> chord_name <> last_chord st
      \/ (chord_name = last_chord st /\ chord_name <> SENTINEL
          /\ CONF_STEP < Qabs (confidence - last_score st)).
Proof.
  unfold should_emit.
  rewrite orb_true_iff, andb_true_iff, !negb_true_iff, !String.eqb_neq.
  rewrite Qltb_lt.
  destruct (String.eqb_spec chord_name (last_chord st)) as [E | E].
  - split.
    + intros [H | H]; [contradiction | right; tauto].
    + intros [H | H]; [contradiction | right; tauto].
  - split; intros _; left; exact E.
Qed.

Lemma emit_step_emits (st : emitted) (chord_name : string) (confidence : Q) :
  snd (emit_step st chord_name confidence) <> None
  <-> should_emit st chord_name confidence = true.
Proof.
  unfold emit_step. destruct (should_emit st chord_name confidence); simpl.
  - split; [reflexivity | discriminate].
  - split; [intro H; now elim H | discriminate].
Qed.

Lemma last_emitted_cons (st : emitted) (name : string) (conf : Q)
  (rest : list (string * Q)) :
  last_emitted st ((name, conf) :: rest)
  = last_emitted (fst (emit_step st name conf)) rest.
Proof.
  unfold last_emitted. cbn [emissions]. cbv zeta.
  unfold emit_step.
  destruct (should_emit st name conf); cbn [fst snd]; [ | reflexivity].
  cbn [rev].
  destruct (rev (emissions _ rest)) as [|[n c] l]; reflexivity.
Qed.

(** The memory of the loop is the last pair it has emitted. *)
Lemma memory_is_last_emitted (cycles : list (string * Q)) (st : emitted) :
  memory_after st cycles = last_emitted st cycles.
Proof.
  revert st. induction cycles as [|[name conf] rest IH]; intro st.
  - reflexivity.
  - rewrite last_emitted_cons. cbn [memory_after fold_left fst snd].
    apply IH.
Qed.

Lemma run_app (st : emitted) (past next : list (string * Q)) :
  run st (past ++ next)
  = run st past ++ run (memory_after st past) next.
Proof.
  revert st. induction past as [|[name conf] rest IH]; intro st.
  - reflexivity.
  - cbn [app run memory_after fold_left fst snd]. now rewrite IH.
Qed.

(** C9: a cycle emits exactly when the thresholded label differs from
    the label in the memory, or is the same, is not the sentinel, and the
    confidence is more than 0.05 away from the one in the memory; an
    emitting cycle stores its pair in the memory and any other cycle
    leaves the memory alone, so that after any sequence of cycles the
    memory is the last pair emitted (the initial pair if there was none)
    and the next cycle is compared with that pair, not with the previous
    cycle.  With the label "C" and confidences 0.80, 0.81, 0.82, 0.83,
    0.90 the first and the last cycle emit, the others do not; with
    0.80, 0.83, 0.86 the third cycle emits, being 0.06 away from the
    0.80 last emitted though only 0.03 away from the cycle before. *)
Theorem emit_decision :
  (forall st chord_name confidence,
      snd (emit_step st chord_name confidence) <> None
      <-> chord_name <> last_chord st
          \/ (chord_name = last_chord st /\ chord_name <> SENTINEL
              /\ CONF_STEP < Qabs (confidence - last_score st)))
  /\ (forall st chord_name confidence,
         fst (emit_step st chord_name confidence)
         = match snd (emit_step st chord_name confidence) with
           | Some (name, conf) =>
               {| last_chord := name; last_score := conf |}
           | None => st
           end)
  /\ (forall st past, memory_after st past = last_emitted st past)
  /\ (forall st past chord_name confidence,
         run st (past ++ [(chord_name, confidence)])
         = run st past ++ [true]
         <-> chord_name <> last_chord (last_emitted st past)
             \/ (chord_name = last_chord (last_emitted st past)
                 /\ chord_name <> SENTINEL
                 /\ CONF_STEP
                    < Qabs (confidence
                            - last_score (last_emitted st past))))
  /\ run initial
         [("C"%string, 80 # 100); ("C"%string, 81 # 100);
          ("C"%string, 82 # 100); ("C"%string, 83 # 100);
          ("C"%string, 90 # 100)]
     = [true; false; false; false; true]
  /\ run initial
         [("C"%string, 80 # 100); ("C"%string, 83 # 100);
          ("C"%string, 86 # 100)]
     = [true; false; true]
  /\ emissions initial
         [("C"%string, 80 # 100); ("C"%string, 83 # 100);
          ("C"%string, 86 # 100)]
     = [("C"%string, 80 # 100); ("C"%string, 86 # 100)].
Proof.
  split; [ | split; [ | split; [ | split; [ | split; [ | split]]]]].
  - intros st chord_name confidence.
    rewrite emit_step_emits. apply should_emit_spec.
  - intros st chord_name confidence. unfold emit_step.
    now destruct (should_emit st chord_name confidence).
  - intros st past. apply memory_is_last_emitted.
  - intros st past chord_name confidence.
    rewrite run_app, memory_is_last_emitted. cbn [run].
    rewrite <- should_emit_spec. split.
    + intro H. apply app_inv_head in H. now injection H.
    + now intros ->.
  - vm_compute. reflexivity.
  - vm_compute. reflexivity.
  - vm_compute. reflexivity.
Qed.

End StabilityFacts.

(** ** The frames of the extractor *)

Section FrameFacts.
Open Scope Z_scope.

Lemma range_up_length (fuel : nat) (start stop step : Z) :
  0 < step -> (Z.to_nat (stop - start) <= fuel)%nat ->
  length (Py.range_up fuel start stop step)
  = Z.to_nat ((stop - start + step - 1) / step).
Proof.
  intros Hs. revert start.
  induction fuel as [|fuel IH]; intros start Hf; simpl.
  - assert ((stop - start + step - 1) / step <= 0).
    { apply Z.lt_succ_r, Z.div_lt_upper_bound; lia. }
    lia.
  - destruct (start <? stop) eqn:E;
      [apply Z.ltb_lt in E | apply Z.ltb_ge in E]; simpl.
    + rewrite IH by lia.
      replace (stop - start + step - 1)
        with (stop - (start + step) + step - 1 + 1 * step) by lia.
      rewrite Z.div_add by lia.
      assert (0 <= (stop - (start + step) + step - 1) / step).
      { apply Z.div_pos; lia. }
      lia.
    + assert ((stop - start + step - 1) / step <= 0).
      { apply Z.lt_succ_r, Z.div_lt_upper_bound; lia. }
      lia.
Qed.

(** The number of frames of a block of at least one window: the offsets
    [0, 512, ...] strictly below [L - 2048]. *)
Lemma frames_processed_count (L : Z) :
  N_FFT <= L ->
  Chroma.frames_processed L N_FFT
  = Ok (Z.to_nat ((L - N_FFT + HOP_LEN - 1) / HOP_LEN)).
Proof.
  intro H. unfold Chroma.frames_processed, Chroma.frame_starts, Py.range.
  change (N_FFT / 4) with HOP_LEN.
  change (HOP_LEN =? 0) with false. change (0 <? HOP_LEN) with true.
  cbv iota. cbn [bind]. f_equal.
  rewrite range_up_length by (unfold HOP_LEN; lia).
  f_equal. f_equal. lia.
Qed.

(** C7 (what the code does): on a block of exactly 2048 samples the loop
    over the frames has no offset to visit, [range(0, 0, 512)] being
    empty: no frame is processed, where the count of the claim is one. *)
Theorem frames_exact_window_none :
  Chroma.frame_starts 2048 N_FFT = Ok []
  /\ Chroma.frames_processed 2048 N_FFT = Ok 0%nat
  /\ (2048 - N_FFT) / HOP_LEN + 1 = 1.
Proof. repeat split. Qed.

(** Whenever [L - 2048] is a multiple of the hop, the frame at the last
    offset is missing. *)
Lemma frames_processed_short (L : Z) :
  N_FFT <= L -> (L - N_FFT) mod HOP_LEN = 0 ->
  Chroma.frames_processed L N_FFT
  = Ok (Z.to_nat ((L - N_FFT) / HOP_LEN + 1 - 1)).
Proof.
  intros H Hm. rewrite frames_processed_count by exact H.
  do 2 f_equal. unfold N_FFT, HOP_LEN in *.
  pose proof (Z.div_mod (L - 2048) 512 ltac:(lia)).
  pose proof (Z.div_mod (L - 2048 + 512 - 1) 512 ltac:(lia)).
  pose proof (Z.mod_pos_bound (L - 2048 + 512 - 1) 512 ltac:(lia)).
  lia.
Qed.

End FrameFacts.

(** ** The chroma extractor *)

Section ChromaFacts.
Import Chroma.
Open Scope R_scope.

Lemma floor_pos : 0 < MAG_FLOOR.
Proof.
  unfold MAG_FLOOR. apply Rdiv_lt_0_compat; [lra | apply pow_lt; lra].
Qed.

(** *** Sums, scalings and quotients of arrays *)

Lemma np_sum_app (a b : list R) : np_sum (a ++ b) = np_sum a + np_sum b.
Proof.
  unfold np_sum. induction a as [|x a IH]; simpl; [lra | rewrite IH; lra].
Qed.

Lemma np_sum_scale (c : R) (v : list R) :
  np_sum (np_scale c v) = c * np_sum v.
Proof.
  unfold np_sum, np_scale. induction v as [|x v IH]; simpl;
    [lra | rewrite IH; lra].
Qed.

Lemma np_sum_div (v : list R) (d : R) : np_sum (np_div v d) = np_sum v / d.
Proof.
  unfold np_sum, np_div. induction v as [|x v IH]; simpl;
    [lra | rewrite IH; lra].
Qed.

Lemma np_sum_nonneg (v : list R) : nonneg v -> 0 <= np_sum v.
Proof.
  unfold np_sum. induction 1 as [|x v Hx _ IH]; simpl; lra.
Qed.

Lemma nonneg_sum_zero (v : list R) :
  nonneg v -> np_sum v <= 0 -> all_zero v.
Proof.
  unfold all_zero. induction 1 as [|x v Hx Hv IH]; intro Hs; constructor.
  - pose proof (np_sum_nonneg v Hv). unfold np_sum in *. simpl in Hs. lra.
  - apply IH. pose proof (np_sum_nonneg v Hv).
    unfold np_sum in *. simpl in Hs. lra.
Qed.

Lemma all_zero_sum (v : list R) : all_zero v -> np_sum v = 0.
Proof.
  unfold np_sum. induction 1 as [|x v Hx _ IH]; simpl; lra.
Qed.

Lemma np_div_nonneg (v : list R) (d : R) :
  0 < d -> nonneg v -> nonneg (np_div v d).
Proof.
  intros Hd. unfold nonneg, np_div. induction 1 as [|x v Hx _ IH];
    simpl; constructor; auto.
  unfold Rdiv. apply Rmult_le_pos; [lra | ].
  left. now apply Rinv_0_lt_compat.
Qed.

Lemma np_div_length (v : list R) (d : R) : length (np_div v d) = length v.
Proof. apply length_map. Qed.

Lemma np_scale_length (c : R) (v : list R) :
  length (np_scale c v) = length v.
Proof. apply length_map. Qed.

Lemma np_div_scale (c d : R) (v : list R) :
  np_div (np_scale c v) d = np_scale c (np_div v d).
Proof.
  unfold np_div, np_scale. rewrite !map_map. apply map_ext. intro x.
  unfold Rdiv. ring.
Qed.

Lemma np_div_scale_cancel (c d : R) (v : list R) :
  c <> 0 -> d <> 0 -> np_div (np_scale c v) (c * d) = np_div v d.
Proof.
  intros Hc Hd. unfold np_div, np_scale. rewrite map_map. apply map_ext.
  intro x. field. auto.
Qed.

Lemma np_scale_all_zero (c : R) (v : list R) :
  all_zero v -> np_scale c v = v.
Proof.
  unfold np_scale. induction 1 as [|x v Hx _ IH]; simpl; [reflexivity | ].
  rewrite IH, Hx. f_equal. ring.
Qed.

(** *** The accumulator of the loop over the bins *)

Lemma add_at_length (acc : list R) (i : nat) (v : R) :
  length (add_at acc i v) = length acc.
Proof.
  revert i. induction acc as [|a acc IH]; intros [|i]; simpl; auto.
Qed.

Lemma add_at_nonneg (acc : list R) (i : nat) (v : R) :
  0 <= v -> nonneg acc -> nonneg (add_at acc i v).
Proof.
  intros Hv H. revert i. unfold nonneg in *.
  induction H as [|a acc Ha Hacc IH]; intros [|i]; simpl;
    constructor; auto.
  lra.
Qed.

Lemma add_at_sum (acc : list R) (i : nat) (v : R) :
  (i < length acc)%nat -> np_sum (add_at acc i v) = np_sum acc + v.
Proof.
  revert i. unfold np_sum.
  induction acc as [|a acc IH]; intros [|i] Hi; simpl in *; try lia.
  - lra.
  - rewrite IH by lia. lra.
Qed.

Lemma add_at_scale (c : R) (acc : list R) (i : nat) (v : R) :
  add_at (np_scale c acc) i (c * v) = np_scale c (add_at acc i v).
Proof.
  revert i. unfold np_scale.
  induction acc as [|a acc IH]; intros [|i]; simpl; auto.
  - f_equal. ring.
  - now rewrite IH.
Qed.

Lemma chroma_bin_lt (freq : R) : (chroma_bin freq < 12)%nat.
Proof.
  unfold chroma_bin.
  pose proof (Z.mod_pos_bound (py_round (69 + 12 * log2 (freq / 440))) 12).
  lia.
Qed.

Lemma bin_step_length sr acc bin :
  length (bin_step sr acc bin) = length acc.
Proof.
  unfold bin_step. destruct bin as [freq mag].
  repeat destruct (Rlt_dec _ _); auto using add_at_length.
Qed.

Lemma bin_step_nonneg sr acc bin : nonneg acc -> nonneg (bin_step sr acc bin).
Proof.
  intro H. unfold bin_step. destruct bin as [freq mag].
  repeat destruct (Rlt_dec _ _); auto.
  apply add_at_nonneg; auto. pose proof floor_pos. lra.
Qed.

Lemma bin_step_sum sr acc bin :
  length acc = 12%nat -> np_sum acc <= np_sum (bin_step sr acc bin).
Proof.
  intro H. unfold bin_step. destruct bin as [freq mag].
  repeat destruct (Rlt_dec _ _); try lra.
  rewrite add_at_sum by (rewrite H; apply chroma_bin_lt).
  pose proof floor_pos. lra.
Qed.

Lemma accumulate_length sr freqs mags acc :
  length (accumulate sr freqs mags acc) = length acc.
Proof.
  unfold accumulate. generalize (combine freqs mags). intro bins.
  revert acc. induction bins as [|b bins IH]; intro acc; simpl; auto.
  now rewrite IH, bin_step_length.
Qed.

Lemma accumulate_nonneg sr freqs mags acc :
  nonneg acc -> nonneg (accumulate sr freqs mags acc).
Proof.
  unfold accumulate. generalize (combine freqs mags). intro bins.
  revert acc. induction bins as [|b bins IH]; intros acc H; simpl; auto.
  apply IH, bin_step_nonneg, H.
Qed.

Lemma frames_length sr freqs spec acc :
  length (fold_left (fun a mags => accumulate sr freqs mags a) spec acc)
  = length acc.
Proof.
  revert acc. induction spec as [|m spec IH]; intro acc; simpl; auto.
  now rewrite IH, accumulate_length.
Qed.

Lemma frames_nonneg sr freqs spec acc :
  nonneg acc ->
  nonneg (fold_left (fun a mags => accumulate sr freqs mags a) spec acc).
Proof.
  revert acc. induction spec as [|m spec IH]; intros acc H; simpl; auto.
  apply IH, accumulate_nonneg, H.
Qed.

Lemma np_zeros_nonneg (n : nat) : nonneg (np_zeros n).
Proof.
  unfold nonneg, np_zeros. induction n; simpl; constructor; auto. lra.
Qed.

Lemma np_zeros_all_zero (n : nat) : all_zero (np_zeros n).
Proof.
  unfold all_zero, np_zeros. induction n; simpl; constructor; auto.
Qed.

(** The last two steps of the extractor, on the accumulator the loop
    leaves. *)
Lemma finish_normalised (acc : list R) (frames : nat) :
  nonneg acc ->
  let avg := if (0 <? frames)%nat then np_div acc (INR frames) else acc in
  normalised (if Rlt_dec 0 (np_sum avg) then np_div avg (np_sum avg)
              else avg).
Proof.
  intros Hacc avg.
  assert (Havg : nonneg avg).
  { unfold avg. destruct (0 <? frames)%nat eqn:E; auto.
    apply np_div_nonneg; auto. apply lt_0_INR. now apply Nat.ltb_lt. }
  destruct (Rlt_dec 0 (np_sum avg)) as [Hpos | Hle]; split.
  - now apply np_div_nonneg.
  - left. rewrite np_sum_div. field. lra.
  - exact Havg.
  - right. apply nonneg_sum_zero; auto. lra.
Qed.

Lemma rfftfreq_returns (n sr : Z) :
  (n <> 0)%Z -> (sr <> 0)%Z -> returns (rfftfreq n sr).
Proof.
  intros Hn Hs. unfold rfftfreq.
  apply Z.eqb_neq in Hn, Hs. rewrite Hn, Hs. eexists. reflexivity.
Qed.

Lemma range_returns (start stop step : Z) :
  (step <> 0)%Z -> returns (Py.range start stop step).
Proof.
  intro H. unfold Py.range. apply Z.eqb_neq in H. rewrite H.
  destruct (0 <? step)%Z; eexists; reflexivity.
Qed.

Lemma chroma_from_audio_normalised (y : list R) (sr n_fft : Z) :
  (4 <= n_fft)%Z -> (sr <> 0)%Z ->
  exists v, chroma_from_audio y sr n_fft = Ok v
            /\ length v = 12%nat /\ normalised v.
Proof.
  intros Hn Hs. unfold chroma_from_audio.
  destruct (Py.len y <? n_fft)%Z.
  { exists (np_zeros 12). repeat split.
    - apply np_zeros_nonneg.
    - right. apply np_zeros_all_zero. }
  destruct (rfftfreq_returns n_fft sr) as [freqs ->]; [lia | auto | ].
  unfold frame_starts.
  destruct (range_returns 0 (Py.len y - n_fft) (n_fft / 4)) as [starts ->].
  { assert (1 <= n_fft / 4)%Z by (apply Z.div_le_lower_bound; lia). lia. }
  cbn [bind].
  set (acc := fold_left _ _ _).
  assert (Hacc : nonneg acc) by apply frames_nonneg, np_zeros_nonneg.
  assert (Hlen : length acc = 12%nat).
  { unfold acc. now rewrite frames_length. }
  pose proof (finish_normalised acc (length starts) Hacc) as Hfin.
  cbv zeta in Hfin.
  eexists. split; [ | split; [ | exact Hfin]].
  - destruct (Rlt_dec 0 _); reflexivity.
  - destruct (Rlt_dec 0 _), (0 <? length starts)%nat;
      rewrite ?np_div_length; exact Hlen.
Qed.

(** *** Scaling the block *)

Lemma np_mean_scale (c : R) (y : list R) :
  np_mean (np_scale c y) = c * np_mean y.
Proof.
  unfold np_mean. rewrite np_sum_scale, np_scale_length. unfold Rdiv. ring.
Qed.

Lemma centre_scale (c : R) (y : list R) :
  map (fun v => v - np_mean (np_scale c y)) (np_scale c y)
  = np_scale c (map (fun v => v - np_mean y) y).
Proof.
  rewrite np_mean_scale. unfold np_scale. rewrite !map_map.
  apply map_ext. intro v. ring.
Qed.

Lemma slice_scale (c : R) (l : list R) (lo hi : Z) :
  Py.slice (np_scale c l) lo hi = np_scale c (Py.slice l lo hi).
Proof.
  unfold Py.slice, Py.len, np_scale.
  now rewrite length_map, skipn_map, firstn_map.
Qed.

Lemma np_mul_scale (c : R) (a w : list R) :
  np_mul (np_scale c a) w = np_scale c (np_mul a w).
Proof.
  revert w. unfold np_scale.
  induction a as [|x a IH]; intros [|v w]; simpl; auto.
  rewrite IH. f_equal. ring.
Qed.

Lemma dft_sum_scale (trig : R -> R) (N k c : R) (m : nat) (f : list R) :
  dft_sum trig N k m (np_scale c f) = c * dft_sum trig N k m f.
Proof.
  revert m. unfold np_scale.
  induction f as [|v f IH]; intro m; simpl; [ring | rewrite IH; ring].
Qed.

Lemma bin_mag_scale (c : R) (f : list R) (k : nat) :
  0 <= c -> bin_mag (np_scale c f) k = c * bin_mag f k.
Proof.
  intro Hc. unfold bin_mag. rewrite np_scale_length, !dft_sum_scale.
  rewrite !Rsqr_mult, <- Rmult_plus_distr_l.
  rewrite sqrt_mult_alt by apply Rle_0_sqr.
  now rewrite sqrt_Rsqr.
Qed.

Lemma fft_mag_scale (c : R) (f : list R) :
  0 <= c -> fft_mag (np_scale c f) = np_scale c (fft_mag f).
Proof.
  intro Hc. unfold fft_mag. rewrite np_scale_length.
  unfold np_scale at 2. rewrite map_map. apply map_ext.
  intro k. now apply bin_mag_scale.
Qed.

Lemma spectra_scale (c : R) (y : list R) (n_fft : Z) (starts : list Z) :
  0 <= c ->
  spectra (np_scale c y) n_fft starts
  = map (np_scale c) (spectra y n_fft starts).
Proof.
  intro Hc. unfold spectra. rewrite centre_scale, map_map.
  apply map_ext. intro start. unfold frame_at.
  now rewrite slice_scale, np_mul_scale, fft_mag_scale.
Qed.

Lemma bin_step_scale (c : R) sr acc (freq mag : R) :
  (mag < MAG_FLOOR <-> c * mag < MAG_FLOOR) ->
  bin_step sr (np_scale c acc) (freq, c * mag)
  = np_scale c (bin_step sr acc (freq, mag)).
Proof.
  intro H. unfold bin_step.
  destruct (Rlt_dec freq 20); auto.
  destruct (Rlt_dec (IZR sr / 2) freq); auto.
  destruct (Rlt_dec mag MAG_FLOOR) as [Hm | Hm],
           (Rlt_dec (c * mag) MAG_FLOOR) as [Hc | Hc]; auto.
  - elim Hc. now apply H.
  - elim Hm. now apply H.
  - apply add_at_scale.
Qed.

Lemma accumulate_scale (c : R) sr (freqs mags acc : list R) :
  Forall (fun m => m < MAG_FLOOR <-> c * m < MAG_FLOOR) mags ->
  accumulate sr freqs (np_scale c mags) (np_scale c acc)
  = np_scale c (accumulate sr freqs mags acc).
Proof.
  unfold accumulate. intro H. revert freqs acc.
  induction H as [|m mags Hm _ IH]; intros [|f freqs] acc;
    try reflexivity.
  change (np_scale c (m :: mags)) with (c * m :: np_scale c mags).
  cbn [combine fold_left]. now rewrite bin_step_scale, IH.
Qed.

Lemma frames_scale (c : R) sr (freqs : list R) (spec : list (list R)) acc :
  floor_stable c spec ->
  fold_left (fun a mags => accumulate sr freqs mags a)
            (map (np_scale c) spec) (np_scale c acc)
  = np_scale c
      (fold_left (fun a mags => accumulate sr freqs mags a) spec acc).
Proof.
  intro H. revert acc.
  induction H as [|m spec Hm _ IH]; intro acc; [reflexivity | ].
  cbn [map fold_left]. now rewrite accumulate_scale, IH.
Qed.

Lemma np_scale_zeros (c : R) (n : nat) :
  np_scale c (np_zeros n) = np_zeros n.
Proof. apply np_scale_all_zero, np_zeros_all_zero. Qed.

(** C8 (amended): scaling the block by a positive constant that moves no
    bin of any frame across the magnitude floor leaves the chromagram
    unchanged. *)
Theorem chroma_scaling_invariant (c : R) (y : list R) (sr n_fft : Z) :
  0 < c ->
  (forall starts, frame_starts (Py.len y) n_fft = Ok starts ->
                  floor_stable c (spectra y n_fft starts)) ->
  chroma_from_audio (np_scale c y) sr n_fft = chroma_from_audio y sr n_fft.
Proof.
  intros Hc Hstable. unfold chroma_from_audio.
  assert (Hlen : Py.len (np_scale c y) = Py.len y).
  { unfold Py.len. now rewrite np_scale_length. }
  rewrite Hlen. destruct (Py.len y <? n_fft)%Z; [reflexivity | ].
  destruct (rfftfreq n_fft sr) as [freqs | e]; [ | reflexivity].
  cbn [bind].
  destruct (frame_starts (Py.len y) n_fft) as [starts | e] eqn:Es;
    [ | reflexivity].
  cbn [bind]. specialize (Hstable starts eq_refl).
  rewrite spectra_scale by lra.
  pose proof (frames_scale c sr freqs _ (np_zeros 12) Hstable) as Hfr.
  rewrite np_scale_zeros in Hfr. rewrite Hfr. clear Hfr.
  set (acc := fold_left _ (spectra y n_fft starts) _).
  assert (Hacc : nonneg acc) by apply frames_nonneg, np_zeros_nonneg.
  set (avg := if (0 <? length starts)%nat
              then np_div acc (INR (length starts)) else acc).
  assert (Havg : (if (0 <? length starts)%nat
                  then np_div (np_scale c acc) (INR (length starts))
                  else np_scale c acc) = np_scale c avg).
  { unfold avg. destruct (0 <? length starts)%nat; auto using np_div_scale. }
  rewrite Havg, np_sum_scale.
  assert (Hnn : nonneg avg).
  { unfold avg. destruct (0 <? length starts)%nat eqn:E; auto.
    apply np_div_nonneg; auto. apply lt_0_INR. now apply Nat.ltb_lt. }
  destruct (Rlt_dec 0 (np_sum avg)) as [Hpos | Hle],
           (Rlt_dec 0 (c * np_sum avg)) as [Hpos' | Hle'].
  - f_equal. apply np_div_scale_cancel; lra.
  - elim Hle'. now apply Rmult_lt_0_compat.
  - elim Hle. nra.
  - f_equal. apply np_scale_all_zero, nonneg_sum_zero; auto. lra.
Qed.

(** *** The smoothing *)

Lemma blend_nonneg (s c : list R) :
  nonneg s -> nonneg c -> nonneg (blend s c).
Proof.
  unfold nonneg. intro Hs. revert c.
  induction Hs as [|x s Hx _ IH]; intros c Hc; simpl; [constructor | ].
  destruct Hc as [|z c Hz Hc]; constructor; auto.
  unfold CHROMA_SMOOTH. nra.
Qed.

Lemma blend_sum (s c : list R) :
  length s = length c ->
  np_sum (blend s c)
  = CHROMA_SMOOTH * np_sum s + (1 - CHROMA_SMOOTH) * np_sum c.
Proof.
  revert c. unfold np_sum.
  induction s as [|x s IH]; intros [|z c] H; simpl in *; try discriminate.
  - ring.
  - rewrite IH by congruence. ring.
Qed.

Lemma blend_length (s c : list R) :
  length s = length c -> length (blend s c) = length c.
Proof.
  revert c. induction s as [|x s IH]; intros [|z c] H; simpl in *;
    try discriminate; auto.
Qed.

Lemma normalised_sub (v : list R) : normalised v -> sub_normalised v.
Proof.
  intros [Hn [Hs | Hz]]; split; auto; [lra | ].
  rewrite all_zero_sum by exact Hz. lra.
Qed.

Lemma blend_sub_normalised (s c : list R) :
  length s = length c -> sub_normalised s -> sub_normalised c ->
  sub_normalised (blend s c).
Proof.
  intros Hl [Hs Hs1] [Hc Hc1]. split; [now apply blend_nonneg | ].
  rewrite blend_sum by exact Hl. unfold CHROMA_SMOOTH. lra.
Qed.

(** *** One frame with two opposite samples *)

Lemma dft_sum_app (trig : R -> R) (N k : R) (m : nat) (f g : list R) :
  dft_sum trig N k m (f ++ g)
  = dft_sum trig N k m f + dft_sum trig N k (m + length f) g.
Proof.
  revert m. induction f as [|v f IH]; intro m; simpl.
  - rewrite Nat.add_0_r. ring.
  - rewrite IH. replace (S m + length f)%nat with (m + S (length f))%nat
      by lia. ring.
Qed.

Lemma dft_sum_zero (trig : R -> R) (N k : R) (m : nat) (f : list R) :
  all_zero f -> dft_sum trig N k m f = 0.
Proof.
  intro H. revert m. induction H as [|v f Hv _ IH]; intro m; simpl.
  - reflexivity.
  - rewrite IH, Hv. ring.
Qed.

Lemma np_mul_app (a1 a2 w1 w2 : list R) :
  length a1 = length w1 ->
  np_mul (a1 ++ a2) (w1 ++ w2) = np_mul a1 w1 ++ np_mul a2 w2.
Proof.
  revert w1. induction a1 as [|x a1 IH]; intros [|v w1] H; simpl in *;
    try discriminate; auto.
  now rewrite IH by congruence.
Qed.

Lemma np_mul_zero (n : nat) (z : R) (w : list R) :
  z = 0 -> length w = n ->
  all_zero (np_mul (repeat z n) w) /\ length (np_mul (repeat z n) w) = n.
Proof.
  intros ->. revert w. unfold all_zero.
  induction n as [|n IH]; intros [|v w] H; simpl in *; try discriminate.
  - split; [constructor | reflexivity].
  - destruct (IH w) as [Hz Hl]; [congruence | ].
    split; [constructor; [ring | exact Hz] | now rewrite Hl].
Qed.

Lemma hann_bounds (n : nat) : 0 <= hann n <= 1.
Proof.
  unfold hann. pose proof (COS_bound (2 * PI * INR n / (IZR N_FFT - 1))).
  lra.
Qed.

Lemma hann_middle_l : 1 / 2 <= hann 1023.
Proof.
  unfold hann. rewrite INR_IZR_INZ.
  change (Z.of_nat 1023) with 1023%Z. unfold N_FFT.
  pose proof PI_RGT_0.
  assert (cos (2 * PI * 1023 / (2048 - 1)) <= 0) by (apply cos_le_0; lra).
  lra.
Qed.

Lemma hann_middle_r : 1 / 2 <= hann 1024.
Proof.
  unfold hann. rewrite INR_IZR_INZ.
  change (Z.of_nat 1024) with 1024%Z. unfold N_FFT.
  pose proof PI_RGT_0.
  assert (cos (2 * PI * 1024 / (2048 - 1)) <= 0) by (apply cos_le_0; lra).
  lra.
Qed.

Lemma hanning_split :
  hanning N_FFT
  = map hann (seq 0 1023) ++ [hann 1023; hann 1024]
    ++ map hann (seq 1025 1023).
Proof.
  unfold hanning.
  change (N_FFT <? 1)%Z with false. change (N_FFT =? 1)%Z with false.
  cbv iota.
  change (Z.to_nat N_FFT) with (1023 + (2 + 1023))%nat.
  rewrite !seq_app, !map_app. reflexivity.
Qed.

Lemma spike_len (a : R) : Py.len (spike a) = 2049%Z.
Proof.
  unfold Py.len, spike. rewrite !length_app, !repeat_length. reflexivity.
Qed.

Lemma spike_mean (a : R) : np_mean (spike a) = 0.
Proof.
  unfold np_mean, spike. rewrite !np_sum_app.
  rewrite (all_zero_sum (repeat 0 1023)) by apply np_zeros_all_zero.
  unfold np_sum at 1 2. simpl fold_right. unfold Rdiv. ring.
Qed.

(** The windowed frame of the block [spike a]. *)
Lemma spike_frame (a : R) :
  exists z1 z3,
    frame_at (map (fun v => v - np_mean (spike a)) (spike a))
             (hanning N_FFT) N_FFT 0
    = z1 ++ [a * hann 1023; - a * hann 1024] ++ z3
    /\ all_zero z1 /\ length z1 = 1023%nat
    /\ all_zero z3 /\ length z3 = 1023%nat.
Proof.
  rewrite spike_mean. unfold frame_at, Py.slice.
  assert (Hl : Py.len (map (fun v => v - 0) (spike a)) = 2049%Z).
  { unfold Py.len. rewrite length_map. apply spike_len. }
  rewrite Hl.
  change (Py.bound 2049 0) with 0%Z.
  change (Py.bound 2049 (0 + N_FFT)) with 2048%Z.
  change (Z.to_nat (2048 - 0)) with (1023 + (2 + 1023))%nat.
  change (Z.to_nat 0) with 0%nat. rewrite skipn_O.
  unfold spike. rewrite !map_app, !map_repeat.
  rewrite (app_assoc _ _ (map _ [0])), (app_assoc _ _ (map _ [0])).
  rewrite firstn_app.
  rewrite firstn_all2 by (rewrite !length_app, !repeat_length; simpl; lia).
  rewrite !length_app, !repeat_length. simpl length.
  replace (1023 + (2 + 1023) - (1023 + (2 + 1023)))%nat with 0%nat by lia.
  rewrite firstn_O, app_nil_r.
  rewrite hanning_split.
  rewrite np_mul_app by (now rewrite repeat_length, length_map, length_seq).
  rewrite np_mul_app by reflexivity.
  destruct (np_mul_zero 1023 (0 - 0) (map hann (seq 0 1023)))
    as [Hz1 Hl1]; [ring | now rewrite length_map, length_seq | ].
  destruct (np_mul_zero 1023 (0 - 0) (map hann (seq 1025 1023)))
    as [Hz3 Hl3]; [ring | now rewrite length_map, length_seq | ].
  exists (np_mul (repeat (0 - 0) 1023) (map hann (seq 0 1023))),
         (np_mul (repeat (0 - 0) 1023) (map hann (seq 1025 1023))).
  split; [ | repeat split; assumption].
  do 2 f_equal. cbn [map np_mul app].
  f_equal; [ring | f_equal; ring].
Qed.

Lemma two_sample_dft (trig : R -> R) (N k p q : R) (z1 z3 : list R) :
  all_zero z1 -> all_zero z3 ->
  dft_sum trig N k 0 (z1 ++ [p; q] ++ z3)
  = p * trig (2 * PI * k * INR (length z1) / N)
    + q * trig (2 * PI * k * INR (S (length z1)) / N).
Proof.
  intros H1 H3. rewrite dft_sum_app, (dft_sum_zero _ _ _ _ z1 H1).
  rewrite dft_sum_app, (dft_sum_zero _ _ _ _ z3 H3).
  cbn [dft_sum Nat.add]. ring.
Qed.

Lemma sqrt_sum_sqr_le (x y : R) : sqrt (x² + y²) <= Rabs x + Rabs y.
Proof.
  pose proof (Rabs_pos x). pose proof (Rabs_pos y).
  rewrite <- (sqrt_Rsqr (Rabs x + Rabs y)) by lra.
  apply sqrt_le_1_alt.
  rewrite (Rsqr_abs x), (Rsqr_abs y). unfold Rsqr. nra.
Qed.

Lemma two_sample_mag_le (p q : R) (z1 z3 : list R) (k : nat) :
  all_zero z1 -> all_zero z3 ->
  bin_mag (z1 ++ [p; q] ++ z3) k <= 2 * (Rabs p + Rabs q).
Proof.
  intros H1 H3. unfold bin_mag. rewrite !two_sample_dft by assumption.
  eapply Rle_trans; [apply sqrt_sum_sqr_le | ].
  assert (Hb : forall (trig : R -> R) (t1 t2 : R),
             (forall x, -1 <= trig x <= 1) ->
             Rabs (p * trig t1 + q * trig t2) <= Rabs p + Rabs q).
  { intros trig t1 t2 Ht. eapply Rle_trans; [apply Rabs_triang | ].
    rewrite !Rabs_mult.
    assert (Rabs (trig t1) <= 1) by (apply Rabs_le, Ht).
    assert (Rabs (trig t2) <= 1) by (apply Rabs_le, Ht).
    pose proof (Rabs_pos p). pose proof (Rabs_pos q). nra. }
  match goal with
  | |- Rabs (p * cos ?a + q * cos ?b) + _ <= _ =>
      pose proof (Hb cos a b COS_bound);
      pose proof (Hb sin a b SIN_bound)
  end.
  lra.
Qed.

Lemma cos_odd_pi : cos (2 * PI * INR 1024 * INR 1023 / INR 2048) = -1.
Proof.
  replace (2 * PI * INR 1024 * INR 1023 / INR 2048)
    with (PI + 2 * INR 511 * PI).
  - rewrite cos_period. apply cos_PI.
  - rewrite !INR_IZR_INZ. cbn [Z.of_nat Pos.of_succ_nat Pos.succ]. field.
Qed.

Lemma sin_odd_pi : sin (2 * PI * INR 1024 * INR 1023 / INR 2048) = 0.
Proof.
  replace (2 * PI * INR 1024 * INR 1023 / INR 2048)
    with (PI + 2 * INR 511 * PI).
  - rewrite sin_period. apply sin_PI.
  - rewrite !INR_IZR_INZ. cbn [Z.of_nat Pos.of_succ_nat Pos.succ]. field.
Qed.

Lemma cos_even_pi : cos (2 * PI * INR 1024 * INR 1024 / INR 2048) = 1.
Proof.
  replace (2 * PI * INR 1024 * INR 1024 / INR 2048)
    with (0 + 2 * INR 512 * PI).
  - rewrite cos_period. apply cos_0.
  - rewrite !INR_IZR_INZ. cbn [Z.of_nat Pos.of_succ_nat Pos.succ]. field.
Qed.

Lemma sin_even_pi : sin (2 * PI * INR 1024 * INR 1024 / INR 2048) = 0.
Proof.
  replace (2 * PI * INR 1024 * INR 1024 / INR 2048)
    with (0 + 2 * INR 512 * PI).
  - rewrite sin_period. apply sin_0.
  - rewrite !INR_IZR_INZ. cbn [Z.of_nat Pos.of_succ_nat Pos.succ]. field.
Qed.

(** The top bin of a frame with two adjacent samples in the middle:
    consecutive samples enter it with opposite signs. *)
Lemma two_sample_nyquist (p q : R) (z1 z3 : list R) :
  all_zero z1 -> all_zero z3 ->
  length z1 = 1023%nat -> length z3 = 1023%nat ->
  bin_mag (z1 ++ [p; q] ++ z3) 1024 = Rabs (q - p).
Proof.
  intros H1 H3 L1 L3. unfold bin_mag.
  rewrite !two_sample_dft by assumption.
  rewrite !length_app, L1, L3.
  change (1023 + (length [p; q] + 1023))%nat with 2048%nat.
  rewrite cos_odd_pi, sin_odd_pi, cos_even_pi, sin_even_pi.
  replace ((p * -1 + q * 1)² + (p * 0 + q * 0)²) with ((q - p)²)
    by (unfold Rsqr; ring).
  apply sqrt_Rsqr_abs.
Qed.

(** *** The extractor on a block of one frame *)

Lemma chroma_one_frame (y : list R) :
  Py.len y = 2049%Z ->
  chroma_from_audio y SR N_FFT
  = let mags :=
      fft_mag (frame_at (map (fun v => v - np_mean y) y)
                        (hanning N_FFT) N_FFT 0) in
    let acc :=
      accumulate SR (map bin_freq (seq 0 1025)) mags (np_zeros 12) in
    let avg := np_div acc (INR 1) in
    if Rlt_dec 0 (np_sum avg) then Ok (np_div avg (np_sum avg))
    else Ok avg.
Proof.
  intro H. unfold chroma_from_audio. rewrite H.
  change (2049 <? N_FFT)%Z with false. cbv iota.
  unfold rfftfreq.
  change (SR =? 0)%Z with false. change (N_FFT =? 0)%Z with false.
  cbv iota. cbn [bind].
  change (frame_starts 2049 N_FFT) with (Ok [0%Z]). cbn [bind].
  unfold spectra. cbn [map fold_left length].
  change (0 <? 1)%nat with true. cbv iota.
  change (Z.to_nat (N_FFT / 2 + 1)) with 1025%nat.
  reflexivity.
Qed.

Lemma accumulate_below_floor sr (freqs mags acc : list R) :
  Forall (fun m => m < MAG_FLOOR) mags ->
  accumulate sr freqs mags acc = acc.
Proof.
  unfold accumulate. intro H. revert freqs.
  induction H as [|m mags Hm _ IH]; intros [|f freqs]; try reflexivity.
  cbn [combine fold_left]. unfold bin_step at 2.
  destruct (Rlt_dec f 20); auto.
  destruct (Rlt_dec (IZR sr / 2) f); auto.
  destruct (Rlt_dec m MAG_FLOOR); [auto | contradiction].
Qed.

Lemma bins_sum_le sr (bins : list (R * R)) (acc : list R) :
  length acc = 12%nat ->
  np_sum acc <= np_sum (fold_left (bin_step sr) bins acc).
Proof.
  revert acc. induction bins as [|b bins IH]; intros acc H; simpl; [lra | ].
  eapply Rle_trans; [apply (bin_step_sum sr acc b H) | ].
  apply IH. now rewrite bin_step_length.
Qed.

Lemma bins_sum_ge sr (bins : list (R * R)) (acc : list R) (f m : R) :
  length acc = 12%nat -> In (f, m) bins ->
  ~ f < 20 -> ~ IZR sr / 2 < f -> ~ m < MAG_FLOOR ->
  np_sum acc + m <= np_sum (fold_left (bin_step sr) bins acc).
Proof.
  intros Hl Hin Hf1 Hf2 Hm. revert acc Hl.
  induction bins as [|b bins IH]; intros acc Hl; [contradiction | ].
  cbn [fold_left]. destruct Hin as [-> | Hin].
  - eapply Rle_trans; [ | apply bins_sum_le; now rewrite bin_step_length].
    unfold bin_step.
    destruct (Rlt_dec f 20); [contradiction | ].
    destruct (Rlt_dec (IZR sr / 2) f); [contradiction | ].
    destruct (Rlt_dec m MAG_FLOOR); [contradiction | ].
    rewrite add_at_sum by (rewrite Hl; apply chroma_bin_lt). lra.
  - eapply Rle_trans; [ | apply IH; auto; now rewrite bin_step_length].
    pose proof (bin_step_sum sr acc b Hl). lra.
Qed.

Lemma in_combine_seq (f : nat -> R) (mags : list R) (n k s : nat) :
  (k < n)%nat -> length mags = n ->
  In (f (s + k)%nat, nth k mags 0) (combine (map f (seq s n)) mags).
Proof.
  revert mags k s. induction n as [|n IH]; intros mags k s Hk Hl; [lia | ].
  destruct mags as [|m mags]; [discriminate | ].
  cbn [seq map combine]. destruct k as [|k].
  - left. now rewrite Nat.add_0_r.
  - right. replace (s + S k)%nat with (S s + k)%nat by lia.
    cbn [nth]. apply IH; [lia | now injection Hl].
Qed.

Lemma nyquist_freq : bin_freq 1024 = 11025.
Proof.
  unfold bin_freq, N_FFT, SR. rewrite INR_IZR_INZ.
  cbn [Z.of_nat Pos.of_succ_nat Pos.succ]. field.
Qed.

(** The sum the loop over the bins leaves is at least the magnitude of
    the top bin, when that reaches the floor. *)
Lemma top_bin_counted (mags : list R) :
  length mags = 1025%nat -> MAG_FLOOR <= nth 1024 mags 0 ->
  nth 1024 mags 0
  <= np_sum (accumulate SR (map bin_freq (seq 0 1025)) mags (np_zeros 12)).
Proof.
  intros Hl Hm. unfold accumulate.
  eapply Rle_trans;
    [ | apply (bins_sum_ge SR _ (np_zeros 12) (bin_freq 1024%nat)
                           (nth 1024 mags 0))].
  - rewrite (all_zero_sum _ (np_zeros_all_zero 12)). lra.
  - reflexivity.
  - apply (in_combine_seq bin_freq mags 1025 1024 0); [lia | exact Hl].
  - rewrite nyquist_freq. lra.
  - rewrite nyquist_freq. unfold SR. lra.
  - lra.
Qed.

(** The magnitudes of the one frame of [spike a]. *)
Lemma spike_mags (a : R) :
  0 <= a ->
  let mags :=
    fft_mag (frame_at (map (fun v => v - np_mean (spike a)) (spike a))
                      (hanning N_FFT) N_FFT 0) in
  length mags = 1025%nat
  /\ Forall (fun m => m <= 4 * a) mags
  /\ a <= nth 1024 mags 0.
Proof.
  intros Ha mags. subst mags.
  destruct (spike_frame a) as (z1 & z3 & -> & Hz1 & Hl1 & Hz3 & Hl3).
  set (frame := z1 ++ _ ++ z3).
  assert (Hlen : length frame = 2048%nat).
  { unfold frame. rewrite !length_app, Hl1, Hl3. reflexivity. }
  pose proof (hann_bounds 1023) as Hb1. pose proof (hann_bounds 1024) as Hb2.
  assert (Hmag : forall k, bin_mag frame k <= 4 * a).
  { intro k. eapply Rle_trans; [apply two_sample_mag_le; assumption | ].
    rewrite !Rabs_mult, Rabs_Ropp, (Rabs_pos_eq a) by exact Ha.
    rewrite !Rabs_pos_eq by lra. nra. }
  unfold fft_mag. rewrite Hlen.
  change (2048 / 2 + 1)%nat with 1025%nat.
  split; [ | split].
  - now rewrite length_map, length_seq.
  - apply Forall_map, Forall_forall. intros k _. apply Hmag.
  - rewrite nth_indep with (d' := bin_mag frame 0)
      by (rewrite length_map, length_seq; lia).
    rewrite map_nth, seq_nth by lia. unfold frame.
    rewrite two_sample_nyquist by assumption.
    replace (- a * hann 1024 - a * hann 1023)
      with (- (a * (hann 1023 + hann 1024))) by ring.
    rewrite Rabs_Ropp, Rabs_pos_eq by nra.
    pose proof hann_middle_l. pose proof hann_middle_r. nra.
Qed.

Lemma floor_value : MAG_FLOOR = 1 / 10000000000.
Proof. unfold MAG_FLOOR. f_equal. simpl. ring. Qed.

(** A block of one frame whose two samples are too small for any bin to
    reach the floor: the chromagram is all-zero. *)
Lemma spike_quiet (a : R) :
  0 <= a -> 4 * a < MAG_FLOOR ->
  exists v, chroma_from_audio (spike a) SR N_FFT = Ok v
            /\ length v = 12%nat /\ all_zero v.
Proof.
  intros Ha Hq. rewrite chroma_one_frame by apply spike_len. cbv zeta.
  destruct (spike_mags a Ha) as (_ & Hle & _).
  rewrite accumulate_below_floor.
  2:{ eapply Forall_impl; [ | exact Hle]. cbv beta. intros m Hm. lra. }
  assert (Hz : all_zero (np_div (np_zeros 12) (INR 1))).
  { unfold all_zero, np_div, np_zeros. rewrite map_repeat.
    apply Forall_forall. intros x Hx. apply repeat_spec in Hx.
    subst x. simpl. field. }
  exists (np_div (np_zeros 12) (INR 1)). split; [ | split; [ | exact Hz]].
  - rewrite (all_zero_sum _ Hz).
    destruct (Rlt_dec 0 0) as [H | _]; [lra | reflexivity].
  - now rewrite np_div_length.
Qed.

(** A block of one frame whose two samples reach the floor: the top bin
    is counted, and the chromagram sums to one. *)
Lemma spike_loud (a : R) :
  MAG_FLOOR <= a ->
  exists v, chroma_from_audio (spike a) SR N_FFT = Ok v /\ np_sum v = 1.
Proof.
  intro Hfl. pose proof floor_pos as Hfp.
  rewrite chroma_one_frame by apply spike_len. cbv zeta.
  destruct (spike_mags a) as (Hlen & _ & Hny); [lra | ].
  generalize dependent (fft_mag
    (frame_at (map (fun v => v - np_mean (spike a)) (spike a))
              (hanning N_FFT) N_FFT 0)).
  intros mags Hlen Hny.
  pose proof (top_bin_counted mags Hlen) as Hacc.
  generalize dependent
    (accumulate SR (map bin_freq (seq 0 1025)) mags (np_zeros 12)).
  intros acc Hacc.
  assert (Havg : np_sum (np_div acc (INR 1)) = np_sum acc).
  { rewrite np_sum_div. change (INR 1) with 1. field. }
  rewrite Havg.
  destruct (Rlt_dec 0 (np_sum acc)) as [Hpos | Hneg]; [ | lra].
  eexists. split; [reflexivity | ].
  rewrite np_sum_div, Havg. field. lra.
Qed.

Lemma scale_spike (c a : R) : np_scale c (spike a) = spike (c * a).
Proof.
  unfold np_scale, spike. rewrite !map_app, !map_repeat.
  cbn [map]. replace (c * 0) with 0 by ring.
  now replace (c * - a) with (- (c * a)) by ring.
Qed.

(** C8 (counterexample): a block of 2049 samples with two opposite
    samples of size [1e-12] gives the all-zero chromagram, every bin
    being under the floor; scaled by [1e12] it gives one that sums to
    one. *)
Lemma chroma_scaling_not_invariant :
  0 < 10 ^ 12
  /\ chroma_from_audio (np_scale (10 ^ 12) (spike (1 / 10 ^ 12))) SR N_FFT
     <> chroma_from_audio (spike (1 / 10 ^ 12)) SR N_FFT.
Proof.
  assert (Hc : 0 < 10 ^ 12) by (apply pow_lt; lra).
  split; [exact Hc | ].
  rewrite scale_spike.
  replace (10 ^ 12 * (1 / 10 ^ 12)) with 1 by (field; lra).
  destruct (spike_loud 1) as (v1 & -> & Hs1).
  { rewrite floor_value. lra. }
  destruct (spike_quiet (1 / 10 ^ 12)) as (v2 & -> & _ & Hz2).
  { apply Rlt_le, Rdiv_lt_0_compat; lra. }
  { rewrite floor_value. simpl. lra. }
  intro H. injection H as ->.
  rewrite (all_zero_sum _ Hz2) in Hs1. lra.
Qed.

(** The Hann window is symmetric about its middle. *)
Lemma hann_symmetric : hann 1023 = hann 1024.
Proof.
  unfold hann. rewrite !INR_IZR_INZ.
  change (Z.of_nat 1023) with 1023%Z. change (Z.of_nat 1024) with 1024%Z.
  unfold N_FFT. do 2 f_equal.
  replace (2 * PI * 1024 / (2048 - 1))
    with (- (2 * PI * 1023 / (2048 - 1)) + 2 * INR 1 * PI)
    by (change (INR 1) with 1; field).
  now rewrite cos_period, cos_neg.
Qed.

Lemma one_minus_cos_half (x : R) : 1 - cos x <= 4 * (1 - cos (x / 2)).
Proof.
  replace x with (2 * (x / 2)) at 1 by field.
  rewrite cos_2a_cos. pose proof (COS_bound (x / 2)). nra.
Qed.

Lemma one_minus_cos_pow (n : nat) : 1 / 4 ^ n <= 1 - cos (PI / 2 / 2 ^ n).
Proof.
  induction n as [|n IH].
  - cbn [pow]. replace (PI / 2 / 1) with (PI / 2) by field.
    rewrite cos_PI2. lra.
  - pose proof (one_minus_cos_half (PI / 2 / 2 ^ n)) as H.
    replace (PI / 2 / 2 ^ n / 2) with (PI / 2 / 2 ^ S n) in H
      by (cbn [pow]; field; apply pow_nonzero; lra).
    assert (H4 : 0 < 4 ^ n) by (apply pow_lt; lra).
    replace (1 / 4 ^ S n) with (1 / 4 ^ n / 4)
      by (cbn [pow]; field; lra).
    lra.
Qed.

(** The squared magnitude of a bin of a frame with two adjacent non-zero
    samples. *)
Lemma two_sample_mag (p q : R) (z1 z3 : list R) (k : nat) :
  all_zero z1 -> all_zero z3 ->
  bin_mag (z1 ++ [p; q] ++ z3) k
  = sqrt (p * p + q * q
          + 2 * p * q
            * cos (2 * PI * INR k / INR (length (z1 ++ [p; q] ++ z3)))).
Proof.
  intros H1 H3. unfold bin_mag. rewrite !two_sample_dft by assumption.
  f_equal.
  set (N := INR (length (z1 ++ [p; q] ++ z3))).
  set (t1 := 2 * PI * INR k * INR (length z1) / N).
  set (t2 := 2 * PI * INR k * INR (S (length z1)) / N).
  replace (2 * PI * INR k / N) with (t2 - t1).
  - rewrite cos_minus.
    pose proof (sin2_cos2 t1) as E1. pose proof (sin2_cos2 t2) as E2.
    unfold Rsqr in *. nra.
  - unfold t1, t2. rewrite S_INR. unfold Rdiv. ring.
Qed.

Lemma top_angle_cos (k : nat) :
  (1 <= k <= 1024)%nat ->
  cos (2 * PI * INR k / INR 2048) <= 1 - 1 / 4 ^ 9.
Proof.
  intros [Hk1 Hk2]. pose proof PI_RGT_0 as Hpi.
  apply le_INR in Hk1, Hk2. rewrite !INR_IZR_INZ in *.
  change (Z.of_nat 1) with 1%Z in Hk1.
  change (Z.of_nat 1024) with 1024%Z in Hk2.
  change (Z.of_nat 2048) with 2048%Z.
  generalize dependent (IZR (Z.of_nat k)). intros x Hx1 Hx2.
  pose proof (one_minus_cos_pow 9) as Hc.
  replace (PI / 2 / 2 ^ 9) with (PI / 1024) in Hc by (cbn [pow]; field).
  assert (Hd : cos (2 * PI * x / 2048) <= cos (PI / 1024)).
  { apply cos_decr_1; try lra.
    - apply Rmult_le_reg_r with 2048; [lra | ].
      unfold Rdiv. rewrite Rmult_assoc, Rinv_l by lra. nra.
    - apply Rmult_le_reg_r with 2048; [lra | ].
      unfold Rdiv. rewrite Rmult_assoc, Rinv_l by lra. nra.
    - apply Rmult_le_reg_r with 2048; [lra | ].
      unfold Rdiv. rewrite (Rmult_assoc (2 * PI * x)), Rinv_l by lra. nra. }
  lra.
Qed.

(** Every bin of the one frame of [spike a] is either empty or well above
    the thousandth part of [a]. *)
Lemma spike_bins_clear (a : R) :
  0 <= a ->
  Forall (fun m => m = 0 \/ a / 1024 <= m)
    (fft_mag (frame_at (map (fun v => v - np_mean (spike a)) (spike a))
                       (hanning N_FFT) N_FFT 0)).
Proof.
  intro Ha.
  destruct (spike_frame a) as (z1 & z3 & -> & Hz1 & Hl1 & Hz3 & Hl3).
  rewrite <- hann_symmetric.
  pose proof hann_middle_l as Hh. pose proof (hann_bounds 1023) as Hb.
  generalize dependent (hann 1023). intros h Hh Hb.
  unfold fft_mag.
  assert (Hlen : length (z1 ++ [a * h; - a * h] ++ z3) = 2048%nat).
  { rewrite !length_app, Hl1, Hl3. reflexivity. }
  rewrite Hlen at 1. change (2048 / 2 + 1)%nat with 1025%nat.
  apply Forall_map, Forall_forall. intros k Hk. apply in_seq in Hk.
  rewrite two_sample_mag by assumption. rewrite Hlen.
  destruct (Nat.eq_dec k 0) as [-> | Hk0].
  - left. change (INR 0) with 0.
    replace (2 * PI * 0 / INR 2048) with 0 by (unfold Rdiv; ring).
    rewrite cos_0.
    replace (a * h * (a * h) + - a * h * (- a * h)
             + 2 * (a * h) * (- a * h) * 1) with 0 by ring.
    apply sqrt_0.
  - right. pose proof (top_angle_cos k) as Hc.
    assert (Hk' : (1 <= k <= 1024)%nat) by lia. specialize (Hc Hk').
    generalize dependent (cos (2 * PI * INR k / INR 2048)). intros c Hc.
    assert (Ha0 : 0 <= a / 1024) by lra.
    rewrite <- (sqrt_square (a / 1024)) at 1 by exact Ha0.
    apply sqrt_le_1_alt.
    replace (a * h * (a * h) + - a * h * (- a * h)
             + 2 * (a * h) * (- a * h) * c)
      with (2 * (a * a) * (h * h) * (1 - c)) by ring.
    assert (H9 : 1 / 4 ^ 9 = 1 / 262144) by (cbn [pow]; f_equal; ring).
    rewrite H9 in Hc.
    assert (Haa : 0 <= a * a) by nra.
    assert (Hhh : 1 / 4 <= h * h) by nra.
    assert (H1 : a * a * (1 / 4) <= a * a * (h * h)) by nra.
    assert (H2 : 0 <= a * a * (h * h)) by nra.
    assert (H3 : a * a * (h * h) * (1 / 262144)
                 <= a * a * (h * h) * (1 - c)) by nra.
    nra.
Qed.

(** An instance of the scaling invariance in which bins are counted: the
    block [spike 1] has an empty bin 0 and every other bin far above the
    floor, its chromagram sums to one, and doubling the samples leaves it
    unchanged. *)
Lemma chroma_scaling_invariant_witness :
  (exists v, chroma_from_audio (spike 1) SR N_FFT = Ok v /\ np_sum v = 1)
  /\ chroma_from_audio (np_scale 2 (spike 1)) SR N_FFT
     = chroma_from_audio (spike 1) SR N_FFT.
Proof.
  split.
  { apply spike_loud. rewrite floor_value. lra. }
  apply chroma_scaling_invariant; [lra | ].
  intros starts Hs. rewrite spike_len in Hs.
  change (frame_starts 2049 N_FFT) with (Ok [0%Z]) in Hs.
  injection Hs as <-. unfold floor_stable, spectra. cbn [map].
  constructor; [ | constructor].
  eapply Forall_impl; [ | apply (spike_bins_clear 1); lra]. cbv beta.
  intros m Hm. rewrite floor_value. split; intro; lra.
Defined.

(** C10 (counterexample): the chromagram of a block that sums to one,
    smoothed with the all-zero chromagram of a block under the floor,
    sums to [0.7]: neither one nor all-zero. *)
Lemma smoothing_breaks_normalised :
  exists v1 v2,
    chroma_from_audio (spike 1) SR N_FFT = Ok v1
    /\ chroma_from_audio (spike (1 / 10 ^ 12)) SR N_FFT = Ok v2
    /\ normalised v1 /\ normalised v2
    /\ ~ normalised (smooth (Some v1) v2).
Proof.
  destruct (spike_loud 1) as (v1 & E1 & Hs1).
  { rewrite floor_value. lra. }
  destruct (spike_quiet (1 / 10 ^ 12)) as (v2 & E2 & Hl2 & Hz2).
  { apply Rlt_le, Rdiv_lt_0_compat; [lra | apply pow_lt; lra]. }
  { rewrite floor_value. simpl. lra. }
  destruct (chroma_from_audio_normalised (spike 1) SR N_FFT)
    as (v1' & E1' & Hl1 & Hn1); [unfold N_FFT; lia | discriminate | ].
  rewrite E1 in E1'. injection E1' as <-.
  destruct (chroma_from_audio_normalised (spike (1 / 10 ^ 12)) SR N_FFT)
    as (v2' & E2' & _ & Hn2); [unfold N_FFT; lia | discriminate | ].
  rewrite E2 in E2'. injection E2' as <-.
  exists v1, v2. repeat split; try assumption; try apply Hn1; try apply Hn2.
  intros [_ Hsum]. cbn [smooth] in Hsum.
  assert (Hb : np_sum (blend v1 v2) = 7 / 10).
  { rewrite blend_sum by congruence.
    rewrite Hs1, (all_zero_sum _ Hz2). unfold CHROMA_SMOOTH. lra. }
  destruct Hsum as [H | H]; [lra | ].
  apply all_zero_sum in H. lra.
Qed.

Lemma smooth_all_invariant (chromas : list (list R)) :
  Forall (fun v => length v = 12%nat /\ normalised v) chromas ->
  forall st,
    (forall s, st = Some s -> length s = 12%nat /\ sub_normalised s) ->
    forall s, smooth_all st chromas = Some s ->
              length s = 12%nat /\ sub_normalised s.
Proof.
  unfold smooth_all.
  induction 1 as [|v chromas [Hl Hn] _ IH]; intros st Hst s Hs; simpl in Hs.
  - now apply Hst.
  - apply (IH (Some (smooth st v))); [ | exact Hs].
    intros s' E. injection E as <-. destruct st as [p | ]; simpl.
    + destruct (Hst p eq_refl) as [Hlp Hp].
      split; [rewrite blend_length; congruence | ].
      apply blend_sub_normalised; [congruence | exact Hp | ].
      now apply normalised_sub.
    + split; [exact Hl | now apply normalised_sub].
Qed.

Lemma extract_all_normalised (blocks : list (list R)) (sr n_fft : Z) :
  (4 <= n_fft)%Z -> (sr <> 0)%Z ->
  exists chromas,
    extract_all blocks sr n_fft = Ok chromas
    /\ length chromas = length blocks
    /\ Forall (fun v => length v = 12%nat /\ normalised v) chromas.
Proof.
  intros Hn Hs. induction blocks as [|y blocks (vs & E & Hl & Hvs)]; simpl.
  - exists []. repeat split. constructor.
  - destruct (chroma_from_audio_normalised y sr n_fft Hn Hs)
      as (v & -> & Hlv & Hv).
    rewrite E. exists (v :: vs). cbn [bind]. split; [reflexivity | ].
    split; [simpl; congruence | ]. constructor; auto.
Qed.

(** C10 (amended): computing over exact arithmetic, every chromagram the
    extractor produces has no negative entry and sums to one or is
    all-zero; the smoothed chromagram carried across the cycles has no
    negative entry and a sum of at most one. *)
Theorem chromagram_invariants (blocks : list (list R)) (sr n_fft : Z) :
  (4 <= n_fft)%Z -> (sr <> 0)%Z ->
  exists chromas,
    extract_all blocks sr n_fft = Ok chromas
    /\ length chromas = length blocks
    /\ Forall normalised chromas
    /\ forall s, smooth_all None chromas = Some s ->
                 nonneg s /\ 0 <= np_sum s <= 1.
Proof.
  intros Hn Hs.
  destruct (extract_all_normalised blocks sr n_fft Hn Hs)
    as (chromas & E & Hl & Hc).
  exists chromas. split; [exact E | ]. split; [exact Hl | ]. split.
  - eapply Forall_impl; [ | exact Hc]. cbv beta. now intros v [_ H].
  - intros s Hsm.
    destruct (smooth_all_invariant chromas Hc None) with (s := s)
      as [_ [Hnn Hle]]; [discriminate | exact Hsm | ].
    split; [exact Hnn | ]. split; [now apply np_sum_nonneg | exact Hle].
Qed.

Lemma chromagram_invariants_witness :
  exists chromas,
    extract_all [spike 1; spike (1 / 10 ^ 12)] SR N_FFT = Ok chromas
    /\ length chromas = 2%nat
    /\ Forall normalised chromas
    /\ forall s, smooth_all None chromas = Some s ->
                 nonneg s /\ 0 <= np_sum s <= 1.
Proof.
  apply (chromagram_invariants [spike 1; spike (1 / 10 ^ 12)] SR N_FFT).
  - unfold N_FFT. lia.
  - unfold SR. lia.
Defined.

End ChromaFacts.

(** ** More on the ring buffer *)

Section RingBufferMore.
Import RingBuffer.
Context {A : Type} (zero : A).
Implicit Types (rb : t (A := A)) (x b : list A).

Ltac lens' :=
  repeat (progress
            rewrite ?length_app, ?length_firstn, ?length_skipn,
              ?repeat_length in * );
  lia.

(** A write that wraps at most once, whatever the length of the block. *)
Lemma push_wraps_once rb x :
  wf rb -> (0 < length x)%nat -> write_idx rb + Py.len x < 2 * size rb ->
  push rb x
  = Ok {| size := size rb;
          buf := pushed (buf rb) (Z.to_nat (write_idx rb)) x;
          write_idx := (write_idx rb + Py.len x) mod size rb;
          filled := true |}.
Proof.
  intros (Hsz & Hlen & Hw) Hx Hfit. unfold push, Py.len in *.
  destruct (Z.of_nat (length x) =? 0) eqn:E; [apply Z.eqb_eq in E; lia | ].
  clear E. unfold pushed.
  set (w := Z.to_nat (write_idx rb)). set (n := length x) in *.
  set (sz := length (buf rb)) in *.
  assert (Ew : write_idx rb = Z.of_nat w) by lia.
  assert (Es : size rb = Z.of_nat sz) by lia.
  rewrite Ew, Es in *. rewrite mod_ok by lia.
  destruct (Z.of_nat w + Z.of_nat n <=? Z.of_nat sz) eqn:E.
  - apply Z.leb_le in E.
    replace (w + n <=? sz)%nat with true by (symmetry; apply Nat.leb_le; lia).
    rewrite <- Nat2Z.inj_add, assign_inside by (fold sz; lia). reflexivity.
  - apply Z.leb_gt in E.
    replace (w + n <=? sz)%nat with false by (symmetry; apply Nat.leb_gt; lia).
    rewrite <- Nat2Z.inj_sub by lia.
    rewrite slice_to_inside, slice_from_inside by (fold n; lia).
    rewrite assign_inside by (fold sz; rewrite ?length_firstn; fold n; lia).
    simpl bind.
    replace ((Z.of_nat w + Z.of_nat n) mod Z.of_nat sz)
      with (Z.of_nat (w + n - sz)).
    2:{ apply Z.mod_unique with (q := 1); lia. }
    change 0 with (Z.of_nat 0).
    rewrite assign_inside.
    + simpl. rewrite (skipn_all2 (buf rb)) by (fold sz; lia).
      now rewrite !app_nil_r.
    + rewrite !length_app, length_firstn, length_firstn, length_skipn.
      fold sz n. lia.
    + rewrite length_skipn. fold n. lia.
Qed.

(** A write that would wrap twice. *)
Lemma push_wraps_twice rb x :
  wf rb -> 2 * size rb <= write_idx rb + Py.len x ->
  ~ (size rb = 1 /\ Py.len x = 2) ->
  push rb x = Raise ValueError.
Proof.
  intros (Hsz & Hlen & Hw) Hbig Hone. unfold push, Py.len in *.
  destruct (Z.of_nat (length x) =? 0) eqn:E; [apply Z.eqb_eq in E; lia | ].
  clear E.
  set (w := Z.to_nat (write_idx rb)). set (n := length x) in *.
  set (sz := length (buf rb)) in *.
  assert (Ew : write_idx rb = Z.of_nat w) by lia.
  assert (Es : size rb = Z.of_nat sz) by lia.
  rewrite Ew, Es in *. rewrite mod_ok by lia.
  destruct (Z.of_nat w + Z.of_nat n <=? Z.of_nat sz) eqn:E;
    [apply Z.leb_le in E; lia | apply Z.leb_gt in E].
  rewrite <- Nat2Z.inj_sub by lia.
  rewrite slice_to_inside, slice_from_inside by (fold n; lia).
  rewrite assign_inside by (fold sz; rewrite ?length_firstn; fold n; lia).
  cbn [bind].
  pose proof (Z.mod_pos_bound (Z.of_nat w + Z.of_nat n) (Z.of_nat sz))
    as Hk.
  set (k := (Z.of_nat w + Z.of_nat n) mod Z.of_nat sz) in *.
  unfold Py.assign, Py.len.
  set (b1 := firstn w (buf rb) ++ firstn (sz - w) x ++ skipn sz (buf rb)).
  assert (Hb1 : length b1 = sz) by (unfold b1; lens').
  rewrite Hb1, !bound_inside by lia.
  rewrite Z.sub_0_r, length_skipn. fold n.
  destruct (Nat.eqb_spec (n - (sz - w)) (Z.to_nat k)) as [Heq | Hne];
    [lia | ].
  destruct (skipn (sz - w) x) as [|v [|v' rest]] eqn:Es2; try reflexivity.
  exfalso. apply Hone.
  assert (Hl : length (skipn (sz - w) x) = 1%nat) by now rewrite Es2.
  rewrite length_skipn in Hl. fold n in Hl. lia.
Qed.

(** [push] returns exactly when the write wraps at most once, but for a
    block of two samples on a buffer of one; it raises [ValueError]
    otherwise. *)
Theorem push_returns_iff rb x :
  wf rb -> 0 < Py.len x ->
  (returns (push rb x)
   <-> write_idx rb + Py.len x < 2 * size rb
       \/ (size rb = 1 /\ Py.len x = 2))
  /\ (~ returns (push rb x) -> push rb x = Raise ValueError).
Proof.
  intros Hwf Hx.
  assert (Hcases :
    (write_idx rb + Py.len x < 2 * size rb
       \/ (size rb = 1 /\ Py.len x = 2) -> returns (push rb x))
    /\ (~ (write_idx rb + Py.len x < 2 * size rb
           \/ (size rb = 1 /\ Py.len x = 2))
        -> push rb x = Raise ValueError)).
  { split.
    - intros [Hfit | [H1 H2]].
      + rewrite push_wraps_once by (auto; unfold Py.len in Hx; lia).
        eexists. reflexivity.
      + destruct Hwf as (Hsz & Hlen & Hw). unfold Py.len in *.
        destruct x as [|a [|c [|d x]]]; simpl in H2; try lia.
        destruct (buf rb) as [|e [|e' bs]] eqn:Eb; simpl in Hlen; try lia.
        assert (Ew : write_idx rb = 0) by lia.
        unfold push. rewrite Eb, H1, Ew. eexists. reflexivity.
    - intro Hn. apply push_wraps_twice; [exact Hwf | lia | tauto]. }
  destruct Hcases as [Hret Hraise]. split.
  - split; [ | exact Hret].
    intros [rb' E].
    destruct (Z_lt_dec (write_idx rb + Py.len x) (2 * size rb)); [tauto | ].
    destruct (Z.eq_dec (size rb) 1) as [H1 | H1];
      destruct (Z.eq_dec (Py.len x) 2) as [H2 | H2]; try tauto;
      rewrite Hraise in E by tauto; discriminate.
  - intro Hn. apply Hraise. intro H. apply Hn, Hret, H.
Qed.

(** After pushes of blocks that fit the capacity the write cursor is the
    old one plus the number of samples pushed, modulo the capacity. *)
Theorem push_all_cursor (blocks : list (list A)) :
  forall rb,
    wf rb -> Forall (fun x => Py.len x <= size rb) blocks ->
    exists rb',
      push_all rb blocks = Ok rb'
      /\ wf rb' /\ size rb' = size rb
      /\ write_idx rb'
         = (write_idx rb + Py.len (concat blocks)) mod size rb
      /\ (concat blocks <> [] -> filled rb' = true).
Proof.
  induction blocks as [|x blocks IH]; intros rb Hwf Hfit; simpl.
  - exists rb. split; [reflexivity | ]. split; [exact Hwf | ].
    split; [reflexivity | ]. destruct Hwf as (Hsz & Hlen & Hw). split.
    + unfold Py.len. simpl. rewrite Z.add_0_r, Z.mod_small; lia.
    + intro H. now elim H.
  - inversion Hfit as [|? ? Hx Hrest]; subst.
    destruct (Nat.eq_dec (length x) 0) as [En | En].
    + destruct x; [ | discriminate]. unfold push. simpl.
      apply IH; auto.
    + rewrite push_fits by (auto; lia). cbn [bind].
      set (rb1 := {| size := size rb; buf := _; write_idx := _;
                     filled := true |}).
      destruct (push_wf rb x Hwf Hx) as (rb1' & E1 & Hwf1 & _).
      rewrite push_fits in E1 by (auto; lia). injection E1 as <-.
      fold rb1 in Hwf1.
      destruct (IH rb1 Hwf1 Hrest) as (rb' & E & Hwf' & Hs & Hc & Hf).
      exists rb'. split; [exact E | ]. split; [exact Hwf' | ].
      split; [exact Hs | ]. split.
      * rewrite Hc. unfold rb1. cbn [write_idx size].
        unfold Py.len. rewrite length_app, Nat2Z.inj_add.
        rewrite Z.add_mod_idemp_l by (destruct Hwf; lia).
        f_equal. lia.
      * intros _. destruct (concat blocks) eqn:Ec.
        -- destruct blocks as [|y ys].
           ++ simpl in E. now injection E as <-.
           ++ clear Hf. revert E.
              assert (Hall : Forall (fun y => y = []) (y :: ys)).
              { clear -Ec. induction (y :: ys) as [|z zs IHz];
                  constructor; simpl in Ec;
                  apply app_eq_nil in Ec; tauto. }
              clear -Hall. generalize (y :: ys) Hall. intros l Hl.
              induction Hl as [|z zs -> _ IHl]; simpl;
                [intro E; now injection E as <- | exact IHl].
        -- apply Hf. discriminate.
Qed.

(** On a buffer that has been written, a read of [n] samples, with
    [0 < n <= size], is the end of the array read from the write
    cursor. *)
Lemma read_last_rotated rb (n : nat) :
  wf rb -> filled rb = true -> (0 < n)%nat -> Z.of_nat n <= size rb ->
  read_last rb (Z.of_nat n)
  = Ok (last_n n (rotated (buf rb) (Z.to_nat (write_idx rb)))).
Proof.
  intros (Hsz & Hlen & Hw) Hf Hn Hle. unfold Py.len in *.
  unfold read_last. rewrite Hf, Z.min_l by lia. cbn [negb andb].
  rewrite mod_ok by lia.
  set (w := Z.to_nat (write_idx rb)). set (sz := length (buf rb)) in *.
  assert (Ew : write_idx rb = Z.of_nat w) by lia.
  rewrite Ew, <- Hlen. unfold last_n, rotated.
  assert (Hr : length (skipn w (buf rb) ++ firstn w (buf rb)) = sz)
    by (fold sz; lens').
  rewrite Hr.
  destruct (le_lt_dec n w) as [Hnw | Hnw].
  - rewrite Z.mod_small by lia. cbn [bind].
    destruct (_ <? _) eqn:E; [clear E | apply Z.ltb_ge in E; lia].
    rewrite <- Nat2Z.inj_sub, slice_inside by (fold sz; lia).
    rewrite skipn_app, length_skipn, (skipn_all2 (skipn w (buf rb)))
      by (rewrite length_skipn; fold sz; lia).
    fold sz. simpl. rewrite skipn_firstn_comm.
    f_equal. f_equal; [lia | f_equal; lia].
  - replace ((Z.of_nat w - Z.of_nat n) mod Z.of_nat sz)
      with (Z.of_nat (sz + w - n)).
    2:{ apply Z.mod_unique with (q := -1); lia. }
    cbn [bind].
    destruct (_ <? _) eqn:E; [apply Z.ltb_lt in E; lia | clear E].
    rewrite slice_from_inside, slice_to_inside by (fold sz; lia).
    rewrite skipn_app, length_skipn, skipn_skipn. fold sz.
    replace (sz - n - (sz - w))%nat with 0%nat by lia.
    simpl. do 3 f_equal. lia.
Qed.

(** The length of what [read_last] returns on a written buffer. *)
Theorem read_last_length rb (n : Z) :
  wf rb -> filled rb = true -> 0 < n ->
  exists l, read_last rb n = Ok l /\ Py.len l = Z.min n (size rb).
Proof.
  intros Hwf Hf Hn. pose proof Hwf as (Hsz & Hlen & Hw).
  assert (Hclamp : read_last rb n = read_last rb (Z.min n (size rb))).
  { unfold read_last. cbv zeta. now rewrite <- Z.min_assoc, Z.min_id. }
  rewrite Hclamp.
  replace (Z.min n (size rb)) with (Z.of_nat (Z.to_nat (Z.min n (size rb))))
    by lia.
  rewrite read_last_rotated by (auto; lia).
  eexists. split; [reflexivity | ].
  unfold Py.len, last_n, rotated in *. lens'.
Qed.

(** [read_last(0)] does not return an empty sequence: it returns the
    whole array, read from the write cursor round to it. *)
Theorem read_last_zero rb :
  wf rb ->
  read_last rb 0 = Ok (rotated (buf rb) (Z.to_nat (write_idx rb)))
  /\ Py.len (rotated (buf rb) (Z.to_nat (write_idx rb))) = size rb.
Proof.
  intros (Hsz & Hlen & Hw). unfold Py.len in *. split.
  - unfold read_last. rewrite Z.min_l by lia.
    destruct (write_idx rb <? 0) eqn:E; [apply Z.ltb_lt in E; lia | ].
    rewrite andb_false_r, Z.sub_0_r, mod_ok, Z.mod_small by lia.
    cbn [bind]. rewrite Z.ltb_irrefl.
    replace (write_idx rb) with (Z.of_nat (Z.to_nat (write_idx rb))) by lia.
    rewrite slice_from_inside, slice_to_inside by lia.
    now rewrite Nat2Z.id.
  - unfold rotated. lens'.
Qed.

(** After pushes of blocks that fit the capacity, from any state, a read
    of no more samples than were pushed returns the most recent ones,
    oldest first. *)
Theorem read_last_most_recent rb (blocks : list (list A)) (n : Z) :
  wf rb ->
  Forall (fun x => Py.len x <= size rb) blocks ->
  0 < n <= size rb -> n <= Py.len (concat blocks) ->
  exists rb',
    push_all rb blocks = Ok rb'
    /\ read_last rb' n = Ok (last_n (Z.to_nat n) (concat blocks)).
Proof.
  intros Hwf Hfit Hn Hfull.
  destruct (push_all_tracks blocks rb _ [] (tracks_start rb Hwf) Hfit)
    as (rb' & Hall & (Hwf' & Hp & Hrot & Hfill) & Hs).
  exists rb'. split; [exact Hall | ].
  assert (Hne : concat blocks <> []).
  { intro E. rewrite E in Hfull. unfold Py.len in Hfull. simpl in Hfull. lia. }
  replace n with (Z.of_nat (Z.to_nat n)) at 1 by lia.
  rewrite read_last_rotated by (auto; lia).
  rewrite Hrot. simpl app. f_equal. unfold last_n, Py.len in *.
  rewrite skipn_skipn, length_skipn, !length_app.
  rewrite skipn_app, skipn_all2 by lia. simpl. f_equal. lia.
Qed.

(** A fresh buffer that received fewer than [n] samples answers
    [read_last(n)] with [n] samples: the zeros the array was created
    with, then the samples pushed. *)
Theorem read_last_fresh_zero_padded (sz n : Z) (blocks : list (list A)) :
  Forall (fun x => Py.len x <= sz) blocks ->
  0 < Py.len (concat blocks) < n -> n <= sz ->
  exists rb0 rb,
    init zero sz = Ok rb0 /\ push_all rb0 blocks = Ok rb
    /\ read_last rb n
       = Ok (repeat zero (Z.to_nat (n - Py.len (concat blocks)))
               ++ concat blocks).
Proof.
  intros Hfit Hlen Hn. unfold init.
  destruct (sz <? 0) eqn:E; [apply Z.ltb_lt in E; lia | clear E].
  set (rb0 := {| size := sz; buf := repeat zero (Z.to_nat sz);
                 write_idx := 0; filled := false |}).
  assert (Hwf : wf rb0).
  { unfold wf, Py.len. simpl. rewrite repeat_length. lia. }
  destruct (push_all_tracks blocks rb0 _ [] (tracks_start rb0 Hwf) Hfit)
    as (rb & Hall & (Hwf' & Hp & Hrot & Hfill) & Hs).
  exists rb0, rb. split; [reflexivity | ]. split; [exact Hall | ].
  assert (Hne : concat blocks <> []).
  { intro E. rewrite E in Hlen. unfold Py.len in Hlen. simpl in Hlen. lia. }
  replace n with (Z.of_nat (Z.to_nat n)) at 1 by lia.
  rewrite read_last_rotated by (auto; change (size rb0) with sz in Hs; lia).
  rewrite Hrot. simpl app. change (write_idx rb0) with 0.
  change (buf rb0) with (repeat zero (Z.to_nat sz)).
  unfold rotated. simpl firstn. rewrite skipn_O, app_nil_r.
  f_equal. unfold last_n, Py.len in *. change (size rb0) with sz in *.
  rewrite Hs.
  rewrite skipn_skipn, length_skipn, !length_app, repeat_length.
  rewrite skipn_app, repeat_length. f_equal.
  - rewrite skipn_repeat. f_equal. lia.
  - match goal with
    | |- skipn ?k _ = _ => replace k with 0%nat by lia
    end.
    reflexivity.
Qed.

(** A fresh buffer, before any push: a read of [n > 0] samples is
    empty. *)
Theorem read_last_fresh_empty (sz n : Z) :
  0 < sz -> 0 < n ->
  exists rb0, init zero sz = Ok rb0 /\ read_last rb0 n = Ok [].
Proof.
  intros Hsz Hn. unfold init.
  destruct (sz <? 0) eqn:E; [apply Z.ltb_lt in E; lia | clear E].
  eexists. split; [reflexivity | ]. unfold read_last.
  cbn [filled size write_idx buf negb andb].
  destruct (0 <? Z.min n sz) eqn:E; [ | apply Z.ltb_ge in E; lia].
  change 0 with (Z.of_nat 0) at 1.
  now rewrite slice_to_inside by lia.
Qed.

(** A buffer of capacity zero can be created, but every read and every
    push of a non-empty block raises [ZeroDivisionError]. *)
Theorem zero_capacity_raises (n : Z) x :
  x <> [] ->
  exists rb0,
    init zero 0 = Ok rb0
    /\ read_last rb0 n = Raise ZeroDivisionError
    /\ push rb0 x = Raise ZeroDivisionError.
Proof.
  intro Hx. eexists. split; [reflexivity | ]. split.
  - unfold read_last. cbn [filled size write_idx buf negb andb].
    destruct (0 <? Z.min n 0) eqn:E; [apply Z.ltb_lt in E; lia | ].
    reflexivity.
  - destruct x as [|a x]; [now elim Hx | ].
    unfold push, Py.len. cbn [filled size write_idx buf length].
    destruct (Z.of_nat (S (length x)) =? 0) eqn:E;
      [apply Z.eqb_eq in E; lia | ].
    destruct (0 + Z.of_nat (S (length x)) <=? 0) eqn:E2;
      [apply Z.leb_le in E2; lia | ].
    reflexivity.
Qed.

End RingBufferMore.

Lemma push_returns_iff_witness :
  let rb := {| RingBuffer.size := 4; RingBuffer.buf := [0; 0; 5; 6];
               RingBuffer.write_idx := 3; RingBuffer.filled := true |} in
  (returns (RingBuffer.push rb [1; 2; 3; 4; 5])
   <-> 3 + 5 < 2 * 4 \/ (4 = 1 /\ 5 = 2))
  /\ (~ returns (RingBuffer.push rb [1; 2; 3; 4; 5])
      -> RingBuffer.push rb [1; 2; 3; 4; 5] = Raise ValueError).
Proof.
  apply (push_returns_iff
           {| RingBuffer.size := 4; RingBuffer.buf := [0; 0; 5; 6];
              RingBuffer.write_idx := 3; RingBuffer.filled := true |}
           [1; 2; 3; 4; 5]).
  - unfold RingBuffer.wf, Py.len. simpl. lia.
  - unfold Py.len. simpl. lia.
Defined.

(** ** More on the chord matcher *)

Section MatcherMore.
Import Matcher MatcherSpec.
Open Scope Q_scope.

Local Ltac lra := Lqa.lra.
Local Ltac nra := Lqa.nra.

Lemma Qltb_proper (a a' b b' : Q) :
  a == a' -> b == b' -> Qltb a b = Qltb a' b'.
Proof.
  intros Ha Hb. destruct (Qltb a b) eqn:E, (Qltb a' b') eqn:E'; auto.
  - apply Qltb_lt in E. apply Qltb_ge in E'. lra.
  - apply Qltb_ge in E. apply Qltb_lt in E'. lra.
Qed.

Lemma weights_length (template : list Q) :
  length (weights template) = length template.
Proof.
  unfold weights, np_div, np_maximum0.
  destruct (Qltb 0 _); now rewrite ?length_map.
Qed.

Lemma best_step_score (c : list Q) (b : string) (s : Q)
  (name : string) (template : list Q) :
  length c = length template ->
  best_step c (b, s) (name, template)
  = Ok (if Qltb s (score_of c template) then (name, score_of c template)
        else (b, s)).
Proof.
  intro H. unfold best_step. fold (weights template). unfold np_dot.
  rewrite weights_length, H, Nat.eqb_refl. cbn [bind].
  fold (score_of c template). now destruct (Qltb s _).
Qed.

(** The loop over the templates keeps the first template whose score
    exceeds the initial one and is not exceeded later. *)
Lemma best_loop_first_maximum (c : list Q)
  (templates : list (string * list Q)) :
  Forall (fun e => length (snd e) = length c) templates ->
  forall (b : string) (s0 : Q),
  exists n s,
    best_loop c (b, s0) templates = Ok (n, s)
    /\ ((n = b /\ s = s0
         /\ Forall (fun e => score_of c (snd e) <= s0) templates)
        \/ exists pre t post,
             templates = pre ++ (n, t) :: post
             /\ s = score_of c t /\ s0 < s
             /\ Forall (fun e => score_of c (snd e) < s) pre
             /\ Forall (fun e => score_of c (snd e) <= s) post).
Proof.
  induction 1 as [|[name t] ts Hl _ IH]; intros b s0; cbn [best_loop].
  - exists b, s0. split; [reflexivity | left; auto].
  - cbn [snd] in Hl. rewrite best_step_score by congruence. cbn [bind].
    destruct (Qltb s0 (score_of c t)) eqn:E.
    + apply Qltb_lt in E.
      destruct (IH name (score_of c t)) as (n & s & Hrun & Hcase).
      exists n, s. split; [exact Hrun | right].
      destruct Hcase as [(-> & -> & Hall)
                        | (pre & t' & post & -> & -> & Hlt & Hpre & Hpost)].
      * exists [], t, ts.
        split; [reflexivity | ]. split; [reflexivity | ].
        split; [exact E | ]. split; [constructor | exact Hall].
      * exists ((name, t) :: pre), t', post.
        split; [reflexivity | ]. split; [reflexivity | ].
        split; [lra | ]. split; [ | exact Hpost].
        constructor; [exact Hlt | exact Hpre].
    + apply Qltb_ge in E.
      destruct (IH b s0) as (n & s & Hrun & Hcase).
      exists n, s. split; [exact Hrun | ].
      destruct Hcase as [(-> & -> & Hall)
                        | (pre & t' & post & -> & -> & Hlt & Hpre & Hpost)].
      * left. split; [reflexivity | ]. split; [reflexivity | ].
        constructor; [exact E | exact Hall].
      * right. exists ((name, t) :: pre), t', post.
        split; [reflexivity | ]. split; [reflexivity | ].
        split; [exact Hlt | ]. split; [ | exact Hpost].
        constructor; [cbn [snd]; lra | exact Hpre].
Qed.

Lemma templates_length :
  Forall (fun e => length (snd e) = 12%nat) CHORD_TEMPLATES.
Proof.
  pose proof templates_third as H. rewrite forallb_forall in H.
  apply Forall_forall. intros e He. specialize (H e He).
  unfold third_at_most in H. apply andb_true_iff in H.
  now apply Nat.eqb_eq.
Qed.

Lemma best_chord_maximum (chroma : list Q) :
  length chroma = 12%nat ->
  exists name confidence,
    best_chord chroma = Ok (name, confidence)
    /\ Forall (fun e => score_of (scored chroma) (snd e) <= confidence)
              CHORD_TEMPLATES
    /\ ((name = SENTINEL /\ confidence = 0)
        \/ exists pre t post,
             CHORD_TEMPLATES = pre ++ (name, t) :: post
             /\ confidence = score_of (scored chroma) t
             /\ 0 < confidence
             /\ Forall (fun e => score_of (scored chroma) (snd e)
                                 < confidence) pre).
Proof.
  intro Hlen. unfold best_chord. fold (scored chroma).
  destruct (best_loop_first_maximum (scored chroma) CHORD_TEMPLATES)
    with (b := SENTINEL) (s0 := 0) as (n & s & Hrun & Hcase).
  { eapply Forall_impl; [ | apply templates_length].
    cbv beta. intros e He. now rewrite scored_length, Hlen. }
  exists n, s. split; [exact Hrun | ].
  destruct Hcase as [(-> & -> & Hall)
                    | (pre & t & post & E & -> & Hlt & Hpre & Hpost)].
  - split; [exact Hall | left; auto].
  - split.
    + rewrite E. apply Forall_app. split.
      * eapply Forall_impl; [ | exact Hpre]. cbv beta. intros e He. lra.
      * constructor; [cbn [snd]; lra | exact Hpost].
    + right. exists pre, t, post. auto.
Qed.

Lemma dot_all_zero (a b : list Q) :
  Forall (fun x => x == 0) a ->
  np_sum (map (fun p => fst p * snd p) (combine a b)) == 0.
Proof.
  intro H. revert b. induction H as [|x a Hx _ IH]; intros [|w b]; simpl;
    try reflexivity.
  rewrite qsum_cons, IH. simpl. rewrite Hx. lra.
Qed.

Lemma qsum_all_zero (a : list Q) :
  Forall (fun x => x == 0) a -> np_sum a == 0.
Proof.
  induction 1 as [|x a Hx _ IH]; [reflexivity | ].
  rewrite qsum_cons, IH, Hx. lra.
Qed.

Lemma scored_nonpositive (chroma : list Q) :
  Forall (fun x => x <= 0) chroma ->
  Forall (fun x => x == 0) (scored chroma).
Proof.
  intro H.
  assert (Hc : Forall (fun x => x == 0) (np_maximum0 chroma)).
  { unfold np_maximum0. induction H as [|x l Hx _ IH]; simpl;
      constructor; auto.
    destruct (Qltb x 0) eqn:E; [reflexivity | apply Qltb_ge in E; lra]. }
  unfold scored. destruct (Qltb 0 _) eqn:E; [ | exact Hc].
  apply Qltb_lt in E. rewrite (qsum_all_zero _ Hc) in E. lra.
Qed.

(** A chroma without a positive entry (silence in particular) gives the
    sentinel with a confidence of zero. *)
Theorem best_chord_no_energy (chroma : list Q) :
  length chroma = 12%nat -> Forall (fun x => x <= 0) chroma ->
  best_chord chroma = Ok (SENTINEL, 0).
Proof.
  intros Hlen Hneg.
  destruct (best_chord_maximum chroma Hlen)
    as (name & conf & -> & _ & [[-> ->] | (pre & t & post & _ & E & Hpos & _)]).
  - reflexivity.
  - exfalso. unfold score_of in E.
    rewrite E, (dot_all_zero _ _ (scored_nonpositive chroma Hneg)) in Hpos.
    lra.
Qed.

(** A chroma that has not twelve entries makes [np.dot] raise on the
    first template. *)
Theorem best_chord_wrong_length (chroma : list Q) :
  length chroma <> 12%nat -> best_chord chroma = Raise ValueError.
Proof.
  intro Hlen. unfold best_chord. fold (scored chroma).
  let l := eval vm_compute in CHORD_TEMPLATES in
  change CHORD_TEMPLATES with l.
  cbn [best_loop]. unfold best_step at 1. unfold np_dot.
  rewrite scored_length.
  match goal with
  | |- context [Nat.eqb (length chroma) (length ?w)] =>
      change (length w) with 12%nat
  end.
  apply Nat.eqb_neq in Hlen. now rewrite Hlen.
Qed.

Lemma sentinel_not_label : ~ In SENTINEL (map fst CHORD_TEMPLATES).
Proof.
  let l := eval vm_compute in CHORD_TEMPLATES in
  change CHORD_TEMPLATES with l.
  cbn [map fst In]. intro H.
  repeat (destruct H as [H | H]; [discriminate H | ]). exact H.
Qed.

(** The table the module-level loop builds: for each root in turn its
    major and its minor triad, under 24 distinct labels, none of them
    the sentinel; each vector has twelve entries, three of them one and
    the others zero. *)
Theorem chord_templates_table :
  CHORD_TEMPLATES = expected_templates
  /\ length CHORD_TEMPLATES = 24%nat
  /\ NoDup (map fst CHORD_TEMPLATES)
  /\ ~ In SENTINEL (map fst CHORD_TEMPLATES)
  /\ Forall (fun e => length (snd e) = 12%nat
                      /\ Forall (fun x => x = 0 \/ x = 1) (snd e)
                      /\ np_sum (snd e) == 3)
            CHORD_TEMPLATES.
Proof.
  split; [vm_compute; reflexivity | ].
  split; [reflexivity | ].
  split; [ | split; [exact sentinel_not_label | ]];
    let l := eval vm_compute in CHORD_TEMPLATES in
    change CHORD_TEMPLATES with l; cbn [map fst snd].
  - repeat (constructor;
            [cbn [In]; intro H;
             repeat (destruct H as [H | H]; [discriminate H | ]);
             exact H | ]).
    constructor.
  - repeat (constructor;
            [split; [reflexivity
                    | split; [repeat (constructor; [auto | ]); constructor
                             | vm_compute; reflexivity]] | ]).
    constructor.
Qed.

(** *** Scaling the chroma *)

Lemma qsum_proper (a a' : list Q) :
  Forall2 Qeq a a' -> np_sum a == np_sum a'.
Proof.
  induction 1 as [|x x' a a' Hx _ IH]; [reflexivity | ].
  now rewrite !qsum_cons, IH, Hx.
Qed.

Lemma dot_proper (a a' w : list Q) :
  Forall2 Qeq a a' ->
  np_sum (map (fun p => fst p * snd p) (combine a w))
  == np_sum (map (fun p => fst p * snd p) (combine a' w)).
Proof.
  intro H. revert w. induction H as [|x x' a a' Hx _ IH]; intros [|v w];
    simpl; try reflexivity.
  now rewrite !qsum_cons, IH, Hx.
Qed.

Lemma best_loop_proper (c c' : list Q) (templates : list (string * list Q)) :
  Forall2 Qeq c c' ->
  Forall (fun e => length (snd e) = length c) templates ->
  forall (b : string) (s s' : Q),
    s == s' ->
    exists n r r',
      best_loop c (b, s) templates = Ok (n, r)
      /\ best_loop c' (b, s') templates = Ok (n, r')
      /\ r == r'.
Proof.
  intros Hc Hall.
  assert (Hlen : length c = length c') by (eapply Forall2_length; eauto).
  induction Hall as [|[name t] ts Hl _ IH]; intros b s s' Hs;
    cbn [best_loop].
  - exists b, s, s'. auto.
  - cbn [snd] in Hl. rewrite !best_step_score by congruence. cbn [bind].
    assert (Hsc : score_of c t == score_of c' t)
      by (apply dot_proper, Hc).
    rewrite (Qltb_proper s s' _ _ Hs Hsc).
    destruct (Qltb s' (score_of c' t)); apply IH; auto.
Qed.

Lemma qmaximum0_scale (k : Q) (chroma : list Q) :
  0 < k ->
  Forall2 Qeq (np_maximum0 (map (Qmult k) chroma))
              (map (Qmult k) (np_maximum0 chroma)).
Proof.
  intro Hk. unfold np_maximum0.
  induction chroma as [|x l IH]; simpl; constructor; auto.
  destruct (Qltb (k * x) 0) eqn:E, (Qltb x 0) eqn:E'; try lra.
  - apply Qltb_lt in E. apply Qltb_ge in E'. nra.
  - apply Qltb_ge in E. apply Qltb_lt in E'. nra.
Qed.

Lemma qsum_scale (k : Q) (v : list Q) :
  np_sum (map (Qmult k) v) == k * np_sum v.
Proof.
  induction v as [|x v IH]; simpl.
  - unfold np_sum. simpl. lra.
  - rewrite !qsum_cons, IH. lra.
Qed.

Lemma div_scale_pointwise (k d d' : Q) (l l' : list Q) :
  0 < k -> 0 < d -> d' == k * d ->
  Forall2 Qeq l' (map (Qmult k) l) ->
  Forall2 Qeq (map (fun x => x / d') l') (map (fun x => x / d) l).
Proof.
  intros Hk Hd Hd'. revert l'.
  induction l as [|x l IH]; intros l' H; inversion H; subst; simpl;
    constructor; auto.
  match goal with E : _ == k * x |- _ => rewrite E end.
  rewrite Hd'. field. split; lra.
Qed.

Lemma zero_scale_pointwise (k : Q) (l l' : list Q) :
  Forall (fun x => x == 0) l ->
  Forall2 Qeq l' (map (Qmult k) l) -> Forall2 Qeq l' l.
Proof.
  intro Hz. revert l'.
  induction Hz as [|x l Hx _ IH]; intros l' H; inversion H; subst;
    constructor; auto.
  match goal with E : _ == k * x |- _ => rewrite E end.
  rewrite Hx. lra.
Qed.

Lemma nonneg_sum_zero_all (l : list Q) :
  Forall (fun x => 0 <= x) l -> np_sum l == 0 ->
  Forall (fun x => x == 0) l.
Proof.
  induction 1 as [|x l Hx Hl IH]; intro Hz; constructor;
    rewrite qsum_cons in Hz; pose proof (qsum_nonneg l Hl).
  - lra.
  - apply IH. lra.
Qed.

Lemma scored_scale (k : Q) (chroma : list Q) :
  0 < k -> Forall2 Qeq (scored (map (Qmult k) chroma)) (scored chroma).
Proof.
  intro Hk. unfold scored.
  pose proof (qmaximum0_scale k chroma Hk) as Hm.
  pose proof (qsum_proper _ _ Hm) as Hs. rewrite qsum_scale in Hs.
  pose proof (qmaximum0_nonneg chroma) as Hp.
  pose proof (qsum_nonneg _ Hp) as Hnn.
  assert (Hb : Qltb 0 (np_sum (np_maximum0 (map (Qmult k) chroma)))
               = Qltb 0 (np_sum (np_maximum0 chroma))).
  { destruct (Qltb 0 (np_sum (np_maximum0 (map (Qmult k) chroma)))) eqn:E,
             (Qltb 0 (np_sum (np_maximum0 chroma))) eqn:E'; auto.
    - apply Qltb_lt in E. apply Qltb_ge in E'. nra.
    - apply Qltb_ge in E. apply Qltb_lt in E'. nra. }
  rewrite Hb. destruct (Qltb 0 (np_sum (np_maximum0 chroma))) eqn:E.
  - apply Qltb_lt in E. unfold np_div.
    now apply (div_scale_pointwise k).
  - apply Qltb_ge in E. apply (zero_scale_pointwise k); [ | exact Hm].
    apply nonneg_sum_zero_all; [exact Hp | lra].
Qed.

(** In exact arithmetic, multiplying every entry of the chroma by a
    positive constant changes neither the label nor the value of the
    confidence. *)
Theorem best_chord_scale_invariant (k : Q) (chroma : list Q) :
  0 < k -> length chroma = 12%nat ->
  exists name confidence confidence',
    best_chord (map (Qmult k) chroma) = Ok (name, confidence)
    /\ best_chord chroma = Ok (name, confidence')
    /\ confidence == confidence'.
Proof.
  intros Hk Hlen. unfold best_chord.
  fold (scored chroma). fold (scored (map (Qmult k) chroma)).
  apply best_loop_proper; [now apply scored_scale | | reflexivity].
  eapply Forall_impl; [ | apply templates_length].
  cbv beta. intros e He. now rewrite scored_length, length_map, Hlen.
Qed.

(** *** A chroma with energy *)

Lemma dot_ge_term (a w : list Q) (i : nat) :
  Forall (fun x => 0 <= x) a -> Forall (fun x => 0 <= x) w ->
  (i < length a)%nat -> (i < length w)%nat ->
  nth i a 0 * nth i w 0
  <= np_sum (map (fun p => fst p * snd p) (combine a w)).
Proof.
  intros Ha. revert w i.
  induction Ha as [|x a Hx Ha IH]; intros w i Hw Hi Hj; simpl in Hi;
    [lia | ].
  destruct Hw as [|v w Hv Hw]; simpl in Hj; [lia | ].
  cbn [combine map]. rewrite qsum_cons. cbn [fst snd].
  assert (Hrest : 0 <= np_sum (map (fun p => fst p * snd p) (combine a w))).
  { clear -Ha Hw. revert w Hw.
    induction Ha as [|y a Hy _ IH]; intros w Hw; [unfold np_sum; simpl; lra | ].
    destruct Hw as [|v w Hv Hw]; [unfold np_sum; simpl; lra | ].
    cbn [combine map]. rewrite qsum_cons. cbn [fst snd].
    specialize (IH w Hw). nra. }
  destruct i as [|i]; cbn [nth].
  - lra.
  - specialize (IH w i Hw ltac:(lia) ltac:(lia)). nra.
Qed.

Lemma weights_nonneg (template : list Q) :
  Forall (fun x => 0 <= x) (weights template).
Proof.
  unfold weights. destruct (Qltb 0 _) eqn:E.
  - apply qdiv_nonneg; [now apply Qltb_lt | apply qmaximum0_nonneg].
  - apply qmaximum0_nonneg.
Qed.

Lemma every_pitch_class_covered :
  forallb (fun i =>
             existsb (fun e => Qltb 0 (nth i (weights (snd e)) 0))
                     CHORD_TEMPLATES)
          (seq 0 12) = true.
Proof. vm_compute. reflexivity. Qed.

Lemma qsum_ge_term (a : list Q) (i : nat) :
  Forall (fun x => 0 <= x) a -> (i < length a)%nat ->
  nth i a 0 <= np_sum a.
Proof.
  intro Ha. revert i. induction Ha as [|x a Hx Ha IH]; intros i Hi;
    simpl in Hi; [lia | ].
  rewrite qsum_cons. pose proof (qsum_nonneg a Ha).
  destruct i as [|i]; cbn [nth]; [lra | ].
  specialize (IH i ltac:(lia)). lra.
Qed.

Lemma nth_map_inside {B C} (f : B -> C) (l : list B) (i : nat) (d : C)
  (d' : B) :
  (i < length l)%nat -> nth i (map f l) d = f (nth i l d').
Proof.
  revert i. induction l as [|x l IH]; intros [|i] H; simpl in *;
    try lia; auto.
  apply IH. lia.
Qed.

Lemma scored_positive (chroma : list Q) (i : nat) :
  (i < length chroma)%nat -> 0 < nth i chroma 0 ->
  0 < nth i (scored chroma) 0.
Proof.
  intros Hi Hpos.
  assert (Hc : nth i (np_maximum0 chroma) 0 = nth i chroma 0).
  { unfold np_maximum0. rewrite (nth_map_inside _ _ _ _ 0) by exact Hi.
    destruct (Qltb _ 0) eqn:E; [ | reflexivity].
    apply Qltb_lt in E. lra. }
  assert (Hl : length (np_maximum0 chroma) = length chroma)
    by apply length_map.
  pose proof (qsum_ge_term _ i (qmaximum0_nonneg chroma)
                (eq_ind_r (fun n => (i < n)%nat) Hi Hl)) as Hs.
  rewrite Hc in Hs.
  unfold scored. destruct (Qltb 0 _) eqn:E.
  - unfold np_div. rewrite (nth_map_inside _ _ _ _ 0) by now rewrite Hl.
    rewrite Hc. apply Qltb_lt in E.
    apply Qlt_shift_div_l; [exact E | lra].
  - apply Qltb_ge in E. lra.
Qed.

(** In exact arithmetic (no sum overflows), a chroma with a positive
    entry is given the label of a template, with a positive
    confidence. *)
Theorem best_chord_with_energy (chroma : list Q) :
  length chroma = 12%nat -> Exists (fun x => 0 < x) chroma ->
  exists name confidence,
    best_chord chroma = Ok (name, confidence)
    /\ 0 < confidence
    /\ In name (map fst CHORD_TEMPLATES)
    /\ name <> SENTINEL.
Proof.
  intros Hlen Hex.
  apply Exists_nth in Hex. destruct Hex as (i & d & Hi & Hpos).
  rewrite (nth_indep _ d 0 Hi) in Hpos.
  destruct (best_chord_maximum chroma Hlen)
    as (name & conf & Hrun & Hmax & Hcase).
  exists name, conf. split; [exact Hrun | ].
  assert (Hconf : 0 < conf).
  { pose proof every_pitch_class_covered as Hcov.
    rewrite forallb_forall in Hcov.
    specialize (Hcov i ltac:(apply in_seq; lia)).
    apply existsb_exists in Hcov. destruct Hcov as (e & He & Hw).
    apply Qltb_lt in Hw.
    rewrite Forall_forall in Hmax. specialize (Hmax e He).
    pose proof templates_length as Htl. rewrite Forall_forall in Htl.
    pose proof (dot_ge_term (scored chroma) (weights (snd e)) i
                  (scored_nonneg chroma) (weights_nonneg (snd e))) as Hd.
    rewrite scored_length, weights_length, (Htl e He), Hlen in Hd.
    rewrite Hlen in Hi.
    specialize (Hd Hi Hi). fold (score_of (scored chroma) (snd e)) in Hd.
    rewrite <- Hlen in Hi.
    pose proof (scored_positive chroma i Hi Hpos). nra. }
  split; [exact Hconf | ].
  destruct Hcase as [[_ ->] | (pre & t & post & E & _)]; [lra | ].
  assert (Hin : In name (map fst CHORD_TEMPLATES)).
  { rewrite E, map_app. apply in_or_app. right. now left. }
  split; [exact Hin | ].
  intros ->. exact (sentinel_not_label Hin).
Qed.

(** With the scores computed in exact arithmetic, the label [best_chord]
    returns belongs to the first template, in the order of the table,
    that reaches the highest score, provided that score is positive;
    otherwise the result is the sentinel with a confidence of zero. *)
Theorem best_chord_first_maximum (chroma : list Q) :
  length chroma = 12%nat ->
  exists name confidence,
    best_chord chroma = Ok (name, confidence)
    /\ Forall (fun e => score_of (scored chroma) (snd e) <= confidence)
              CHORD_TEMPLATES
    /\ ((name = SENTINEL /\ confidence = 0)
        \/ exists pre t post,
             CHORD_TEMPLATES = pre ++ (name, t) :: post
             /\ confidence = score_of (scored chroma) t
             /\ 0 < confidence
             /\ Forall (fun e => score_of (scored chroma) (snd e)
                                 < confidence) pre).
Proof. exact (best_chord_maximum chroma). Qed.

End MatcherMore.

(** ** More on the emit decision *)

Section StabilityMore.
Import Stability Loop.
Open Scope Q_scope.

Local Ltac lra := Lqa.lra.

Lemma best_chord_thresholded (chroma : list Q) :
  length chroma = 12%nat ->
  exists name confidence,
    Matcher.best_chord chroma = Ok (name, confidence)
    /\ threshold name confidence = SENTINEL.
Proof.
  intro Hlen.
  destruct (best_loop_bound chroma Matcher.CHORD_TEMPLATES Hlen
              templates_third (SENTINEL, 0)) as ([name conf] & Hrun & Hle).
  { simpl. lra. }
  exists name, conf. split; [exact Hrun | ]. simpl in Hle.
  unfold threshold.
  assert (Hlt : Matcher.Qltb conf CONF_MIN = true).
  { apply Qltb_lt. unfold CONF_MIN. lra. }
  now rewrite Hlt.
Qed.

(** The loop as a whole never hands anything to the display: the
    confidence of the matcher stays under [CONF_MIN], the label is the
    sentinel in every cycle, and the sentinel is what the memory starts
    with. *)
Theorem loop_never_emits (chromas : list (list Q)) :
  Forall (fun c => length c = 12%nat) chromas ->
  cycles initial chromas = Ok (initial, repeat None (length chromas)).
Proof.
  induction 1 as [|c chromas Hc _ IH]; [reflexivity | ].
  cbn [cycles]. unfold recognise.
  destruct (best_chord_thresholded c Hc) as (name & conf & -> & Ht).
  cbn [bind]. rewrite Ht.
  change (emit_step initial SENTINEL conf) with (initial, @None (string * Q)).
  cbn [bind fst snd]. now rewrite IH.
Qed.

(** A result that has just been through a cycle is not emitted again
    when it recurs unchanged. *)
Theorem no_repeated_emission (st : emitted) (chord_name : string)
  (confidence : Q) :
  should_emit (fst (emit_step st chord_name confidence))
              chord_name confidence = false.
Proof.
  unfold emit_step. destruct (should_emit st chord_name confidence) eqn:E;
    [ | exact E].
  cbn [fst]. unfold should_emit. cbn [last_chord last_score].
  rewrite String.eqb_refl. cbn [negb orb].
  apply andb_false_iff. right. apply Qltb_ge.
  unfold CONF_STEP.
  assert (H : confidence - confidence == 0) by lra.
  rewrite H. discriminate.
Qed.

(** After every cycle the memory holds the label of that cycle, and,
    when the label is not the sentinel, a confidence within 0.05 of that
    of the cycle: what is on display is never further off. *)
Theorem display_tracks_result (st : emitted) (chord_name : string)
  (confidence : Q) :
  let st' := fst (emit_step st chord_name confidence) in
  last_chord st' = chord_name
  /\ (chord_name <> SENTINEL ->
      Qabs (confidence - last_score st') <= CONF_STEP).
Proof.
  cbv zeta. unfold emit_step.
  destruct (should_emit st chord_name confidence) eqn:E; cbn [fst].
  - cbn [last_chord last_score]. split; [reflexivity | ]. intros _.
    assert (H : confidence - confidence == 0) by lra.
    rewrite H. discriminate.
  - unfold should_emit in E. apply orb_false_iff in E. destruct E as [E1 E2].
    apply negb_false_iff, String.eqb_eq in E1. split; [now symmetry | ].
    intro Hs. apply andb_false_iff in E2. destruct E2 as [E2 | E2].
    + apply negb_false_iff, String.eqb_eq in E2. contradiction.
    + now apply Qltb_ge.
Qed.

End StabilityMore.

(** ** More on the chroma extractor *)

Section ChromaMore.
Import Chroma ChromaSpec.
Open Scope R_scope.

(** *** When the extractor returns *)

(** With a window length that is not negative, the extractor returns
    exactly when the block is shorter than the window, or the sample
    rate is not zero and the window has at least four samples (a hop of
    at least one). *)
Theorem chroma_returns_iff (y : list R) (sr n_fft : Z) :
  (0 <= n_fft)%Z ->
  (returns (chroma_from_audio y sr n_fft)
   <-> (Py.len y < n_fft)%Z \/ (sr <> 0 /\ 4 <= n_fft)%Z)
  /\ ((n_fft <= Py.len y)%Z -> (sr = 0 \/ n_fft = 0)%Z ->
      chroma_from_audio y sr n_fft = Raise ZeroDivisionError)
  /\ ((n_fft <= Py.len y)%Z -> (sr <> 0)%Z -> (1 <= n_fft <= 3)%Z ->
      chroma_from_audio y sr n_fft = Raise ValueError).
Proof.
  intro Hn.
  assert (Hzero : (n_fft <= Py.len y)%Z -> (sr = 0 \/ n_fft = 0)%Z ->
                  chroma_from_audio y sr n_fft = Raise ZeroDivisionError).
  { intros Hlong Hz. unfold chroma_from_audio.
    destruct (Py.len y <? n_fft)%Z eqn:E; [apply Z.ltb_lt in E; lia | ].
    unfold rfftfreq. destruct (sr =? 0)%Z eqn:Es; [reflexivity | ].
    apply Z.eqb_neq in Es.
    destruct (n_fft =? 0)%Z eqn:En; [reflexivity | ].
    apply Z.eqb_neq in En. lia. }
  assert (Hvalue : (n_fft <= Py.len y)%Z -> (sr <> 0)%Z ->
                   (1 <= n_fft <= 3)%Z ->
                   chroma_from_audio y sr n_fft = Raise ValueError).
  { intros Hlong Hs Hsmall. unfold chroma_from_audio.
    destruct (Py.len y <? n_fft)%Z eqn:E; [apply Z.ltb_lt in E; lia | ].
    destruct (rfftfreq_returns n_fft sr) as [freqs ->]; [lia | auto | ].
    cbn [bind]. unfold frame_starts, Py.range.
    assert (Hhop : (n_fft / 4 = 0)%Z) by (apply Z.div_small; lia).
    rewrite Hhop. reflexivity. }
  split; [ | split; assumption]. split.
  - intros [v Hv].
    destruct (Z_lt_dec (Py.len y) n_fft) as [Hshort | Hlong]; [now left | ].
    right.
    destruct (Z.eq_dec sr 0) as [Hs | Hs];
      [rewrite Hzero in Hv by lia; discriminate | ].
    destruct (Z.eq_dec n_fft 0) as [Hz | Hz];
      [rewrite Hzero in Hv by lia; discriminate | ].
    destruct (Z_le_dec 4 n_fft) as [H4 | H4]; [auto | ].
    rewrite Hvalue in Hv by lia. discriminate.
  - intros [Hshort | [Hs H4]].
    + unfold chroma_from_audio. apply Z.ltb_lt in Hshort.
      rewrite Hshort. eexists. reflexivity.
    + destruct (chroma_from_audio_normalised y sr n_fft H4 Hs)
        as (v & -> & _). eexists. reflexivity.
Qed.

(** *** The frames *)

Lemma range_up_members (fuel : nat) (start stop step s : Z) :
  (0 < step)%Z -> In s (Py.range_up fuel start stop step) ->
  (start <= s < stop)%Z /\ ((s - start) mod step = 0)%Z.
Proof.
  intro Hs. revert start.
  induction fuel as [|fuel IH]; intros start Hin; simpl in Hin;
    [contradiction | ].
  destruct (start <? stop)%Z eqn:E; [ | contradiction].
  apply Z.ltb_lt in E. destruct Hin as [<- | Hin].
  - split; [lia | ]. now rewrite Z.sub_diag, Z.mod_0_l by lia.
  - destruct (IH _ Hin) as [Hb Hm]. split; [lia | ].
    replace (s - start)%Z with (s - (start + step) + 1 * step)%Z by lia.
    now rewrite Z.mod_add by lia.
Qed.

(** On a block of at least one window the loop visits
    [ceil((L - 2048) / 512)] offsets, all multiples of the hop, and every
    frame ends before the last sample of the block: that sample is never
    analysed. *)
Theorem frames_inside_block (L : Z) :
  (N_FFT <= L)%Z ->
  exists starts,
    frame_starts L N_FFT = Ok starts
    /\ length starts = Z.to_nat ((L - N_FFT + HOP_LEN - 1) / HOP_LEN)
    /\ Forall (fun s => (0 <= s)%Z /\ (s mod HOP_LEN = 0)%Z
                        /\ (s + N_FFT < L)%Z) starts.
Proof.
  intro H. unfold frame_starts, Py.range.
  change (N_FFT / 4)%Z with HOP_LEN.
  change (HOP_LEN =? 0)%Z with false. change (0 <? HOP_LEN)%Z with true.
  cbv iota. eexists. split; [reflexivity | ]. split.
  - rewrite range_up_length by (unfold HOP_LEN; lia).
    do 2 f_equal. lia.
  - apply Forall_forall. intros s Hin.
    apply range_up_members in Hin; [ | unfold HOP_LEN; lia].
    destruct Hin as [Hb Hm]. rewrite Z.sub_0_r in Hm. lia.
Qed.

(** *** Blocks without a spectrum *)

Lemma all_zero_firstn (n : nat) (l : list R) :
  all_zero l -> all_zero (firstn n l).
Proof.
  unfold all_zero. intro H. revert n.
  induction H as [|x l Hx _ IH]; intros [|n]; simpl; constructor; auto.
Qed.

Lemma all_zero_skipn (n : nat) (l : list R) :
  all_zero l -> all_zero (skipn n l).
Proof.
  unfold all_zero. intro H. revert n.
  induction H as [|x l Hx Hl IH]; intros [|n]; simpl; auto.
Qed.

Lemma all_zero_mul (a w : list R) : all_zero a -> all_zero (np_mul a w).
Proof.
  unfold all_zero. intro H. revert w.
  induction H as [|x a Hx _ IH]; intros [|v w]; simpl; constructor; auto.
  rewrite Hx. ring.
Qed.

Lemma fft_mag_all_zero (frame : list R) :
  all_zero frame -> all_zero (fft_mag frame).
Proof.
  intro H. unfold all_zero, fft_mag. apply Forall_map, Forall_forall.
  intros k _. unfold bin_mag. rewrite !dft_sum_zero by exact H.
  unfold Rsqr. rewrite Rmult_0_l, Rplus_0_l. apply sqrt_0.
Qed.

Lemma spectra_all_zero (y : list R) (n_fft : Z) (starts : list Z) :
  all_zero (map (fun v => v - np_mean y) y) ->
  Forall all_zero (spectra y n_fft starts).
Proof.
  intro H. unfold spectra. apply Forall_map, Forall_forall.
  intros start _. apply fft_mag_all_zero. unfold frame_at.
  apply all_zero_mul. unfold Py.slice.
  now apply all_zero_firstn, all_zero_skipn.
Qed.

Lemma frames_below_floor sr (freqs : list R) (spec : list (list R))
  (acc : list R) :
  Forall all_zero spec ->
  fold_left (fun a mags => accumulate sr freqs mags a) spec acc = acc.
Proof.
  induction 1 as [|mags spec Hm _ IH]; [reflexivity | ].
  cbn [fold_left]. rewrite accumulate_below_floor; [exact IH | ].
  eapply Forall_impl; [ | exact Hm]. cbv beta.
  intros m ->. apply floor_pos.
Qed.

(** A block whose samples all equal its mean has no spectrum left once
    the mean is removed. *)
Lemma chroma_centred_zero (y : list R) (sr n_fft : Z) :
  (4 <= n_fft)%Z -> (sr <> 0)%Z ->
  all_zero (map (fun v => v - np_mean y) y) ->
  exists w, chroma_from_audio y sr n_fft = Ok w
            /\ length w = 12%nat /\ all_zero w.
Proof.
  intros Hn Hs Hz. unfold chroma_from_audio.
  destruct (Py.len y <? n_fft)%Z.
  { exists (np_zeros 12). repeat split. apply np_zeros_all_zero. }
  destruct (rfftfreq_returns n_fft sr) as [freqs ->]; [lia | auto | ].
  unfold frame_starts.
  destruct (range_returns 0 (Py.len y - n_fft) (n_fft / 4)) as [starts ->].
  { assert (1 <= n_fft / 4)%Z by (apply Z.div_le_lower_bound; lia). lia. }
  cbn [bind].
  rewrite frames_below_floor by now apply spectra_all_zero.
  set (avg := if (0 <? length starts)%nat
              then np_div (np_zeros 12) (INR (length starts))
              else np_zeros 12).
  assert (Havg : all_zero avg /\ length avg = 12%nat).
  { unfold avg. destruct (0 <? length starts)%nat.
    - split; [ | now rewrite np_div_length].
      unfold all_zero, np_div, np_zeros. rewrite map_repeat.
      apply Forall_forall. intros x Hx. apply repeat_spec in Hx.
      subst x. unfold Rdiv. ring.
    - split; [apply np_zeros_all_zero | reflexivity]. }
  destruct Havg as [Hav Hal].
  rewrite (all_zero_sum _ Hav).
  destruct (Rlt_dec 0 0) as [H | _]; [lra | ].
  exists avg. auto.
Qed.

Lemma np_sum_repeat (v : R) (n : nat) : np_sum (repeat v n) = INR n * v.
Proof.
  unfold np_sum. induction n as [|n IH].
  - simpl. ring.
  - cbn [repeat fold_right]. rewrite IH, S_INR. ring.
Qed.

(** A constant block, silence in particular, gives the all-zero
    chromagram, whatever its length. *)
Theorem chroma_constant_block (v : R) (n : nat) (sr n_fft : Z) :
  (4 <= n_fft)%Z -> (sr <> 0)%Z ->
  exists w, chroma_from_audio (repeat v n) sr n_fft = Ok w
            /\ length w = 12%nat /\ all_zero w.
Proof.
  intros Hn Hs. apply chroma_centred_zero; auto.
  unfold all_zero. destruct n as [|n]; [constructor | ].
  rewrite map_repeat. apply Forall_forall.
  intros x Hx. apply repeat_spec in Hx. subst x.
  unfold np_mean. rewrite np_sum_repeat, repeat_length.
  field. apply not_0_INR. discriminate.
Qed.

(** *** Offset and polarity *)

Lemma np_mean_offset (d : R) (y : list R) :
  y <> [] -> np_mean (np_offset d y) = np_mean y + d.
Proof.
  intro Hy. unfold np_mean, np_offset. rewrite length_map.
  assert (Hs : np_sum (map (fun v => v + d) y)
               = np_sum y + INR (length y) * d).
  { unfold np_sum. clear Hy. induction y as [|x y IH].
    - simpl. ring.
    - cbn [map fold_right length]. rewrite IH, S_INR. ring. }
  rewrite Hs. field. apply not_0_INR.
  destruct y; [now elim Hy | discriminate].
Qed.

(** Adding a constant to every sample of the block leaves the
    chromagram unchanged: the mean is removed first. *)
Theorem chroma_offset_invariant (d : R) (y : list R) (sr n_fft : Z) :
  chroma_from_audio (np_offset d y) sr n_fft = chroma_from_audio y sr n_fft.
Proof.
  unfold chroma_from_audio.
  assert (Hlen : Py.len (np_offset d y) = Py.len y).
  { unfold Py.len, np_offset. now rewrite length_map. }
  assert (Hc : map (fun v => v - np_mean (np_offset d y)) (np_offset d y)
               = map (fun v => v - np_mean y) y).
  { destruct y as [|x y]; [reflexivity | ].
    rewrite np_mean_offset by discriminate.
    unfold np_offset. rewrite map_map. apply map_ext. intro v. ring. }
  rewrite Hlen. unfold spectra. now rewrite Hc.
Qed.

Lemma bin_mag_scale_abs (c : R) (f : list R) (k : nat) :
  bin_mag (np_scale c f) k = Rabs c * bin_mag f k.
Proof.
  unfold bin_mag. rewrite np_scale_length, !dft_sum_scale.
  rewrite !Rsqr_mult, <- Rmult_plus_distr_l.
  rewrite sqrt_mult_alt by apply Rle_0_sqr.
  now rewrite sqrt_Rsqr_abs.
Qed.

(** Inverting the polarity of the block leaves the chromagram
    unchanged: only the magnitudes of the bins are used. *)
Theorem chroma_polarity_invariant (y : list R) (sr n_fft : Z) :
  chroma_from_audio (np_scale (-1) y) sr n_fft
  = chroma_from_audio y sr n_fft.
Proof.
  unfold chroma_from_audio.
  assert (Hlen : Py.len (np_scale (-1) y) = Py.len y).
  { unfold Py.len. now rewrite np_scale_length. }
  assert (Hs : forall starts,
             spectra (np_scale (-1) y) n_fft starts
             = spectra y n_fft starts).
  { intro starts. unfold spectra. rewrite centre_scale.
    apply map_ext. intro start. unfold frame_at.
    rewrite slice_scale, np_mul_scale. unfold fft_mag.
    rewrite np_scale_length. apply map_ext. intro k.
    rewrite bin_mag_scale_abs.
    replace (Rabs (-1)) with 1
      by (unfold Rabs; destruct (Rcase_abs (-1)); lra).
    ring. }
  rewrite Hlen.
  destruct (Py.len y <? n_fft)%Z; [reflexivity | ].
  destruct (rfftfreq n_fft sr) as [freqs | e]; [ | reflexivity].
  cbn [bind].
  destruct (frame_starts (Py.len y) n_fft) as [starts | e];
    [ | reflexivity].
  cbn [bind]. now rewrite Hs.
Qed.

(** *** The smoothing over several cycles *)

Lemma settled_blend (k : nat) (s c : list R) :
  settled k (blend s c) c = settled (S k) s c.
Proof.
  revert c. induction s as [|x s IH]; intros [|z c]; simpl; auto.
  rewrite IH. f_equal. unfold CHROMA_SMOOTH. ring.
Qed.

Lemma settled_0 (s c : list R) : length s = length c -> settled 0 s c = s.
Proof.
  revert c. induction s as [|x s IH]; intros [|z c] H; simpl in *;
    try discriminate; auto.
  rewrite IH by congruence. f_equal. ring.
Qed.

(** In exact arithmetic, after [k] cycles that all see the chromagram
    [c], the smoothed chromagram has covered all but [0.7 ^ k] of the way
    from where it started to [c]. *)
Theorem smoothing_settles (k : nat) (s c : list R) :
  length s = length c ->
  smooth_all (Some s) (repeat c k) = Some (settled k s c).
Proof.
  unfold smooth_all. revert s.
  induction k as [|k IH]; intros s H; cbn [repeat fold_left].
  - now rewrite settled_0.
  - cbn [smooth]. rewrite IH by now rewrite blend_length.
    now rewrite settled_blend.
Qed.

End ChromaMore.

(** ** The helpers of [quantum_chord_display.py] *)

Section DisplayFacts.
Import Chroma Display.
Open Scope R_scope.

(** The template bank of [quantum_chord_display.py] is the one of
    [main.py]: the same labels with the same vectors, in the same
    order. *)
Theorem templates_agree : TEMPLATES = Matcher.CHORD_TEMPLATES.
Proof. vm_compute. reflexivity. Qed.

Lemma sum_squares_nonneg (x : list R) : 0 <= np_sum (np_mul x x).
Proof.
  unfold np_sum. induction x as [|v x IH]; simpl; [lra | nra].
Qed.

Lemma sum_squares_scale (c : R) (x : list R) :
  np_sum (np_mul (np_scale c x) (np_scale c x))
  = c² * np_sum (np_mul x x).
Proof.
  unfold np_sum, np_scale, Rsqr. induction x as [|v x IH]; simpl;
    [ring | rewrite IH; ring].
Qed.

Lemma np_mul_length_same (x : list R) : length (np_mul x x) = length x.
Proof. induction x as [|v x IH]; simpl; auto. Qed.

(** [rms] is never negative, and scales with the absolute value of a
    factor applied to every sample. *)
Theorem rms_homogeneous (c : R) (x : list R) :
  0 <= rms x /\ rms (np_scale c x) = Rabs c * rms x.
Proof.
  unfold rms. rewrite np_scale_length.
  destruct (Nat.eqb (length x) 0); [split; [lra | ring] | ].
  split; [apply sqrt_pos | ].
  unfold np_mean. rewrite sum_squares_scale, !np_mul_length_same.
  rewrite np_scale_length.
  replace (c² * np_sum (np_mul x x) / INR (length x))
    with (c² * (np_sum (np_mul x x) / INR (length x)))
    by (unfold Rdiv; ring).
  rewrite sqrt_mult_alt by apply Rle_0_sqr.
  now rewrite sqrt_Rsqr_abs.
Qed.

Lemma sum_squares_zero (x : list R) :
  np_sum (np_mul x x) = 0 -> all_zero x.
Proof.
  unfold all_zero. induction x as [|v x IH]; intro H; constructor;
    pose proof (sum_squares_nonneg x) as Hx;
    unfold np_sum in *; simpl in H.
  - nra.
  - apply IH. nra.
Qed.

(** In exact arithmetic (no square underflows), [rms] is zero exactly on
    the arrays whose samples are all zero (the empty one among them). *)
Theorem rms_zero_iff (x : list R) : rms x = 0 <-> all_zero x.
Proof.
  unfold rms. destruct x as [|v x]; [split; [constructor | reflexivity] | ].
  cbn [length Nat.eqb]. unfold np_mean. rewrite np_mul_length_same.
  set (n := INR (length (v :: x))).
  assert (Hn : 0 < n) by (apply lt_0_INR; simpl; lia).
  pose proof (sum_squares_nonneg (v :: x)) as Hs. split.
  - intro H. apply sum_squares_zero.
    apply sqrt_eq_0 in H.
    + unfold Rdiv in H. apply Rmult_integral in H.
      destruct H as [H | H]; [exact H | ].
      pose proof (Rinv_0_lt_compat n Hn). lra.
    + unfold Rdiv. apply Rmult_le_pos; [exact Hs | ].
      left. now apply Rinv_0_lt_compat.
  - intro H. assert (Hz : np_sum (np_mul (v :: x) (v :: x)) = 0).
    { apply all_zero_sum, all_zero_mul, H. }
    rewrite Hz. unfold Rdiv. rewrite Rmult_0_l. apply sqrt_0.
Qed.

Lemma norm_floor_pos : 0 < NORM_FLOOR.
Proof.
  unfold NORM_FLOOR. apply Rdiv_lt_0_compat; [lra | apply pow_lt; lra].
Qed.

(** A vector whose norm reaches the floor has a cosine similarity of one
    with itself. *)
Theorem cosine_sim_self (a : list R) :
  NORM_FLOOR <= norm a -> cosine_sim a a = Ok 1.
Proof.
  intro H. pose proof norm_floor_pos as Hf. unfold cosine_sim.
  destruct (Rlt_dec (norm a) NORM_FLOOR) as [Hlt | _]; [lra | ].
  unfold np_dot. rewrite Nat.eqb_refl. cbn [bind]. f_equal.
  unfold norm in *. set (s := np_sum (np_mul a a)) in *.
  rewrite sqrt_sqrt by apply sum_squares_nonneg.
  field. intro Hs. rewrite Hs, sqrt_0 in H. lra.
Qed.

Lemma cauchy_step (x y D p q : R) :
  0 <= p -> 0 <= q -> - (p * q) <= D <= p * q ->
  (x * y + D) * (x * y + D) <= (x * x + p * p) * (y * y + q * q).
Proof.
  intros Hp Hq HD.
  pose proof (Rle_0_sqr (x * q - y * p)) as H1.
  pose proof (Rle_0_sqr (x * q + y * p)) as H2.
  unfold Rsqr in H1, H2.
  assert (H3 : 0 <= (p * q - D) * (p * q + D))
    by (apply Rmult_le_pos; lra).
  destruct (Rle_dec 0 (x * y)) as [Hxy | Hxy].
  - assert (H4 : 0 <= (x * y) * (p * q - D))
      by (apply Rmult_le_pos; lra).
    nra.
  - assert (H4 : 0 <= (- (x * y)) * (p * q + D))
      by (apply Rmult_le_pos; lra).
    nra.
Qed.

(** Cauchy-Schwarz on the products the two helpers compute. *)
Lemma dot_square_le (a b : list R) :
  (np_sum (np_mul a b))² <= np_sum (np_mul a a) * np_sum (np_mul b b).
Proof.
  revert b. induction a as [|x a IH]; intros [|y b].
  - unfold np_sum, Rsqr. simpl. lra.
  - pose proof (sum_squares_nonneg (y :: b)).
    unfold np_sum, Rsqr in *. simpl in *. lra.
  - pose proof (sum_squares_nonneg (x :: a)).
    unfold np_sum, Rsqr in *. simpl in *. lra.
  - specialize (IH b).
    pose proof (sum_squares_nonneg a) as Ha.
    pose proof (sum_squares_nonneg b) as Hb.
    change (np_sum (np_mul (x :: a) (y :: b)))
      with (x * y + np_sum (np_mul a b)).
    change (np_sum (np_mul (x :: a) (x :: a)))
      with (x * x + np_sum (np_mul a a)).
    change (np_sum (np_mul (y :: b) (y :: b)))
      with (y * y + np_sum (np_mul b b)).
    revert IH Ha Hb.
    generalize (np_sum (np_mul a b)), (np_sum (np_mul a a)),
      (np_sum (np_mul b b)).
    intros D A B IH Ha Hb.
    assert (Hp : sqrt A * sqrt A = A) by (apply sqrt_sqrt; exact Ha).
    assert (Hq : sqrt B * sqrt B = B) by (apply sqrt_sqrt; exact Hb).
    pose proof (sqrt_pos A) as Hp0. pose proof (sqrt_pos B) as Hq0.
    unfold Rsqr in *. rewrite <- Hp, <- Hq in IH. rewrite <- Hp, <- Hq.
    clear Hp Hq Ha Hb.
    revert IH Hp0 Hq0. generalize (sqrt A), (sqrt B). intros p q IH Hp0 Hq0.
    apply cauchy_step; auto.
    assert (H0 : 0 <= p * q) by now apply Rmult_le_pos.
    split; nra.
Qed.

(** In exact arithmetic, whatever [cosine_sim] returns lies between
    minus one and one. *)
Theorem cosine_sim_bounded (a b : list R) (r : R) :
  cosine_sim a b = Ok r -> -1 <= r <= 1.
Proof.
  pose proof norm_floor_pos as Hf. unfold cosine_sim.
  destruct (Rlt_dec (norm a) NORM_FLOOR) as [_ | Ha];
    [intro H; injection H as <-; lra | ].
  destruct (Rlt_dec (norm b) NORM_FLOOR) as [_ | Hb];
    [intro H; injection H as <-; lra | ].
  unfold np_dot. destruct (Nat.eqb (length a) (length b)); [ | discriminate].
  cbn [bind]. intro H. injection H as <-.
  pose proof (dot_square_le a b) as Hcs. unfold norm in *.
  pose proof (sum_squares_nonneg a) as HA.
  pose proof (sum_squares_nonneg b) as HB.
  set (D := np_sum (np_mul a b)) in *.
  set (p := sqrt (np_sum (np_mul a a))) in *.
  set (q := sqrt (np_sum (np_mul b b))) in *.
  assert (Hp : p * p = np_sum (np_mul a a)) by (apply sqrt_sqrt; exact HA).
  assert (Hq : q * q = np_sum (np_mul b b)) by (apply sqrt_sqrt; exact HB).
  rewrite <- Hp, <- Hq in Hcs. unfold Rsqr in Hcs.
  assert (Hpq : 0 < p * q) by (apply Rmult_lt_0_compat; lra).
  assert (HD : - (p * q) <= D <= p * q) by (split; nra).
  split.
  - apply Rmult_le_reg_r with (r := p * q); [exact Hpq | ].
    unfold Rdiv. rewrite Rmult_assoc, Rinv_l by lra. lra.
  - apply Rmult_le_reg_r with (r := p * q); [exact Hpq | ].
    unfold Rdiv. rewrite Rmult_assoc, Rinv_l by lra. lra.
Qed.

Lemma np_mul_comm (a b : list R) : np_mul a b = np_mul b a.
Proof.
  revert b. induction a as [|x a IH]; intros [|y b]; simpl; auto.
  rewrite IH. f_equal. ring.
Qed.

(** [cosine_sim] does not depend on the order of its arguments, whether
    it returns or raises. *)
Theorem cosine_sim_symmetric (a b : list R) :
  cosine_sim a b = cosine_sim b a.
Proof.
  unfold cosine_sim.
  destruct (Rlt_dec (norm a) NORM_FLOOR), (Rlt_dec (norm b) NORM_FLOOR);
    try reflexivity.
  unfold np_dot. rewrite (Nat.eqb_sym (length b)).
  destruct (Nat.eqb (length a) (length b)); [ | reflexivity].
  cbn [bind]. rewrite (np_mul_comm b a), (Rmult_comm (norm b)).
  reflexivity.
Qed.

(** [cosine_sim] raises only on two vectors of different lengths whose
    norms both reach the floor; a vector under the floor gives zero
    whatever the other one is. *)
Theorem cosine_sim_returns_iff (a b : list R) :
  (returns (cosine_sim a b)
   <-> norm a < NORM_FLOOR \/ norm b < NORM_FLOOR \/ length a = length b)
  /\ (norm a < NORM_FLOOR \/ norm b < NORM_FLOOR -> cosine_sim a b = Ok 0)
  /\ (~ returns (cosine_sim a b) -> cosine_sim a b = Raise ValueError).
Proof.
  unfold cosine_sim, returns.
  destruct (Rlt_dec (norm a) NORM_FLOOR) as [Ha | Ha].
  { split; [split; eauto | split; auto]. intro H. elim H. eauto. }
  destruct (Rlt_dec (norm b) NORM_FLOOR) as [Hb | Hb].
  { split; [split; eauto | split; auto]. intro H. elim H. eauto. }
  unfold np_dot. destruct (Nat.eqb_spec (length a) (length b)) as [E | E];
    cbn [bind].
  - split; [split; eauto | split; [tauto | ]]. intro H. elim H. eauto.
  - split; [split | split; [tauto | reflexivity]].
    + intros [r H]. discriminate.
    + intros [H | [H | H]]; contradiction.
Qed.

End DisplayFacts.

(** ** Instances *)

Lemma push_all_cursor_witness :
  let rb := {| RingBuffer.size := 4; RingBuffer.buf := [0; 0; 0; 0];
               RingBuffer.write_idx := 0; RingBuffer.filled := false |} in
  exists rb',
    RingBuffer.push_all rb [[1; 2; 3]; [4; 5; 6]; [7]] = Ok rb'
    /\ RingBuffer.wf rb' /\ RingBuffer.size rb' = 4
    /\ RingBuffer.write_idx rb' = (0 + 7) mod 4
    /\ (concat [[1; 2; 3]; [4; 5; 6]; [7]] <> []
        -> RingBuffer.filled rb' = true).
Proof.
  apply (push_all_cursor [[1; 2; 3]; [4; 5; 6]; [7]]
           {| RingBuffer.size := 4; RingBuffer.buf := [0; 0; 0; 0];
              RingBuffer.write_idx := 0; RingBuffer.filled := false |}).
  - unfold RingBuffer.wf, Py.len. simpl. lia.
  - repeat constructor; unfold Py.len; simpl; lia.
Defined.

Lemma read_last_length_witness :
  let rb := {| RingBuffer.size := 4; RingBuffer.buf := [1; 2; 3; 4];
               RingBuffer.write_idx := 2; RingBuffer.filled := true |} in
  exists l, RingBuffer.read_last rb 3 = Ok l /\ Py.len l = Z.min 3 4.
Proof.
  apply (read_last_length
           {| RingBuffer.size := 4; RingBuffer.buf := [1; 2; 3; 4];
              RingBuffer.write_idx := 2; RingBuffer.filled := true |} 3).
  - unfold RingBuffer.wf, Py.len. simpl. lia.
  - reflexivity.
  - lia.
Defined.

Lemma read_last_zero_witness :
  let rb := {| RingBuffer.size := 4; RingBuffer.buf := [1; 2; 3; 4];
               RingBuffer.write_idx := 2; RingBuffer.filled := true |} in
  RingBuffer.read_last rb 0 = Ok [3; 4; 1; 2]
  /\ Py.len [3; 4; 1; 2] = 4.
Proof.
  apply (read_last_zero
           {| RingBuffer.size := 4; RingBuffer.buf := [1; 2; 3; 4];
              RingBuffer.write_idx := 2; RingBuffer.filled := true |}).
  unfold RingBuffer.wf, Py.len. simpl. lia.
Defined.

Lemma read_last_most_recent_witness :
  let rb := {| RingBuffer.size := 4; RingBuffer.buf := [0; 0; 0; 0];
               RingBuffer.write_idx := 0; RingBuffer.filled := false |} in
  exists rb',
    RingBuffer.push_all rb [[1; 2; 3]] = Ok rb'
    /\ RingBuffer.read_last rb' 2 = Ok [2; 3].
Proof.
  apply (read_last_most_recent
           {| RingBuffer.size := 4; RingBuffer.buf := [0; 0; 0; 0];
              RingBuffer.write_idx := 0; RingBuffer.filled := false |}
           [[1; 2; 3]] 2).
  - unfold RingBuffer.wf, Py.len. simpl. lia.
  - repeat constructor; unfold Py.len; simpl; lia.
  - simpl. lia.
  - unfold Py.len. simpl. lia.
Defined.

Lemma read_last_fresh_zero_padded_witness :
  exists rb0 rb,
    RingBuffer.init 0 4 = Ok rb0
    /\ RingBuffer.push_all rb0 [[7]; [8]] = Ok rb
    /\ RingBuffer.read_last rb 3 = Ok [0; 7; 8].
Proof.
  apply (read_last_fresh_zero_padded 0 4 3 [[7]; [8]]).
  - repeat constructor; unfold Py.len; simpl; lia.
  - unfold Py.len. simpl. lia.
  - lia.
Defined.

Lemma read_last_fresh_empty_witness :
  exists rb0, RingBuffer.init 0 4 = Ok rb0
              /\ RingBuffer.read_last rb0 2 = Ok [].
Proof. apply (read_last_fresh_empty 0 4 2); lia. Defined.

Lemma zero_capacity_raises_witness :
  exists rb0,
    RingBuffer.init 0 0 = Ok rb0
    /\ RingBuffer.read_last rb0 5 = Raise ZeroDivisionError
    /\ RingBuffer.push rb0 [1] = Raise ZeroDivisionError.
Proof. apply (zero_capacity_raises 0 5 [1]). discriminate. Defined.

Lemma frames_inside_block_witness :
  exists starts,
    Chroma.frame_starts WIN_SAMPLES N_FFT = Ok starts
    /\ length starts = 29%nat
    /\ Forall (fun s => 0 <= s /\ s mod HOP_LEN = 0
                        /\ s + N_FFT < WIN_SAMPLES) starts.
Proof.
  apply (frames_inside_block WIN_SAMPLES).
  unfold N_FFT, WIN_SAMPLES. lia.
Defined.

Open Scope Q_scope.

Lemma best_chord_first_maximum_witness :
  let chroma := [1; 0; 0; 0; 1; 0; 0; 1; 0; 0; 0; 0] in
  exists name confidence,
    Matcher.best_chord chroma = Ok (name, confidence)
    /\ Forall (fun e => MatcherSpec.score_of (Matcher.scored chroma) (snd e)
                        <= confidence)
              Matcher.CHORD_TEMPLATES
    /\ ((name = SENTINEL /\ confidence = 0)
        \/ exists pre t post,
             Matcher.CHORD_TEMPLATES = pre ++ (name, t) :: post
             /\ confidence = MatcherSpec.score_of (Matcher.scored chroma) t
             /\ 0 < confidence
             /\ Forall (fun e => MatcherSpec.score_of
                                   (Matcher.scored chroma) (snd e)
                                 < confidence) pre).
Proof.
  apply (best_chord_first_maximum [1; 0; 0; 0; 1; 0; 0; 1; 0; 0; 0; 0]).
  reflexivity.
Defined.

Lemma best_chord_no_energy_witness :
  Matcher.best_chord [0; -(1); 0; 0; 0; 0; 0; 0; -(1 # 2); 0; 0; 0]
  = Ok (SENTINEL, 0).
Proof.
  apply best_chord_no_energy.
  - reflexivity.
  - repeat constructor; discriminate.
Defined.

Lemma best_chord_with_energy_witness :
  exists name confidence,
    Matcher.best_chord [0; 0; 1 # 2; 0; 0; 0; 0; 0; 0; 0; 0; 0]
    = Ok (name, confidence)
    /\ 0 < confidence
    /\ In name (map fst Matcher.CHORD_TEMPLATES)
    /\ name <> SENTINEL.
Proof.
  apply (best_chord_with_energy [0; 0; 1 # 2; 0; 0; 0; 0; 0; 0; 0; 0; 0]).
  - reflexivity.
  - apply Exists_cons_tl, Exists_cons_tl, Exists_cons_hd. reflexivity.
Defined.

Lemma best_chord_wrong_length_witness :
  Matcher.best_chord [1; 2] = Raise ValueError.
Proof. apply best_chord_wrong_length. simpl. lia. Defined.

Lemma best_chord_scale_invariant_witness :
  exists name confidence confidence',
    Matcher.best_chord
      (map (Qmult 2) [1; 0; 0; 0; 1; 0; 0; 1; 0; 0; 0; 0])
    = Ok (name, confidence)
    /\ Matcher.best_chord [1; 0; 0; 0; 1; 0; 0; 1; 0; 0; 0; 0]
       = Ok (name, confidence')
    /\ confidence == confidence'.
Proof.
  apply (best_chord_scale_invariant 2).
  - reflexivity.
  - reflexivity.
Defined.

Lemma loop_never_emits_witness :
  Loop.cycles Stability.initial
    [[1; 0; 0; 0; 1; 0; 0; 1; 0; 0; 0; 0];
     [0; 0; 0; 0; 0; 0; 0; 0; 0; 0; 0; 0]]
  = Ok (Stability.initial, [None; None]).
Proof.
  apply (loop_never_emits
           [[1; 0; 0; 0; 1; 0; 0; 1; 0; 0; 0; 0];
            [0; 0; 0; 0; 0; 0; 0; 0; 0; 0; 0; 0]]).
  repeat constructor.
Defined.

Open Scope R_scope.

Lemma chroma_returns_iff_witness :
  (returns (Chroma.chroma_from_audio [1; 2; 3] SR 2)
   <-> (Py.len [1; 2; 3] < 2)%Z \/ (SR <> 0 /\ 4 <= 2)%Z)
  /\ ((2 <= Py.len [1; 2; 3])%Z -> (SR = 0 \/ 2 = 0)%Z ->
      Chroma.chroma_from_audio [1; 2; 3] SR 2 = Raise ZeroDivisionError)
  /\ ((2 <= Py.len [1; 2; 3])%Z -> (SR <> 0)%Z -> (1 <= 2 <= 3)%Z ->
      Chroma.chroma_from_audio [1; 2; 3] SR 2 = Raise ValueError).
Proof. apply (chroma_returns_iff [1; 2; 3] SR 2). lia. Defined.

Lemma chroma_constant_block_witness :
  exists w,
    Chroma.chroma_from_audio (repeat (1 / 2) 2049) SR N_FFT = Ok w
    /\ length w = 12%nat /\ Chroma.all_zero w.
Proof.
  apply (chroma_constant_block (1 / 2) 2049 SR N_FFT).
  - unfold N_FFT. lia.
  - unfold SR. lia.
Defined.

Lemma smoothing_settles_witness :
  Chroma.smooth_all (Some [1; 0]) (repeat [0; 1] 2)
  = Some (ChromaSpec.settled 2 [1; 0] [0; 1]).
Proof. apply (smoothing_settles 2 [1; 0] [0; 1]). reflexivity. Defined.

Lemma cosine_sim_self_witness : Display.cosine_sim [3; 4] [3; 4] = Ok 1.
Proof.
  apply cosine_sim_self. unfold Display.norm, Display.NORM_FLOOR.
  cbn [Chroma.np_mul Chroma.np_sum fold_right].
  replace (3 * 3 + (4 * 4 + 0)) with (5 * 5) by ring.
  rewrite sqrt_square by lra. cbn [pow]. lra.
Defined.

Lemma cosine_sim_bounded_witness :
  Display.cosine_sim [3; 4] [4; 3] = Ok (24 / (5 * 5))
  /\ -1 <= 24 / (5 * 5) <= 1.
Proof.
  assert (H5 : forall x y, x * x + (y * y + 0) = 5 * 5 ->
                           sqrt (x * x + (y * y + 0)) = 5).
  { intros x y ->. apply sqrt_square. lra. }
  assert (E : Display.cosine_sim [3; 4] [4; 3] = Ok (24 / (5 * 5))).
  { unfold Display.cosine_sim, Display.norm, Display.np_dot.
    cbn [Chroma.np_mul Chroma.np_sum fold_right length Nat.eqb bind].
    rewrite (H5 3 4), (H5 4 3) by ring.
    destruct (Rlt_dec 5 Display.NORM_FLOOR) as [H | _].
    - unfold Display.NORM_FLOOR in H. cbn [pow] in H. lra.
    - do 2 f_equal. ring. }
  split; [exact E | ].
  exact (cosine_sim_bounded [3; 4] [4; 3] (24 / (5 * 5)) E).
Defined.
